(** * WizardJam: aim resolution, projectile dispatch and projectile hits

    A shallow embedding of three collaborating classes of the WizardJam
    sources and the properties their design document states about them:

    - [UAC_AimComponent]   (AC_AimComponent.cpp): ray resolution, target
      classification and change-suppressed notifications;
    - [UAC_CombatComponent] (AC_CombatComponent.cpp): cooldown-gated
      projectile dispatch and the fire-blocked taxonomy;
    - [ABaseProjectile]    (BaseProjectile.cpp): overlap handling, the
      team-based friendly exemption and self-destruction.

    Conventions of the embedding.
    - The engine's [float]/[double] quantities are idealised as real numbers
      ([R]); comparisons are the decidable comparisons of [R].
    - An actor pointer is an object identity ([AActor := nat]); a nullable
      pointer is an [option].  A weak pointer is the option that its [Get()]
      returns: the actor it was set to while that actor is alive, null once
      the actor has been destroyed.  The destruction of an actor that the
      aim component remembers is a step of its own ([ActorDestroyed]).
    - An [FName] is the string it was written as; names are compared, and
      used as map keys, through their comparison index, which ignores case.
    - Delegates are modelled by the events they broadcast, collected in
      order of publication.
    - What the engine decides (line traces, spawning, tags, team interfaces)
      is an explicit argument: a record describing the world at the call.
    - Engine functions the sources call ([FVector::GetSafeNormal],
      [FVector::IsNearlyZero], [AActor::Destroy]) are written out after
      their engine definitions.  Logging and visual effects assets are left
      out; the call that plays the impact effect is kept as an effect. *)

From stdpp Require Import gmap strings.
From Stdlib Require Import Reals Lra List.
Import ListNotations.

Open Scope R_scope.

(** ** Engine vector math ([FVector]) *)

Module FMath.

Record FVector : Type := mkFVector { X : R; Y : R; Z : R }.

Definition ZeroVector    : FVector := mkFVector 0 0 0.
Definition ForwardVector : FVector := mkFVector 1 0 0.
Definition UpVector      : FVector := mkFVector 0 0 1.

(** [UE_SMALL_NUMBER] (1e-8) and [UE_KINDA_SMALL_NUMBER] (1e-4). *)
Definition SMALL_NUMBER       : R := / 100000000.
Definition KINDA_SMALL_NUMBER : R := / 10000.

Definition vadd (a b : FVector) : FVector :=
  mkFVector (X a + X b) (Y a + Y b) (Z a + Z b).
Definition vsub (a b : FVector) : FVector :=
  mkFVector (X a - X b) (Y a - Y b) (Z a - Z b).
Definition vscale (a : FVector) (s : R) : FVector :=
  mkFVector (X a * s) (Y a * s) (Z a * s).
Definition vneg (a : FVector) : FVector :=
  mkFVector (- X a) (- Y a) (- Z a).

Definition DotProduct (a b : FVector) : R :=
  X a * X b + Y a * Y b + Z a * Z b.
Definition SizeSquared (a : FVector) : R :=
  X a * X a + Y a * Y a + Z a * Z a.
Definition Size (a : FVector) : R := sqrt (SizeSquared a).
Definition Dist (a b : FVector) : R := Size (vsub a b).

(** [FVector::GetSafeNormal(Tolerance = SMALL_NUMBER)]: the vector itself
    when its squared length is exactly one, the zero vector when the squared
    length is below the tolerance, the vector scaled by the inverse square
    root of its squared length otherwise. *)
Definition GetSafeNormal (v : FVector) : FVector :=
  let SquareSum := SizeSquared v in
  if Req_dec_T SquareSum 1 then v
  else if Rlt_dec SquareSum SMALL_NUMBER then ZeroVector
  else let Scale := / sqrt SquareSum in vscale v Scale.

(** [FVector::IsNearlyZero(Tolerance = KINDA_SMALL_NUMBER)]. *)
Definition IsNearlyZero (v : FVector) : bool :=
  if Rle_dec (Rabs (X v)) KINDA_SMALL_NUMBER then
    if Rle_dec (Rabs (Y v)) KINDA_SMALL_NUMBER then
      if Rle_dec (Rabs (Z v)) KINDA_SMALL_NUMBER then true else false
    else false
  else false.

Lemma FVector_eq (a b : FVector) :
  X a = X b -> Y a = Y b -> Z a = Z b -> a = b.
Proof. destruct a, b; simpl; intros -> -> ->; reflexivity. Qed.

Lemma SizeSquared_nonneg (v : FVector) : 0 <= SizeSquared v.
Proof. unfold SizeSquared; nra. Qed.

Lemma SizeSquared_vscale (v : FVector) (s : R) :
  SizeSquared (vscale v s) = SizeSquared v * (s * s).
Proof. unfold SizeSquared, vscale; simpl; ring. Qed.

Lemma Size_vscale (v : FVector) (s : R) :
  0 <= s -> Size (vscale v s) = Size v * s.
Proof.
  intro Hs. unfold Size. rewrite SizeSquared_vscale.
  rewrite sqrt_mult_alt by apply SizeSquared_nonneg.
  now rewrite sqrt_square.
Qed.

Lemma Size_ZeroVector : Size ZeroVector = 0.
Proof.
  unfold Size, SizeSquared, ZeroVector; simpl.
  replace (0 * 0 + 0 * 0 + 0 * 0) with 0 by ring. apply sqrt_0.
Qed.

Lemma SMALL_NUMBER_pos : 0 < SMALL_NUMBER.
Proof. unfold SMALL_NUMBER; lra. Qed.

(** Above the tolerance, the safe normal has length one. *)
Lemma GetSafeNormal_unit (v : FVector) :
  SMALL_NUMBER <= SizeSquared v -> Size (GetSafeNormal v) = 1.
Proof.
  intro Hbig. unfold GetSafeNormal.
  destruct (Req_dec_T (SizeSquared v) 1) as [E | NE].
  - unfold Size. rewrite E. apply sqrt_1.
  - destruct (Rlt_dec (SizeSquared v) SMALL_NUMBER) as [Hlt | _]; [lra |].
    assert (Hpos : 0 < SizeSquared v) by (pose proof SMALL_NUMBER_pos; lra).
    pose proof (sqrt_lt_R0 _ Hpos) as Hs.
    rewrite Size_vscale by (left; now apply Rinv_0_lt_compat).
    unfold Size. field. lra.
Qed.

(** Below the tolerance, the safe normal is the zero vector. *)
Lemma GetSafeNormal_small (v : FVector) :
  SizeSquared v < SMALL_NUMBER -> GetSafeNormal v = ZeroVector.
Proof.
  intro Hlt. unfold GetSafeNormal. pose proof SMALL_NUMBER_pos.
  assert (SMALL_NUMBER < 1) by (unfold SMALL_NUMBER; lra).
  destruct (Req_dec_T (SizeSquared v) 1); [lra |].
  destruct (Rlt_dec (SizeSquared v) SMALL_NUMBER); [reflexivity | lra].
Qed.

(** Whatever the input, the safe normal is a unit vector or the zero one. *)
Lemma GetSafeNormal_unit_or_zero (v : FVector) :
  Size (GetSafeNormal v) = 1 \/ GetSafeNormal v = ZeroVector.
Proof.
  destruct (Rlt_dec (SizeSquared v) SMALL_NUMBER) as [Hlt | Hge].
  - right. now apply GetSafeNormal_small.
  - left. apply GetSafeNormal_unit. lra.
Qed.

(** The closed form of the safe normal above the tolerance. *)
Lemma GetSafeNormal_scaled (v : FVector) :
  SMALL_NUMBER <= SizeSquared v ->
  GetSafeNormal v = vscale v (/ Size v).
Proof.
  intro Hbig. unfold GetSafeNormal.
  destruct (Req_dec_T (SizeSquared v) 1) as [E | NE].
  - unfold Size. rewrite E, sqrt_1.
    apply FVector_eq; simpl; field.
  - destruct (Rlt_dec (SizeSquared v) SMALL_NUMBER); [lra | reflexivity].
Qed.

Lemma sqrt_of_square (s x : R) : 0 <= x -> s = x * x -> sqrt s = x.
Proof. intros Hx ->. now apply sqrt_square. Qed.

End FMath.

(** ** Engine object identities, names and team identifiers *)

Definition AActor : Type := nat.
Definition AController : Type := nat.
Definition FName : Type := string.
Definition NAME_None : FName := "None"%string.

(** [FName::operator==] and the key functions of [TMap<FName, ...>] compare
    the comparison index of a name, which two names that differ only in case
    share.  The comparison index is modelled by the name with its ASCII
    letters in lower case, which is how the engine folds case. *)
Definition ToLower (ch : Ascii.ascii) : Ascii.ascii :=
  let n := Ascii.nat_of_ascii ch in
  if Nat.leb 65 n && Nat.leb n 90 then Ascii.ascii_of_nat (n + 32) else ch.

Fixpoint ComparisonIndex (n : FName) : string :=
  match n with
  | EmptyString => EmptyString
  | String ch rest => String (ToLower ch) (ComparisonIndex rest)
  end.

Definition FName_eqb (a b : FName) : bool :=
  String.eqb (ComparisonIndex a) (ComparisonIndex b).

Lemma FName_eqb_eq (a b : FName) :
  FName_eqb a b = true <-> ComparisonIndex a = ComparisonIndex b.
Proof. apply String.eqb_eq. Qed.

Lemma FName_eqb_refl (a : FName) : FName_eqb a a = true.
Proof. now apply FName_eqb_eq. Qed.

Lemma FName_eqb_neq (a b : FName) :
  FName_eqb a b = false <-> ComparisonIndex a <> ComparisonIndex b.
Proof. apply String.eqb_neq. Qed.

(** Names written identically are equal; so are names that differ in case. *)
Example FName_ignores_case :
  FName_eqb "Flame"%string "flame"%string = true
  /\ FName_eqb "Flame"%string "Frost"%string = false.
Proof. split; reflexivity. Qed.

(** [FGenericTeamId] is a [uint8]; [FGenericTeamId::NoTeam] is 255. *)
Definition FGenericTeamId : Type := N.
Definition NoTeam : FGenericTeamId := 255%N.

(** ** The projectile ([ABaseProjectile], BaseProjectile.cpp) *)

Module BaseProjectile.
Import FMath.

Record FHitResult : Type := mkHit {
  bBlockingHit      : bool;
  bStartPenetrating : bool;
  ImpactPoint       : FVector;
  ImpactNormal      : FVector;
  Location          : FVector;
  Normal            : FVector
}.

Definition IsValidBlockingHit (h : FHitResult) : bool :=
  bBlockingHit h && negb (bStartPenetrating h).

(** What the projectile asks of other actors and of itself as an actor. *)
Record World : Type := mkWorld {
  (** [Cast<IGenericTeamAgentInterface>(a)] then [GetGenericTeamId()];
      [None] when the actor does not implement the interface. *)
  GenericTeamId         : AActor -> option FGenericTeamId;
  GetActorLocation      : AActor -> FVector;
  GetActorForwardVector : AActor -> FVector;
  (** [Cast<APawn>(a)] succeeds. *)
  IsPawn                : AActor -> bool;
  GetInstigator         : AActor -> option AActor;
  GetController         : AActor -> option AController
}.

Record ABaseProjectile : Type := mkProjectile {
  Self                  : AActor;
  (* configuration *)
  Damage                : R;
  InitialSpeed          : R;
  LifetimeSeconds       : R;
  HasCollisionSphere    : bool;
  HasProjectileMovement : bool;
  MovementInitialSpeed  : R;   (* ProjectileMovement->InitialSpeed *)
  (* runtime state *)
  CachedOwner           : option AActor;
  CachedInstigator      : option AActor;
  bDidHitSomething      : bool;
  Velocity              : FVector;
  MoveIgnoreActors      : list AActor;
  (* engine-side registrations made and undone by the class *)
  OverlapBound          : bool;  (* OnComponentBeginOverlap -> OnOverlapBegin *)
  LifetimeTimerSet      : option R;  (* LifetimeTimerHandle, with its delay *)
  bActorIsBeingDestroyed : bool
}.

Definition set_Owner (o i : option AActor) (ign : list AActor) (p : ABaseProjectile) :=
  mkProjectile (Self p) (Damage p) (InitialSpeed p) (LifetimeSeconds p)
    (HasCollisionSphere p) (HasProjectileMovement p) (MovementInitialSpeed p)
    o i (bDidHitSomething p) (Velocity p) ign
    (OverlapBound p) (LifetimeTimerSet p) (bActorIsBeingDestroyed p).

Definition set_Velocity (v : FVector) (p : ABaseProjectile) :=
  mkProjectile (Self p) (Damage p) (InitialSpeed p) (LifetimeSeconds p)
    (HasCollisionSphere p) (HasProjectileMovement p) (MovementInitialSpeed p)
    (CachedOwner p) (CachedInstigator p) (bDidHitSomething p) v
    (MoveIgnoreActors p)
    (OverlapBound p) (LifetimeTimerSet p) (bActorIsBeingDestroyed p).

Definition set_bDidHitSomething (b : bool) (p : ABaseProjectile) :=
  mkProjectile (Self p) (Damage p) (InitialSpeed p) (LifetimeSeconds p)
    (HasCollisionSphere p) (HasProjectileMovement p) (MovementInitialSpeed p)
    (CachedOwner p) (CachedInstigator p) b (Velocity p)
    (MoveIgnoreActors p)
    (OverlapBound p) (LifetimeTimerSet p) (bActorIsBeingDestroyed p).

Definition set_registrations (bound : bool) (timer : option R) (p : ABaseProjectile) :=
  mkProjectile (Self p) (Damage p) (InitialSpeed p) (LifetimeSeconds p)
    (HasCollisionSphere p) (HasProjectileMovement p) (MovementInitialSpeed p)
    (CachedOwner p) (CachedInstigator p) (bDidHitSomething p) (Velocity p)
    (MoveIgnoreActors p)
    bound timer (bActorIsBeingDestroyed p).

Definition set_bActorIsBeingDestroyed (b : bool) (p : ABaseProjectile) :=
  mkProjectile (Self p) (Damage p) (InitialSpeed p) (LifetimeSeconds p)
    (HasCollisionSphere p) (HasProjectileMovement p) (MovementInitialSpeed p)
    (CachedOwner p) (CachedInstigator p) (bDidHitSomething p) (Velocity p)
    (MoveIgnoreActors p)
    (OverlapBound p) (LifetimeTimerSet p) b.

(** [ABaseProjectile::ABaseProjectile]: the class defaults; the three
    components are created here. *)
Definition Constructed (self : AActor) : ABaseProjectile :=
  mkProjectile self 15 3000 5 true true 3000 None None false ZeroVector []
    false None false.

(** What a projectile does to the rest of the game, in order. *)
Inductive Effect : Type :=
| TakeDamage (target : AActor) (amount : R) (hit : FHitResult)
             (instigatorController : option AController)
             (damageCauser : option AActor)
| SpawnImpactEffect (location normal : FVector)
| OnProjectileHit (projectile hitActor : AActor) (hit : FHitResult)
| OnProjectileDestroyed (projectile : AActor) (bHitSomething : bool).

(** A member function: the new object and the effects it caused. *)
Definition Run : Type := ABaseProjectile * list Effect.

Definition andThen (r : Run) (k : ABaseProjectile -> Run) : Run :=
  let (p, es) := r in let (p', es') := k p in (p', es ++ es').

Definition actor_eqb (a : AActor) (b : option AActor) : bool :=
  match b with Some b' => Nat.eqb a b' | None => false end.

(** [ABaseProjectile::BeginPlay]: binds the overlap handler and starts the
    lifetime timer. *)
Definition BeginPlay (p : ABaseProjectile) : ABaseProjectile :=
  set_registrations true (Some (LifetimeSeconds p)) p.

(** [ABaseProjectile::EndPlay]: clears the timer, broadcasts
    [OnProjectileDestroyed], unbinds the overlap handler. *)
Definition EndPlay (p : ABaseProjectile) : Run :=
  let p1 := set_registrations (OverlapBound p) None p in
  let p2 := if HasCollisionSphere p1
            then set_registrations false (LifetimeTimerSet p1) p1 else p1 in
  (p2, [OnProjectileDestroyed (Self p) (bDidHitSomething p)]).

(** [AActor::Destroy] of the engine: the first call on an actor routes
    [EndPlay]; a call on an actor already being destroyed does nothing. *)
Definition Destroy (p : ABaseProjectile) : Run :=
  if bActorIsBeingDestroyed p then (p, [])
  else EndPlay (set_bActorIsBeingDestroyed true p).

(** [ABaseProjectile::InitializeProjectile]. *)
Definition InitializeProjectile (w : World) (OwningActor : option AActor)
    (LaunchDirection : FVector) (p : ABaseProjectile) : ABaseProjectile :=
  let instigator :=
    match OwningActor with
    | Some o => if IsPawn w o then Some o else GetInstigator w o
    | None => CachedInstigator p
    end in
  let ign1 :=
    match OwningActor with
    | Some o => if HasCollisionSphere p then o :: MoveIgnoreActors p
                else MoveIgnoreActors p
    | None => MoveIgnoreActors p
    end in
  let ign2 :=
    match instigator with
    | Some i => if negb (actor_eqb i OwningActor) && HasCollisionSphere p
                then i :: ign1 else ign1
    | None => ign1
    end in
  let p1 := set_Owner OwningActor instigator ign2 p in
  if HasProjectileMovement p1 then
    let NormalizedDirection := GetSafeNormal LaunchDirection in
    set_Velocity (vscale NormalizedDirection (InitialSpeed p1)) p1
  else p1.

(** [ABaseProjectile::IsFriendlyActor]. *)
Definition IsFriendlyActor (w : World) (p : ABaseProjectile)
    (OtherActor : option AActor) : bool :=
  match OtherActor with
  | None => false
  | Some other =>
    let OwnerTeam :=
      match CachedOwner p with
      | Some o => match GenericTeamId w o with
                  | Some t => t
                  | None => NoTeam
                  end
      | None => NoTeam
      end in
    match GenericTeamId w other with
    | None => false
    | Some OtherTeam =>
      if N.eqb OwnerTeam NoTeam || N.eqb OtherTeam NoTeam then false
      else N.eqb OwnerTeam OtherTeam
    end
  end.

(** [ABaseProjectile::ApplyDamage_Implementation]. *)
Definition ApplyDamage (w : World) (HitActor : option AActor)
    (HitResult : FHitResult) (p : ABaseProjectile) : Run :=
  match HitActor with
  | None => (p, [])
  | Some a =>
    if Rle_dec (Damage p) 0 then (p, [])
    else
      let InstigatorController :=
        match CachedInstigator p with
        | Some i => GetController w i
        | None => None
        end in
      (p, [TakeDamage a (Damage p) HitResult InstigatorController
             (CachedOwner p)])
  end.

(** [ABaseProjectile::HandleHit_Implementation]. *)
Definition HandleHit (w : World) (HitActor : AActor)
    (HitResult : FHitResult) (p : ABaseProjectile) : Run :=
  andThen (ApplyDamage w (Some HitActor) HitResult p) (fun p1 =>
  andThen (p1, [SpawnImpactEffect (ImpactPoint HitResult) (ImpactNormal HitResult)])
    (fun p2 =>
  andThen (p2, [OnProjectileHit (Self p2) HitActor HitResult]) (fun p3 =>
  Destroy p3))).

(** [ABaseProjectile::OnOverlapBegin].  [OtherCompLocation] is the location
    of the overlapping component when the engine passed one. *)
Definition OnOverlapBegin (w : World) (OtherActor : option AActor)
    (OtherCompLocation : option FVector) (SweepResult : FHitResult)
    (p : ABaseProjectile) : Run :=
  match OtherActor with
  | None => (p, [])
  | Some other =>
    if Nat.eqb other (Self p) then (p, [])
    else if actor_eqb other (CachedOwner p)
            || actor_eqb other (CachedInstigator p) then (p, [])
    else if IsFriendlyActor w p OtherActor then (p, [])
    else
      let HitResult :=
        if IsValidBlockingHit SweepResult then SweepResult
        else
          let impactNormal := vneg (GetActorForwardVector w (Self p)) in
          mkHit (bBlockingHit SweepResult) (bStartPenetrating SweepResult)
            (match OtherCompLocation with
             | Some l => l
             | None => GetActorLocation w other
             end)
            impactNormal
            (GetActorLocation w (Self p))
            impactNormal in
      HandleHit w other HitResult (set_bDidHitSomething true p)
  end.

(** [ABaseProjectile::OnLifetimeExpired]. *)
Definition OnLifetimeExpired (p : ABaseProjectile) : Run := Destroy p.

(** What the engine can deliver to a projectile that has begun play. *)
Inductive Signal : Type :=
| ComponentBeginOverlap (OtherActor : option AActor)
                        (OtherCompLocation : option FVector)
                        (SweepResult : FHitResult)
| LifetimeTimerFired.

(** Delivery goes through the registrations: the overlap delegate calls
    [OnOverlapBegin] only while it is bound, the timer manager calls
    [OnLifetimeExpired] only while the timer is set. *)
Definition deliver (ws : World * Signal) (p : ABaseProjectile) : Run :=
  let (w, s) := ws in
  match s with
  | ComponentBeginOverlap other comp sweep =>
    if OverlapBound p then OnOverlapBegin w other comp sweep p else (p, [])
  | LifetimeTimerFired =>
    match LifetimeTimerSet p with
    | Some _ => OnLifetimeExpired p
    | None => (p, [])
    end
  end.

Fixpoint deliverAll (sigs : list (World * Signal)) (p : ABaseProjectile) : Run :=
  match sigs with
  | [] => (p, [])
  | s :: rest => andThen (deliver s p) (deliverAll rest)
  end.

Definition isTakeDamage (e : Effect) : bool :=
  match e with TakeDamage _ _ _ _ _ => true | _ => false end.
Definition isHitEvent (e : Effect) : bool :=
  match e with OnProjectileHit _ _ _ => true | _ => false end.
Definition isDestroyedEvent (e : Effect) : bool :=
  match e with OnProjectileDestroyed _ _ => true | _ => false end.

Definition count (f : Effect -> bool) (es : list Effect) : nat :=
  length (List.filter f es).

(** *** After the first resolution nothing is delivered any more *)

Lemma andThen_nil (p : ABaseProjectile) (k : ABaseProjectile -> Run) :
  andThen (p, []) k = k p.
Proof. unfold andThen. now destruct (k p). Qed.

Lemma count_app (f : Effect -> bool) (a b : list Effect) :
  count f (a ++ b) = (count f a + count f b)%nat.
Proof. unfold count. now rewrite List.filter_app, length_app. Qed.

(** A projectile whose handler is unbound and whose timer is cleared
    ignores every signal. *)
Lemma unregistered_inert (sigs : list (World * Signal)) (p : ABaseProjectile) :
  OverlapBound p = false -> LifetimeTimerSet p = None ->
  deliverAll sigs p = (p, []).
Proof.
  intros Hb Ht. induction sigs as [| [w s] rest IH]; simpl; [reflexivity |].
  destruct s; rewrite ?Hb, ?Ht; now rewrite andThen_nil.
Qed.

(** [Destroy] on a live projectile with a collision sphere leaves it
    unregistered and publishes exactly the termination event. *)
Lemma Destroy_live (p : ABaseProjectile) :
  HasCollisionSphere p = true -> bActorIsBeingDestroyed p = false ->
  exists p', Destroy p = (p', [OnProjectileDestroyed (Self p) (bDidHitSomething p)])
             /\ OverlapBound p' = false /\ LifetimeTimerSet p' = None.
Proof.
  intros Hs Hd. unfold Destroy. rewrite Hd. unfold EndPlay; simpl.
  rewrite Hs. eexists; repeat split.
Qed.

(** What one overlap can do to a live projectile: nothing at all, or one
    complete resolution that leaves it unregistered. *)
Lemma OnOverlapBegin_live (w : World) (other : option AActor)
    (comp : option FVector) (sweep : FHitResult) (p : ABaseProjectile) :
  HasCollisionSphere p = true -> bActorIsBeingDestroyed p = false ->
  OnOverlapBegin w other comp sweep p = (p, [])
  \/ exists p' es a,
       OnOverlapBegin w other comp sweep p = (p', es)
       /\ other = Some a
       /\ OverlapBound p' = false /\ LifetimeTimerSet p' = None
       /\ (count isTakeDamage es <= 1)%nat
       /\ count isHitEvent es = 1%nat
       /\ es <> []
       /\ List.filter isDestroyedEvent es = [OnProjectileDestroyed (Self p) true].
Proof.
  intros Hs Hd. unfold OnOverlapBegin.
  destruct other as [a |]; [| now left].
  destruct (Nat.eqb a (Self p)); [now left |].
  destruct (actor_eqb a (CachedOwner p) || actor_eqb a (CachedInstigator p));
    [now left |].
  destruct (IsFriendlyActor w p (Some a)); [now left |].
  right.
  set (h := if IsValidBlockingHit sweep then _ else _).
  set (q := set_bDidHitSomething true p).
  destruct (Destroy_live q Hs Hd) as (p' & HD & Hb & Ht).
  unfold HandleHit, ApplyDamage.
  destruct (Rle_dec (Damage q) 0); simpl; rewrite HD; simpl;
    (exists p'; eexists; exists a; repeat split;
       [exact Hb | exact Ht | unfold count; simpl; lia | discriminate]).
Qed.

Lemma OnLifetimeExpired_live (p : ABaseProjectile) :
  HasCollisionSphere p = true -> bActorIsBeingDestroyed p = false ->
  exists p', OnLifetimeExpired p
               = (p', [OnProjectileDestroyed (Self p) (bDidHitSomething p)])
             /\ OverlapBound p' = false /\ LifetimeTimerSet p' = None.
Proof. apply Destroy_live. Qed.

Lemma deliverAll_counts (sigs : list (World * Signal)) (p : ABaseProjectile) :
  HasCollisionSphere p = true -> bActorIsBeingDestroyed p = false ->
  let es := snd (deliverAll sigs p) in
  (count isTakeDamage es <= 1 /\ count isHitEvent es <= 1
   /\ count isDestroyedEvent es <= 1)%nat.
Proof.
  intros Hs Hd. induction sigs as [| [w s] rest IH]; simpl.
  - unfold count; simpl; lia.
  - destruct s as [other comp sweep |].
    + destruct (OverlapBound p); [| now rewrite andThen_nil].
      destruct (OnOverlapBegin_live w other comp sweep p Hs Hd)
        as [E | (p' & es & a & E & _ & Hb & Ht & Hdm & Hh & _ & Hde)].
      * rewrite E. now rewrite andThen_nil.
      * rewrite E. unfold andThen.
        rewrite (unregistered_inert rest p' Hb Ht). simpl.
        rewrite app_nil_r. unfold count in *. rewrite Hde. simpl. lia.
    + destruct (LifetimeTimerSet p); [| now rewrite andThen_nil].
      destruct (OnLifetimeExpired_live p Hs Hd) as (p' & E & Hb & Ht).
      rewrite E. unfold andThen.
      rewrite (unregistered_inert rest p' Hb Ht). simpl.
      unfold count; simpl; lia.
Qed.

(** C1.  At most one resolution.  For a projectile that has begun play,
    whatever overlaps and timer expiries the engine delivers afterwards, in
    whatever order, damage is applied at most once, at most one hit event
    and at most one termination event are published; and once an overlap
    has resolved a hit, every later signal (a second qualifying overlap, the
    lifetime expiry) leaves the projectile and the published effects
    exactly as that first resolution left them, the termination event
    reporting a hit. *)
Theorem at_most_one_resolution (p : ABaseProjectile) :
  HasCollisionSphere p = true -> bActorIsBeingDestroyed p = false ->
  (forall sigs,
     let es := snd (deliverAll sigs (BeginPlay p)) in
     (count isTakeDamage es <= 1 /\ count isHitEvent es <= 1
      /\ count isDestroyedEvent es <= 1)%nat)
  /\ (forall w other comp sweep later,
        let first := OnOverlapBegin w other comp sweep (BeginPlay p) in
        snd first <> [] ->
        deliverAll ((w, ComponentBeginOverlap other comp sweep) :: later)
                   (BeginPlay p) = first
        /\ count isHitEvent (snd first) = 1%nat
        /\ List.filter isDestroyedEvent (snd first)
             = [OnProjectileDestroyed (Self p) true]).
Proof.
  intros Hs Hd. split.
  - intros sigs. now apply deliverAll_counts.
  - intros w other comp sweep later first Hne.
    assert (Hs' : HasCollisionSphere (BeginPlay p) = true) by exact Hs.
    assert (Hd' : bActorIsBeingDestroyed (BeginPlay p) = false) by exact Hd.
    destruct (OnOverlapBegin_live w other comp sweep _ Hs' Hd')
      as [E | (p' & es & a & E & _ & Hb & Ht & _ & Hh & _ & Hde)].
    + subst first. rewrite E in Hne. now elim Hne.
    + subst first. simpl deliverAll. change (OverlapBound (BeginPlay p)) with true.
      cbv iota. rewrite E. simpl snd. repeat split; [| exact Hh | exact Hde].
      unfold andThen. now rewrite (unregistered_inert later p' Hb Ht), app_nil_r.
Qed.

(** The handler itself carries no flag that is read back: it is the
    unbinding done by [EndPlay] that keeps a second overlap away.  Called
    again directly on a resolved projectile, it would run a second time. *)
Lemma OnOverlapBegin_reads_no_flag (w : World) (other : option AActor)
    (comp : option FVector) (sweep : FHitResult) (p : ABaseProjectile)
    (b : bool) :
  snd (OnOverlapBegin w other comp sweep (set_bDidHitSomething b p))
  = snd (OnOverlapBegin w other comp sweep p).
Proof.
  destruct p. unfold OnOverlapBegin, IsFriendlyActor, set_bDidHitSomething.
  cbn [Self CachedOwner CachedInstigator].
  destruct other as [a |]; [| reflexivity].
  destruct (Nat.eqb a _); [reflexivity |].
  destruct (actor_eqb a _ || actor_eqb a _); [reflexivity |].
  match goal with |- context [if ?c then (_, []) else _] => destruct c end;
    reflexivity.
Qed.

(** *** Friendly exemption *)

(** The launcher's team as the projectile sees it: none when the launcher
    is gone or exposes no team identity. *)
Definition LauncherTeam (w : World) (p : ABaseProjectile) : option FGenericTeamId :=
  match CachedOwner p with
  | Some o => GenericTeamId w o
  | None => None
  end.

(** The design document's words: both sides expose a team identity, the
    identities are equal, and they are not the null team. *)
Definition SameNonNullTeam (a b : option FGenericTeamId) : bool :=
  match a, b with
  | Some x, Some y => N.eqb x y && negb (N.eqb x NoTeam)
  | _, _ => false
  end.

Lemma SameNonNullTeam_None_r (a : option FGenericTeamId) :
  SameNonNullTeam a None = false.
Proof. now destruct a. Qed.

Lemma SameNonNullTeam_NoTeam_l (b : option FGenericTeamId) :
  SameNonNullTeam (Some NoTeam) b = false.
Proof.
  destruct b as [y |]; [| reflexivity]. cbn [SameNonNullTeam].
  rewrite (N.eqb_refl NoTeam). apply andb_false_r.
Qed.

Lemma SameNonNullTeam_NoTeam_r (a : option FGenericTeamId) :
  SameNonNullTeam a (Some NoTeam) = false.
Proof.
  destruct a as [x |]; [| reflexivity]. cbn [SameNonNullTeam].
  destruct (N.eqb_spec x NoTeam); reflexivity.
Qed.

Lemma IsFriendlyActor_spec (w : World) (p : ABaseProjectile) (other : AActor) :
  IsFriendlyActor w p (Some other)
  = SameNonNullTeam (LauncherTeam w p) (GenericTeamId w other).
Proof.
  unfold IsFriendlyActor, SameNonNullTeam, LauncherTeam.
  destruct (CachedOwner p) as [o |].
  - destruct (GenericTeamId w o) as [t |];
      destruct (GenericTeamId w other) as [u |]; try reflexivity.
    + destruct (N.eqb_spec t NoTeam) as [-> | Ht]; simpl.
      * now rewrite andb_false_r.
      * destruct (N.eqb_spec u NoTeam) as [-> | Hu]; simpl.
        -- destruct (N.eqb_spec t NoTeam); [contradiction | reflexivity].
        -- now rewrite andb_true_r.
  - destruct (GenericTeamId w other) as [u |]; reflexivity.
Qed.

(** C3.  Friendly exemption.  For an overlap candidate that is neither the
    projectile, nor its launcher, nor the launcher's pawn: when launcher and
    candidate both expose a team identity and the two are equal and not the
    null team, the overlap does nothing (no damage, no hit event, no
    destruction: the projectile and the effect list are unchanged); in every
    other case (a side without team identity, a null team, different teams)
    the candidate is not friendly and the overlap resolves as a hit. *)
Theorem friendly_exemption (w : World) (p : ABaseProjectile) (other : AActor)
    (comp : option FVector) (sweep : FHitResult) :
  HasCollisionSphere p = true -> bActorIsBeingDestroyed p = false ->
  Nat.eqb other (Self p) = false ->
  actor_eqb other (CachedOwner p) = false ->
  actor_eqb other (CachedInstigator p) = false ->
  (forall t, LauncherTeam w p = Some t -> GenericTeamId w other = Some t ->
             t <> NoTeam ->
             IsFriendlyActor w p (Some other) = true
             /\ OnOverlapBegin w (Some other) comp sweep p = (p, []))
  /\ (GenericTeamId w other = None \/ GenericTeamId w other = Some NoTeam
      \/ LauncherTeam w p = None \/ LauncherTeam w p = Some NoTeam ->
      IsFriendlyActor w p (Some other) = false
      /\ count isHitEvent (snd (OnOverlapBegin w (Some other) comp sweep p))
         = 1%nat).
Proof.
  intros Hs Hd Hself Hown Hinst. split.
  - intros t HL HO Hne.
    assert (F : IsFriendlyActor w p (Some other) = true).
    { rewrite IsFriendlyActor_spec, HL, HO. simpl.
      rewrite N.eqb_refl. simpl.
      destruct (N.eqb_spec t NoTeam); [contradiction | reflexivity]. }
    split; [exact F |].
    unfold OnOverlapBegin. now rewrite Hself, Hown, Hinst, F.
  - intros Hcase.
    assert (F : IsFriendlyActor w p (Some other) = false).
    { rewrite IsFriendlyActor_spec.
      destruct Hcase as [E | [E | [E | E]]]; rewrite E.
      - apply SameNonNullTeam_None_r.
      - apply SameNonNullTeam_NoTeam_r.
      - reflexivity.
      - apply SameNonNullTeam_NoTeam_l. }
    split; [exact F |].
    destruct (OnOverlapBegin_live w (Some other) comp sweep p Hs Hd)
      as [E | (p' & es & a & E & _ & _ & _ & _ & Hh & _)].
    + exfalso. revert E. unfold OnOverlapBegin.
      rewrite Hself, Hown, Hinst, F. unfold HandleHit, ApplyDamage.
      destruct (Rle_dec _ _); simpl;
        destruct (Destroy _) as [q es]; simpl;
        intro E; inversion E.
    + now rewrite E.
Qed.

(** *** Launch velocity *)

(** C10 (as amended).  For a launch direction whose squared length reaches
    the normalisation tolerance, the velocity set by [InitializeProjectile]
    is the direction divided by its length and scaled by [InitialSpeed], so
    that the launch speed is [InitialSpeed] (a non-negative setting)
    whatever the length of the direction; for the zero direction, and for
    every direction whose squared length is below the tolerance, the
    velocity is the zero vector. *)
Theorem InitializeProjectile_velocity (w : World) (owner : option AActor)
    (dir : FVector) (p : ABaseProjectile) :
  HasProjectileMovement p = true ->
  (SMALL_NUMBER <= SizeSquared dir ->
     Velocity (InitializeProjectile w owner dir p)
       = vscale (vscale dir (/ Size dir)) (InitialSpeed p)
     /\ (0 <= InitialSpeed p ->
         Size (Velocity (InitializeProjectile w owner dir p)) = InitialSpeed p))
  /\ (dir = ZeroVector ->
      Velocity (InitializeProjectile w owner dir p) = ZeroVector)
  /\ (SizeSquared dir < SMALL_NUMBER ->
      Velocity (InitializeProjectile w owner dir p) = ZeroVector).
Proof.
  intro Hm.
  assert (E : Velocity (InitializeProjectile w owner dir p)
              = vscale (GetSafeNormal dir) (InitialSpeed p)).
  { unfold InitializeProjectile. simpl. now rewrite Hm. }
  rewrite E. split; [| split].
  - intro Hbig. split.
    + now rewrite GetSafeNormal_scaled.
    + intro Hsp. rewrite Size_vscale by exact Hsp.
      rewrite GetSafeNormal_unit by exact Hbig. ring.
  - intros ->. rewrite GetSafeNormal_small.
    + apply FVector_eq; simpl; ring.
    + unfold SizeSquared, ZeroVector; simpl. pose proof SMALL_NUMBER_pos. lra.
  - intro Hsmall. rewrite GetSafeNormal_small by exact Hsmall.
    apply FVector_eq; simpl; ring.
Qed.

End BaseProjectile.

(** ** The aim resolver ([UAC_AimComponent], AC_AimComponent.cpp) *)

Module EAimTraceResult.
Inductive t : Type := Nothing | World | Friendly | Enemy | Interactable | Self.
End EAimTraceResult.

Module ETeamAttitude.
Inductive t : Type := Friendly | Neutral | Hostile.
End ETeamAttitude.

Module AimComponent.
Import FMath.

Record FAimTraceData : Type := mkAimData {
  AimLocation     : FVector;
  AimDirection    : FVector;
  HitActor        : option AActor;
  TraceResult     : EAimTraceResult.t;
  HitDistance     : R;
  HitNormal       : FVector;
  PhysicalSurface : FName;
  bDidHit         : bool;
  Timestamp       : R
}.

(** [FAimTraceData::FAimTraceData]. *)
Definition DefaultAimData : FAimTraceData :=
  mkAimData ZeroVector ForwardVector None EAimTraceResult.Nothing 0 UpVector
    NAME_None false 0.

Definition set_Timestamp (t : R) (d : FAimTraceData) : FAimTraceData :=
  mkAimData (AimLocation d) (AimDirection d) (HitActor d) (TraceResult d)
    (HitDistance d) (HitNormal d) (PhysicalSurface d) (bDidHit d) t.

(** The result of a line trace that hit something. *)
Record FHitResult : Type := mkHit {
  ImpactPoint  : FVector;
  GetActor     : option AActor;
  Distance     : R;
  ImpactNormal : FVector;
  PhysMaterial : option FName
}.

Record APlayerController : Type := mkPC {
  GetViewportSize : (BinNums.Z * BinNums.Z)%type;
  (** [DeprojectScreenPositionToWorld]: location and direction, or failure *)
  DeprojectScreenPositionToWorld : R -> R -> option (FVector * FVector)%type;
  (** [GetPlayerViewPoint]: camera location and the rotation's vector *)
  GetPlayerViewPoint : (FVector * FVector)%type
}.

Inductive AControllerKind : Type :=
| PlayerController (pc : APlayerController)
| OtherController.

(** [GetOwner()], with what the component reads from it. *)
Record Owner : Type := mkOwner {
  OwnerActor            : AActor;
  GetActorLocation      : FVector;
  GetActorForwardVector : FVector;
  (** [Cast<APawn>(GetOwner())] and, for a pawn, its [GetController()] *)
  AsPawn                : option (option AControllerKind);
  (** [Cast<ACharacter>(GetOwner())] and its [GetController()] *)
  AsCharacter           : option (option AControllerKind);
  (** [Cast<IGenericTeamAgentInterface>(GetOwner())] and, for a team agent,
      its [GetTeamAttitudeTowards] *)
  AsTeamAgent           : option (AActor -> ETeamAttitude.t);
  GetAttachedActors     : list AActor
}.

(** [GetWorld()], with what the component asks of it and of its actors. *)
Record UWorld : Type := mkUWorld {
  GetTimeSeconds : R;
  (** start, end, ignored actors; [None] when nothing is struck *)
  LineTraceSingleByChannel :
    FVector -> FVector -> list AActor -> option FHitResult;
  ActorHasTag : AActor -> FName -> bool;
  (** [Cast<IGenericTeamAgentInterface>(a)] succeeds *)
  IsTeamAgent : AActor -> bool
}.

Record Env : Type := mkEnv {
  GetOwner : option Owner;
  GetWorld : option UWorld
}.

Record Config : Type := mkConfig {
  MaxTraceDistance        : R;
  CrosshairScreenPosition : (R * R)%type;
  MinAimDistance          : R;
  LocationUpdateThreshold : R;
  FriendlyActorTags       : list FName;
  InteractableActorTags   : list FName;
  bAutoUpdateOnTick       : bool;
  AutoUpdateInterval      : R
}.

(** The defaults of [UAC_AimComponent::UAC_AimComponent]. *)
Definition DefaultConfig : Config :=
  mkConfig 10000 (/ 2, / 2) 50 10 [] [] false (/ 20).

(** [TWeakObjectPtr<AActor>].  The component assigns the pointer and reads it
    with [Get()] only; [Get()] gives the actor the pointer was set to while
    that actor is alive and null once it has been destroyed.  The pointer is
    therefore held as the option [Get()] returns, and the engine's
    invalidation of the pointer is the step [ActorDestroyed] below. *)
Definition TWeakObjectPtr : Type := option AActor.

Definition Get (p : TWeakObjectPtr) : option AActor := p.

Record UAC_AimComponent : Type := mkAim {
  Cfg                 : Config;
  CachedAimData       : FAimTraceData;
  PreviousTargetActor : TWeakObjectPtr;
  PreviousAimLocation : FVector;
  bAimIsBlocked       : bool;
  AutoUpdateTimer     : R
}.

Definition Constructed (cfg : Config) : UAC_AimComponent :=
  mkAim cfg DefaultAimData None ZeroVector false 0.

Inductive Event : Type :=
| OnAimTargetChanged (NewTarget : option AActor) (TargetType : EAimTraceResult.t)
| OnAimLocationUpdated (NewAimLocation AimDirection : FVector)
| OnAimBlocked (bIsBlocked : bool).

Definition option_actor_eqb (a b : option AActor) : bool :=
  match a, b with
  | Some x, Some y => Nat.eqb x y
  | None, None => true
  | _, _ => false
  end.

Definition CastPlayerController (c : option AControllerKind)
  : option APlayerController :=
  match c with
  | Some (PlayerController pc) => Some pc
  | _ => None
  end.

(** [UAC_AimComponent::GetOwnerController]. *)
Definition GetOwnerController (e : Env) : option APlayerController :=
  match GetOwner e with
  | None => None
  | Some o =>
    match AsPawn o with
    | Some c => CastPlayerController c
    | None =>
      match AsCharacter o with
      | Some c => CastPlayerController c
      | None => None
      end
    end
  end.

(** [UAC_AimComponent::ActorHasAnyTag]. *)
Definition ActorHasAnyTag (w : UWorld) (Actor : option AActor)
    (Tags : list FName) : bool :=
  match Actor with
  | None => false
  | Some a =>
    match Tags with
    | [] => false
    | _ => existsb (fun Tag => ActorHasTag w a Tag) Tags
    end
  end.

(** [UAC_AimComponent::ClassifyHitActor]. *)
Definition ClassifyHitActor (cfg : Config) (o : Owner) (w : UWorld)
    (HitActor : option AActor) : EAimTraceResult.t :=
  match HitActor with
  | None => EAimTraceResult.World
  | Some a =>
    if ActorHasAnyTag w HitActor (InteractableActorTags cfg)
    then EAimTraceResult.Interactable
    else if ActorHasAnyTag w HitActor (FriendlyActorTags cfg)
    then EAimTraceResult.Friendly
    else
      match AsTeamAgent o, IsTeamAgent w a with
      | Some GetTeamAttitudeTowards, true =>
        match GetTeamAttitudeTowards a with
        | ETeamAttitude.Friendly => EAimTraceResult.Friendly
        | ETeamAttitude.Hostile => EAimTraceResult.Enemy
        | ETeamAttitude.Neutral => EAimTraceResult.World
        end
      | _, _ => EAimTraceResult.World
      end
  end.

(** The two ends of the aim ray, as [PerformAimTrace] computes them. *)
Definition TraceSegment (cfg : Config) (e : Env) (o : Owner)
  : (FVector * FVector)%type :=
  match GetOwnerController e with
  | Some PC =>
    let (ViewportX, ViewportY) := GetViewportSize PC in
    let ScreenPosX := IZR ViewportX * fst (CrosshairScreenPosition cfg) in
    let ScreenPosY := IZR ViewportY * snd (CrosshairScreenPosition cfg) in
    match DeprojectScreenPositionToWorld PC ScreenPosX ScreenPosY with
    | Some (WorldLoc, WorldDir) =>
      (WorldLoc, vadd WorldLoc (vscale WorldDir (MaxTraceDistance cfg)))
    | None =>
      let (CamLoc, CamRotVector) := GetPlayerViewPoint PC in
      (CamLoc, vadd CamLoc (vscale CamRotVector (MaxTraceDistance cfg)))
    end
  | None =>
    let TraceStart := GetActorLocation o in
    (TraceStart,
     vadd TraceStart (vscale (GetActorForwardVector o) (MaxTraceDistance cfg)))
  end.

(** [UAC_AimComponent::PerformAimTrace]: the value written to [OutData]. *)
Definition PerformAimTrace (cfg : Config) (e : Env) : FAimTraceData :=
  let OutData :=
    set_Timestamp (match GetWorld e with
                   | Some w => GetTimeSeconds w
                   | None => 0
                   end) DefaultAimData in
  match GetOwner e, GetWorld e with
  | Some o, Some w =>
    let (TraceStart, TraceEnd) := TraceSegment cfg e o in
    let ignored := OwnerActor o :: GetAttachedActors o in
    let located :=
      match LineTraceSingleByChannel w TraceStart TraceEnd ignored with
      | Some HitResult =>
        mkAimData (ImpactPoint HitResult) (AimDirection OutData)
          (GetActor HitResult)
          (ClassifyHitActor cfg o w (GetActor HitResult))
          (Distance HitResult) (ImpactNormal HitResult)
          (match PhysMaterial HitResult with
           | Some n => n
           | None => PhysicalSurface OutData
           end)
          true (Timestamp OutData)
      | None =>
        mkAimData TraceEnd (AimDirection OutData) None EAimTraceResult.Nothing
          (MaxTraceDistance cfg) UpVector (PhysicalSurface OutData)
          false (Timestamp OutData)
      end in
    mkAimData (AimLocation located)
      (GetSafeNormal (vsub (AimLocation located) (GetActorLocation o)))
      (HitActor located) (TraceResult located) (HitDistance located)
      (HitNormal located) (PhysicalSurface located) (bDidHit located)
      (Timestamp located)
  | _, _ => OutData
  end.

(** The engine destroys actor [a]: every weak pointer to [a] reads null from
    now on.  [PreviousTargetActor] is the component's only weak pointer; the
    cached snapshot holds a plain pointer, which destruction does not
    reset. *)
Definition ActorDestroyed (a : AActor) (c : UAC_AimComponent)
  : UAC_AimComponent :=
  match PreviousTargetActor c with
  | Some b =>
    if Nat.eqb b a
    then mkAim (Cfg c) (CachedAimData c) None (PreviousAimLocation c)
           (bAimIsBlocked c) (AutoUpdateTimer c)
    else c
  | None => c
  end.

(** [UAC_AimComponent::BroadcastChanges].  The old snapshot is a parameter of
    the source function that its body does not read: the comparison is with
    [PreviousTargetActor.Get()], which is null once the remembered actor has
    been destroyed, and with [PreviousAimLocation]. *)
Definition BroadcastChanges (OldData NewData : FAimTraceData)
    (c : UAC_AimComponent) : (UAC_AimComponent * list Event)%type :=
  let OldTarget := Get (PreviousTargetActor c) in
  let NewTarget := HitActor NewData in
  let (c1, ev1) :=
    if negb (option_actor_eqb OldTarget NewTarget)
    then (mkAim (Cfg c) (CachedAimData c) NewTarget (PreviousAimLocation c)
            (bAimIsBlocked c) (AutoUpdateTimer c),
          [OnAimTargetChanged NewTarget (TraceResult NewData)])
    else (c, []) in
  let LocationDelta := Dist (PreviousAimLocation c1) (AimLocation NewData) in
  if Rlt_dec (LocationUpdateThreshold (Cfg c1)) LocationDelta
  then (mkAim (Cfg c1) (CachedAimData c1) (PreviousTargetActor c1)
          (AimLocation NewData) (bAimIsBlocked c1) (AutoUpdateTimer c1),
        ev1 ++ [OnAimLocationUpdated (AimLocation NewData) (AimDirection NewData)])
  else (c1, ev1).

(** [UAC_AimComponent::RequestAimUpdate]: the component afterwards, the
    events broadcast, and the returned snapshot. *)
Definition RequestAimUpdate (e : Env) (c : UAC_AimComponent)
  : (UAC_AimComponent * list Event * FAimTraceData)%type :=
  match GetOwner e, GetWorld e with
  | Some _, Some _ =>
    let OldData := CachedAimData c in
    let NewData := PerformAimTrace (Cfg c) e in
    let bWasBlocked := bAimIsBlocked c in
    let blocked :=
      bDidHit NewData
      && (if Rlt_dec (HitDistance NewData) (MinAimDistance (Cfg c))
          then true else false) in
    let c1 := mkAim (Cfg c) NewData (PreviousTargetActor c)
                (PreviousAimLocation c) blocked (AutoUpdateTimer c) in
    let ev1 := if Bool.eqb bWasBlocked blocked then []
               else [OnAimBlocked blocked] in
    let (c2, ev2) := BroadcastChanges OldData NewData c1 in
    (c2, ev1 ++ ev2, CachedAimData c2)
  | _, _ => (c, [], CachedAimData c)
  end.

(** [UAC_AimComponent::BeginPlay]: the initial trace fills the cache and the
    two remembered values, without broadcasting. *)
Definition BeginPlay (e : Env) (c : UAC_AimComponent) : UAC_AimComponent :=
  match GetOwner e with
  | None => c
  | Some _ =>
    let d := PerformAimTrace (Cfg c) e in
    mkAim (Cfg c) d (HitActor d) (AimLocation d) (bAimIsBlocked c)
      (AutoUpdateTimer c)
  end.

(** [UAC_AimComponent::GetAimDirectionFromLocation]. *)
Definition GetAimDirectionFromLocation (e : Env) (c : UAC_AimComponent)
    (StartLocation : FVector) : FVector :=
  let AimPoint := AimLocation (CachedAimData c) in
  let Direction := GetSafeNormal (vsub AimPoint StartLocation) in
  match GetOwner e with
  | Some o =>
    let Dot := DotProduct Direction (GetActorForwardVector o) in
    if IsNearlyZero Direction || (if Rlt_dec Dot (/ 10) then true else false)
    then GetActorForwardVector o
    else Direction
  | None => Direction
  end.

(** What happens to the component over time: a request made in some state of
    the world, or the destruction of an actor. *)
Inductive Step : Type :=
| Request (e : Env)
| Destroyed (a : AActor).

Definition step (s : Step) (c : UAC_AimComponent)
  : (UAC_AimComponent * list Event)%type :=
  match s with
  | Request e => fst (RequestAimUpdate e c)
  | Destroyed a => (ActorDestroyed a c, [])
  end.

Fixpoint steps (ss : list Step) (c : UAC_AimComponent)
  : (UAC_AimComponent * list Event)%type :=
  match ss with
  | [] => (c, [])
  | s :: rest =>
    let (c1, ev1) := step s c in
    let (c2, ev2) := steps rest c1 in
    (c2, ev1 ++ ev2)
  end.

(** Repeated requests, one per successive state of the world. *)
Fixpoint RequestAimUpdates (es : list Env) (c : UAC_AimComponent)
  : (UAC_AimComponent * list Event)%type :=
  match es with
  | [] => (c, [])
  | e :: rest =>
    let '(c1, ev1, _) := RequestAimUpdate e c in
    let (c2, ev2) := RequestAimUpdates rest c1 in
    (c2, ev1 ++ ev2)
  end.

Definition isTargetChanged (ev : Event) : bool :=
  match ev with OnAimTargetChanged _ _ => true | _ => false end.
Definition isLocationUpdated (ev : Event) : bool :=
  match ev with OnAimLocationUpdated _ _ => true | _ => false end.

(** *** Target classification *)

(** The design document's "membership in a tag set": the actor carries at
    least one tag of the set. *)
Definition HasTagIn (w : UWorld) (a : AActor) (Tags : list FName) : Prop :=
  exists Tag, In Tag Tags /\ ActorHasTag w a Tag = true.

Lemma ActorHasAnyTag_true (w : UWorld) (a : AActor) (Tags : list FName) :
  ActorHasAnyTag w (Some a) Tags = true <-> HasTagIn w a Tags.
Proof.
  unfold ActorHasAnyTag, HasTagIn. destruct Tags as [| t ts].
  - split; [discriminate | intros (x & [] & _)].
  - apply existsb_exists.
Qed.

Lemma ActorHasAnyTag_false (w : UWorld) (a : AActor) (Tags : list FName) :
  ActorHasAnyTag w (Some a) Tags = false <-> ~ HasTagIn w a Tags.
Proof.
  rewrite <- ActorHasAnyTag_true.
  destruct (ActorHasAnyTag w (Some a) Tags); split; intro H;
    try reflexivity; try discriminate; try (intro; discriminate).
  now elim H.
Qed.

(** C9.  Classification priority.  For an actor struck by the aim ray: a
    tag of the interactable set gives Interactable, whatever else holds;
    failing that, a tag of the friendly set gives Friendly; failing both,
    when the owner and the target are both team agents, a friendly attitude
    gives Friendly and a hostile one Enemy; in every remaining case (neutral
    attitude, or one side without team identity) the result is World.  The
    snapshot of a trace that hit carries this classification. *)
Theorem ClassifyHitActor_priority (cfg : Config) (o : Owner) (w : UWorld)
    (a : AActor) :
  (HasTagIn w a (InteractableActorTags cfg) ->
   ClassifyHitActor cfg o w (Some a) = EAimTraceResult.Interactable)
  /\ (~ HasTagIn w a (InteractableActorTags cfg) ->
      HasTagIn w a (FriendlyActorTags cfg) ->
      ClassifyHitActor cfg o w (Some a) = EAimTraceResult.Friendly)
  /\ (~ HasTagIn w a (InteractableActorTags cfg) ->
      ~ HasTagIn w a (FriendlyActorTags cfg) ->
      (forall attitude,
         AsTeamAgent o = Some attitude -> IsTeamAgent w a = true ->
         (attitude a = ETeamAttitude.Friendly ->
          ClassifyHitActor cfg o w (Some a) = EAimTraceResult.Friendly)
         /\ (attitude a = ETeamAttitude.Hostile ->
             ClassifyHitActor cfg o w (Some a) = EAimTraceResult.Enemy)
         /\ (attitude a = ETeamAttitude.Neutral ->
             ClassifyHitActor cfg o w (Some a) = EAimTraceResult.World))
      /\ (AsTeamAgent o = None \/ IsTeamAgent w a = false ->
          ClassifyHitActor cfg o w (Some a) = EAimTraceResult.World))
  /\ (forall e hit,
        GetOwner e = Some o -> GetWorld e = Some w ->
        LineTraceSingleByChannel w (fst (TraceSegment cfg e o))
          (snd (TraceSegment cfg e o)) (OwnerActor o :: GetAttachedActors o)
        = Some hit ->
        GetActor hit = Some a ->
        TraceResult (PerformAimTrace cfg e) = ClassifyHitActor cfg o w (Some a)).
Proof.
  split; [| split; [| split]].
  - intro Hi. apply ActorHasAnyTag_true in Hi.
    unfold ClassifyHitActor. now rewrite Hi.
  - intros Hi Hf. apply ActorHasAnyTag_false in Hi.
    apply ActorHasAnyTag_true in Hf.
    unfold ClassifyHitActor. now rewrite Hi, Hf.
  - intros Hi Hf. apply ActorHasAnyTag_false in Hi.
    apply ActorHasAnyTag_false in Hf. split.
    + intros attitude Ho Ht.
      unfold ClassifyHitActor. rewrite Hi, Hf, Ho, Ht.
      repeat split; intros ->; reflexivity.
    + intros Hcase. unfold ClassifyHitActor. rewrite Hi, Hf.
      destruct Hcase as [E | E]; rewrite E; [reflexivity |].
      now destruct (AsTeamAgent o).
  - intros e hit Ho Hw Htrace Ha.
    unfold PerformAimTrace. rewrite Ho, Hw.
    destruct (TraceSegment cfg e o) as [TraceStart TraceEnd].
    simpl in Htrace. rewrite Htrace. simpl. now rewrite Ha.
Qed.

(** *** A trace that strikes nothing *)


(** *** Length of the aim direction *)

Lemma RequestAimUpdate_snapshot (e : Env) (c : UAC_AimComponent) (o : Owner)
    (w : UWorld) :
  GetOwner e = Some o -> GetWorld e = Some w ->
  snd (RequestAimUpdate e c) = PerformAimTrace (Cfg c) e.
Proof.
  intros Ho Hw. unfold RequestAimUpdate. rewrite Ho, Hw.
  unfold BroadcastChanges. cbn [PreviousTargetActor Cfg PreviousAimLocation].
  destruct (negb _); cbn [PreviousAimLocation Cfg];
    destruct (Rlt_dec _ _); reflexivity.
Qed.

Lemma PerformAimTrace_direction (cfg : Config) (e : Env) (o : Owner)
    (w : UWorld) :
  GetOwner e = Some o -> GetWorld e = Some w ->
  AimDirection (PerformAimTrace cfg e)
  = GetSafeNormal (vsub (AimLocation (PerformAimTrace cfg e))
                     (GetActorLocation o)).
Proof.
  intros Ho Hw. unfold PerformAimTrace. rewrite Ho, Hw.
  destruct (TraceSegment cfg e o) as [TraceStart TraceEnd].
  destruct (LineTraceSingleByChannel w TraceStart TraceEnd _); reflexivity.
Qed.

(** C5 (as amended).  The aim direction of a snapshot produced by
    [RequestAimUpdate] is the safe normal of the offset from the agent's
    location to the aim location: of length one whenever the squared
    distance between the two reaches the normalisation tolerance (also when
    nothing was hit, the aim location then being the far end of the ray),
    and the zero vector otherwise. *)
Theorem AimDirection_unit_beyond_tolerance (e : Env) (c : UAC_AimComponent)
    (o : Owner) (w : UWorld) :
  GetOwner e = Some o -> GetWorld e = Some w ->
  let d := snd (RequestAimUpdate e c) in
  let offset := vsub (AimLocation d) (GetActorLocation o) in
  (SMALL_NUMBER <= SizeSquared offset ->
   Size (AimDirection d) = 1
   /\ AimDirection d = vscale offset (/ Size offset))
  /\ (SizeSquared offset < SMALL_NUMBER -> AimDirection d = ZeroVector)
  /\ (bDidHit d = false ->
      AimLocation d = snd (TraceSegment (Cfg c) e o)).
Proof.
  intros Ho Hw d offset.
  assert (Ed : d = PerformAimTrace (Cfg c) e)
    by (apply (RequestAimUpdate_snapshot e c o w Ho Hw)).
  assert (Edir : AimDirection d = GetSafeNormal offset).
  { subst offset. rewrite Ed. apply (PerformAimTrace_direction _ e o w Ho Hw). }
  repeat split.
  - rewrite Edir. now apply GetSafeNormal_unit.
  - rewrite Edir. now apply GetSafeNormal_scaled.
  - intro Hs. rewrite Edir. now apply GetSafeNormal_small.
  - rewrite Ed. unfold PerformAimTrace. rewrite Ho, Hw.
    destruct (TraceSegment (Cfg c) e o) as [TraceStart TraceEnd].
    destruct (LineTraceSingleByChannel w TraceStart TraceEnd _);
      simpl; [discriminate | reflexivity].
Qed.

(** *** Trajectory correction *)

Lemma IsNearlyZero_ZeroVector : IsNearlyZero ZeroVector = true.
Proof.
  unfold IsNearlyZero, ZeroVector, KINDA_SMALL_NUMBER; simpl.
  rewrite Rabs_R0.
  destruct (Rle_dec 0 (/ 10000)) as [_ | H]; [reflexivity | lra].
Qed.

(** A safe normal that is not nearly zero is the offset divided by its
    length, and has length one. *)
Lemma GetSafeNormal_not_nearly_zero (v : FVector) :
  IsNearlyZero (GetSafeNormal v) = false ->
  Size (GetSafeNormal v) = 1 /\ GetSafeNormal v = vscale v (/ Size v).
Proof.
  intro Hnz.
  destruct (Rlt_dec (SizeSquared v) SMALL_NUMBER) as [Hlt | Hge].
  - rewrite (GetSafeNormal_small v Hlt), IsNearlyZero_ZeroVector in Hnz.
    discriminate.
  - split; [apply GetSafeNormal_unit | apply GetSafeNormal_scaled]; lra.
Qed.

Lemma sqrt_1004900_bounds : 1002 < sqrt 1004900 < 1003.
Proof.
  split.
  - rewrite <- (sqrt_square 1002) at 1 by lra. apply sqrt_lt_1_alt. lra.
  - rewrite <- (sqrt_square 1003) at 1 by lra. apply sqrt_lt_1_alt. lra.
Qed.

(** C6 (as amended).  [GetAimDirectionFromLocation] returns the unit vector
    from the given point toward the cached aim location, except that it
    returns the owner's facing direction when that vector is degenerate
    (nearly zero) or its dot product with the facing direction is below 0.1
    (it points backward, sideways, or less than 0.1 forward).  With the
    muzzle at (0,0,70), the aim location at (1000,0,0) and the owner facing
    +X, the result has a negative Z component and is not the facing
    vector. *)
Theorem GetAimDirectionFromLocation_correction (e : Env)
    (c : UAC_AimComponent) (o : Owner) (p : FVector) :
  GetOwner e = Some o ->
  let aim := AimLocation (CachedAimData c) in
  let toward := GetSafeNormal (vsub aim p) in
  let facing := GetActorForwardVector o in
  (IsNearlyZero toward = false -> / 10 <= DotProduct toward facing ->
   GetAimDirectionFromLocation e c p = toward
   /\ Size toward = 1
   /\ toward = vscale (vsub aim p) (/ Dist aim p))
  /\ (IsNearlyZero toward = true \/ DotProduct toward facing < / 10 ->
      GetAimDirectionFromLocation e c p = facing)
  /\ (aim = mkFVector 1000 0 0 -> p = mkFVector 0 0 70 ->
      facing = ForwardVector ->
      Z (GetAimDirectionFromLocation e c p) < 0
      /\ GetAimDirectionFromLocation e c p <> facing).
Proof.
  intros Ho aim toward facing.
  assert (Hfar : IsNearlyZero toward = false -> / 10 <= DotProduct toward facing ->
                 GetAimDirectionFromLocation e c p = toward).
  { intros Hnz Hdot. unfold GetAimDirectionFromLocation. rewrite Ho.
    fold aim. fold toward. fold facing. rewrite Hnz.
    destruct (Rlt_dec (DotProduct toward facing) (/ 10)); [lra | reflexivity]. }
  split; [| split].
  - intros Hnz Hdot. split; [now apply Hfar |].
    apply (GetSafeNormal_not_nearly_zero _ Hnz).
  - intros Hcase. unfold GetAimDirectionFromLocation. rewrite Ho.
    fold aim. fold toward. fold facing.
    destruct Hcase as [Hz | Hdot]; [now rewrite Hz |].
    destruct (Rlt_dec (DotProduct toward facing) (/ 10)); [| lra].
    now rewrite orb_true_r.
  - intros Ha Hp Hf.
    pose proof sqrt_1004900_bounds as [Hlo Hhi].
    assert (Hsq : SizeSquared (vsub aim p) = 1004900).
    { rewrite Ha, Hp. unfold SizeSquared, vsub; simpl. ring. }
    assert (Ht : toward = vscale (vsub aim p) (/ sqrt 1004900)).
    { subst toward. rewrite GetSafeNormal_scaled.
      - unfold Size. now rewrite Hsq.
      - rewrite Hsq. unfold SMALL_NUMBER. lra. }
    assert (Hinv : / 1003 < / sqrt 1004900 < / 1002).
    { split; apply Rinv_lt_contravar; try lra; nra. }
    assert (HX : X toward = 1000 * / sqrt 1004900).
    { rewrite Ht, Ha, Hp. simpl. ring. }
    assert (HY : Y toward = 0).
    { rewrite Ht, Ha, Hp. simpl. ring. }
    assert (HZ : Z toward = - 70 * / sqrt 1004900).
    { rewrite Ht, Ha, Hp. simpl. ring. }
    assert (Hnz : IsNearlyZero toward = false).
    { unfold IsNearlyZero. rewrite HX.
      destruct (Rle_dec _ KINDA_SMALL_NUMBER) as [Hle | _]; [| reflexivity].
      exfalso. rewrite Rabs_pos_eq in Hle by lra.
      unfold KINDA_SMALL_NUMBER in Hle. lra. }
    assert (Hdot : / 10 <= DotProduct toward facing).
    { unfold DotProduct. rewrite HX, HY, Hf. simpl. lra. }
    rewrite (Hfar Hnz Hdot). split.
    + rewrite HZ. lra.
    + intro Heq. rewrite Heq, Hf in HZ. simpl in HZ. lra.
Qed.

(** *** Change suppression *)

(** The target-changed and location-updated notifications among events. *)
Definition notifications (evs : list Event) : list Event :=
  List.filter (fun ev => isTargetChanged ev || isLocationUpdated ev) evs.

Lemma option_actor_eqb_eq (a b : option AActor) :
  option_actor_eqb a b = true <-> a = b.
Proof.
  destruct a as [x |], b as [y |]; simpl; split; intro H;
    try discriminate; try reflexivity.
  - apply Nat.eqb_eq in H. now subst.
  - inversion H. apply Nat.eqb_refl.
Qed.

Lemma Dist_self (x : FVector) : Dist x x = 0.
Proof.
  unfold Dist, Size, SizeSquared, vsub; simpl.
  replace ((X x - X x) * (X x - X x) + (Y x - Y x) * (Y x - Y x)
           + (Z x - Z x) * (Z x - Z x)) with 0 by ring.
  apply sqrt_0.
Qed.

(** The three groups of events of one request, in order of publication. *)
Definition blockedPart (c : UAC_AimComponent) (d : FAimTraceData) : list Event :=
  let blocked :=
    bDidHit d && (if Rlt_dec (HitDistance d) (MinAimDistance (Cfg c))
                  then true else false) in
  if Bool.eqb (bAimIsBlocked c) blocked then [] else [OnAimBlocked blocked].

Definition targetPart (c : UAC_AimComponent) (d : FAimTraceData) : list Event :=
  if option_actor_eqb (PreviousTargetActor c) (HitActor d) then []
  else [OnAimTargetChanged (HitActor d) (TraceResult d)].

Definition locationPart (c : UAC_AimComponent) (d : FAimTraceData) : list Event :=
  if Rlt_dec (LocationUpdateThreshold (Cfg c))
       (Dist (PreviousAimLocation c) (AimLocation d))
  then [OnAimLocationUpdated (AimLocation d) (AimDirection d)] else [].

Lemma RequestAimUpdate_present (e : Env) (c : UAC_AimComponent) (o : Owner)
    (w : UWorld) :
  GetOwner e = Some o -> GetWorld e = Some w ->
  let d := PerformAimTrace (Cfg c) e in
  let r := RequestAimUpdate e c in
  snd r = d
  /\ snd (fst r) = blockedPart c d ++ targetPart c d ++ locationPart c d
  /\ Cfg (fst (fst r)) = Cfg c
  /\ CachedAimData (fst (fst r)) = d
  /\ PreviousTargetActor (fst (fst r)) = HitActor d
  /\ PreviousAimLocation (fst (fst r))
     = (if Rlt_dec (LocationUpdateThreshold (Cfg c))
             (Dist (PreviousAimLocation c) (AimLocation d))
        then AimLocation d else PreviousAimLocation c).
Proof.
  intros Ho Hw d r. subst r. unfold RequestAimUpdate. rewrite Ho, Hw.
  fold d. unfold BroadcastChanges, Get, blockedPart, targetPart, locationPart.
  cbn [PreviousTargetActor Cfg PreviousAimLocation bAimIsBlocked].
  destruct (option_actor_eqb (PreviousTargetActor c) (HitActor d)) eqn:Et;
    cbn [negb PreviousTargetActor Cfg PreviousAimLocation];
    destruct (Rlt_dec (LocationUpdateThreshold (Cfg c))
                (Dist (PreviousAimLocation c) (AimLocation d)));
    cbn [fst snd Cfg CachedAimData PreviousTargetActor PreviousAimLocation];
    repeat split; try reflexivity;
    try (now apply option_actor_eqb_eq in Et).
Qed.

Lemma RequestAimUpdate_absent (e : Env) (c : UAC_AimComponent) :
  GetOwner e = None \/ GetWorld e = None ->
  RequestAimUpdate e c = (c, [], CachedAimData c).
Proof.
  unfold RequestAimUpdate. intros [H | H]; rewrite H; [reflexivity |].
  now destruct (GetOwner e).
Qed.

Lemma notifications_app (a b : list Event) :
  notifications (a ++ b) = notifications a ++ notifications b.
Proof. apply List.filter_app. Qed.

Lemma notifications_blockedPart (c : UAC_AimComponent) (d : FAimTraceData) :
  notifications (blockedPart c d) = [].
Proof. unfold blockedPart. now destruct (Bool.eqb _ _). Qed.

(** A request whose resolved target is the remembered one and whose
    resolved location is within the threshold of the remembered one
    publishes neither notification and remembers the same values. *)
Lemma RequestAimUpdate_quiet (e : Env) (c : UAC_AimComponent) :
  HitActor (PerformAimTrace (Cfg c) e) = PreviousTargetActor c ->
  Dist (PreviousAimLocation c) (AimLocation (PerformAimTrace (Cfg c) e))
    <= LocationUpdateThreshold (Cfg c) ->
  let r := RequestAimUpdate e c in
  notifications (snd (fst r)) = []
  /\ Cfg (fst (fst r)) = Cfg c
  /\ PreviousTargetActor (fst (fst r)) = PreviousTargetActor c
  /\ PreviousAimLocation (fst (fst r)) = PreviousAimLocation c.
Proof.
  intros Ht Hl r.
  destruct (GetOwner e) as [o |] eqn:Ho; [destruct (GetWorld e) as [w |] eqn:Hw |].
  - destruct (RequestAimUpdate_present e c o w Ho Hw)
      as (_ & Hev & Hc & _ & Hpt & Hpl).
    fold r in Hev, Hc, Hpt, Hpl.
    rewrite Hev, Hc, Hpt, Hpl, !notifications_app, notifications_blockedPart.
    unfold targetPart, locationPart. rewrite Ht.
    destruct (Rlt_dec _ _); [lra |].
    assert (E : option_actor_eqb (PreviousTargetActor c) (PreviousTargetActor c)
                = true) by now apply option_actor_eqb_eq.
    rewrite E. repeat split.
  - subst r. rewrite RequestAimUpdate_absent by now right. repeat split.
  - subst r. rewrite RequestAimUpdate_absent by now left. repeat split.
Qed.

Lemma RequestAimUpdates_quiet (es : list Env) :
  forall c : UAC_AimComponent,
  (forall e, In e es ->
     HitActor (PerformAimTrace (Cfg c) e) = PreviousTargetActor c
     /\ Dist (PreviousAimLocation c) (AimLocation (PerformAimTrace (Cfg c) e))
        <= LocationUpdateThreshold (Cfg c)) ->
  notifications (snd (RequestAimUpdates es c)) = [].
Proof.
  induction es as [| e rest IH]; intros c Hall; [reflexivity |].
  destruct (Hall e (or_introl eq_refl)) as [Ht Hl].
  destruct (RequestAimUpdate_quiet e c Ht Hl) as (Hn & Hc & Hpt & Hpl).
  simpl. destruct (RequestAimUpdate e c) as [[c1 ev1] d1]. simpl in *.
  specialize (IH c1). destruct (RequestAimUpdates rest c1) as [c2 ev2].
  simpl in *. rewrite notifications_app, Hn. simpl. apply IH.
  intros e' Hin. rewrite Hc, Hpt, Hpl. apply Hall. now right.
Qed.

Lemma RequestAimUpdates_repeat_absent (e : Env) (n : nat)
    (c : UAC_AimComponent) :
  GetOwner e = None \/ GetWorld e = None ->
  RequestAimUpdates (repeat e n) c = (c, []).
Proof.
  intro Habs. induction n as [| n IH]; simpl; [reflexivity |].
  now rewrite (RequestAimUpdate_absent e c Habs), IH.
Qed.

(** Destruction resets the remembered target when it is the destroyed actor
    and changes nothing else. *)
Lemma ActorDestroyed_spec (a : AActor) (c : UAC_AimComponent) :
  let c' := ActorDestroyed a c in
  Get (PreviousTargetActor c')
  = (if option_actor_eqb (PreviousTargetActor c) (Some a) then None
     else PreviousTargetActor c)
  /\ Cfg c' = Cfg c
  /\ CachedAimData c' = CachedAimData c
  /\ PreviousAimLocation c' = PreviousAimLocation c
  /\ bAimIsBlocked c' = bAimIsBlocked c
  /\ AutoUpdateTimer c' = AutoUpdateTimer c.
Proof.
  unfold ActorDestroyed, Get.
  destruct (PreviousTargetActor c) as [b |] eqn:Eb; cbn [option_actor_eqb].
  - destruct (Nat.eqb b a); cbn [PreviousTargetActor Cfg CachedAimData
      PreviousAimLocation bAimIsBlocked AutoUpdateTimer]; rewrite ?Eb;
      repeat split; reflexivity.
  - rewrite Eb. repeat split; reflexivity.
Qed.

Lemma ActorDestroyed_other (a : AActor) (c : UAC_AimComponent) :
  PreviousTargetActor c <> Some a -> ActorDestroyed a c = c.
Proof.
  unfold ActorDestroyed. intro Hne.
  destruct (PreviousTargetActor c) as [b |]; [| reflexivity].
  destruct (Nat.eqb b a) eqn:E; [| reflexivity].
  apply Nat.eqb_eq in E. subst b. now elim Hne.
Qed.

(** A step is quiet for a component when it is a request that resolves the
    remembered target within the threshold of the remembered location, or
    the destruction of an actor other than the remembered target. *)
Definition QuietStep (c : UAC_AimComponent) (s : Step) : Prop :=
  match s with
  | Request e =>
    HitActor (PerformAimTrace (Cfg c) e) = Get (PreviousTargetActor c)
    /\ Dist (PreviousAimLocation c) (AimLocation (PerformAimTrace (Cfg c) e))
       <= LocationUpdateThreshold (Cfg c)
  | Destroyed a => Get (PreviousTargetActor c) <> Some a
  end.

Lemma steps_quiet (ss : list Step) :
  forall c : UAC_AimComponent,
  (forall s, In s ss -> QuietStep c s) ->
  notifications (snd (steps ss c)) = [].
Proof.
  induction ss as [| s rest IH]; intros c Hall; [reflexivity |].
  pose proof (Hall s (or_introl eq_refl)) as Hs.
  assert (Hstep : notifications (snd (step s c)) = []
                  /\ Cfg (fst (step s c)) = Cfg c
                  /\ PreviousTargetActor (fst (step s c)) = PreviousTargetActor c
                  /\ PreviousAimLocation (fst (step s c)) = PreviousAimLocation c).
  { destruct s as [e | a]; cbn [step QuietStep] in *.
    - destruct Hs as [Ht Hl]. exact (RequestAimUpdate_quiet e c Ht Hl).
    - rewrite (ActorDestroyed_other a c Hs). repeat split; reflexivity. }
  destruct Hstep as (Hn & Hc & Hpt & Hpl).
  cbn [steps]. destruct (step s c) as [c1 ev1]. cbn [fst snd] in *.
  specialize (IH c1). destruct (steps rest c1) as [c2 ev2].
  cbn [fst snd] in *. rewrite notifications_app, Hn. simpl. apply IH.
  intros s' Hin. specialize (Hall s' (or_intror Hin)).
  destruct s' as [e' | a']; cbn [QuietStep] in *;
    now rewrite ?Hc, ?Hpt, ?Hpl.
Qed.

Lemma steps_cons (s : Step) (rest : list Step) (c : UAC_AimComponent) :
  steps (s :: rest) c
  = (fst (steps rest (fst (step s c))),
     snd (step s c) ++ snd (steps rest (fst (step s c)))).
Proof.
  cbn [steps]. destruct (step s c) as [c1 ev1]. cbn [fst snd].
  now destruct (steps rest c1).
Qed.

(** The target-changed notifications of one request. *)
Lemma RequestAimUpdate_targetChanged (e : Env) (c : UAC_AimComponent)
    (o : Owner) (w : UWorld) :
  GetOwner e = Some o -> GetWorld e = Some w ->
  List.filter isTargetChanged (snd (fst (RequestAimUpdate e c)))
  = targetPart c (PerformAimTrace (Cfg c) e).
Proof.
  intros Ho Hw.
  destruct (RequestAimUpdate_present e c o w Ho Hw) as (_ & Hev & _).
  cbn zeta in Hev. rewrite Hev, !List.filter_app.
  unfold blockedPart, targetPart, locationPart.
  destruct (Bool.eqb _ _); destruct (option_actor_eqb _ _);
    destruct (Rlt_dec (LocationUpdateThreshold (Cfg c)) _); reflexivity.
Qed.

(** C7 (as amended).  One request publishes a target-changed notification
    exactly when the resolved target differs from the remembered target as
    its weak pointer reads, and a location-updated notification exactly when
    the resolved location is farther than the threshold from the remembered
    location, which is the location of the last location-updated
    notification (or of the initial trace), not the location of the previous
    snapshot.  After a request the remembered target is the target of its
    snapshot; the destruction of that actor resets the remembered target to
    none and changes nothing else, so that a following request that resolves
    no target publishes no target-changed notification, whereas the same
    request with the actor still alive publishes one.  Hence a sequence of
    requests and destructions, in which every request resolves the
    remembered target within the threshold of the remembered location and
    no remembered target is destroyed, publishes neither notification; and,
    the threshold being non-negative, repeating a request in an unchanged
    world publishes neither after the first resolution. *)
Theorem change_suppression (c : UAC_AimComponent) :
  (forall e o w,
     GetOwner e = Some o -> GetWorld e = Some w ->
     let r := RequestAimUpdate e c in
     let evs := snd (fst r) in
     (existsb isTargetChanged evs = true
      <-> Get (PreviousTargetActor c) <> HitActor (snd r))
     /\ (existsb isLocationUpdated evs = true <->
         LocationUpdateThreshold (Cfg c)
         < Dist (PreviousAimLocation c) (AimLocation (snd r)))
     /\ PreviousTargetActor (fst (fst r)) = HitActor (CachedAimData (fst (fst r)))
     /\ PreviousAimLocation (fst (fst r))
        = (if existsb isLocationUpdated evs then AimLocation (snd r)
           else PreviousAimLocation c))
  /\ (forall es,
        (forall e, In e es ->
           HitActor (PerformAimTrace (Cfg c) e) = Get (PreviousTargetActor c)
           /\ Dist (PreviousAimLocation c)
                (AimLocation (PerformAimTrace (Cfg c) e))
              <= LocationUpdateThreshold (Cfg c)) ->
        notifications (snd (RequestAimUpdates es c)) = [])
  /\ (0 <= LocationUpdateThreshold (Cfg c) ->
      forall e n,
        notifications
          (snd (RequestAimUpdates (repeat e n) (fst (fst (RequestAimUpdate e c)))))
        = [])
  /\ (forall a,
        let c' := ActorDestroyed a c in
        Get (PreviousTargetActor c')
        = (if option_actor_eqb (PreviousTargetActor c) (Some a) then None
           else PreviousTargetActor c)
        /\ Cfg c' = Cfg c
        /\ CachedAimData c' = CachedAimData c
        /\ PreviousAimLocation c' = PreviousAimLocation c
        /\ bAimIsBlocked c' = bAimIsBlocked c
        /\ AutoUpdateTimer c' = AutoUpdateTimer c)
  /\ (forall a e o w,
        GetOwner e = Some o -> GetWorld e = Some w ->
        PreviousTargetActor c = Some a ->
        HitActor (PerformAimTrace (Cfg c) e) = None ->
        existsb isTargetChanged (snd (fst (RequestAimUpdate e c))) = true
        /\ existsb isTargetChanged
             (snd (fst (RequestAimUpdate e (ActorDestroyed a c)))) = false)
  /\ (forall ss,
        (forall s, In s ss -> QuietStep c s) ->
        notifications (snd (steps ss c)) = []).
Proof.
  assert (Hone : forall (c : UAC_AimComponent) e o w,
     GetOwner e = Some o -> GetWorld e = Some w ->
     let r := RequestAimUpdate e c in
     let evs := snd (fst r) in
     (existsb isTargetChanged evs = true
      <-> Get (PreviousTargetActor c) <> HitActor (snd r))
     /\ (existsb isLocationUpdated evs = true <->
         LocationUpdateThreshold (Cfg c)
         < Dist (PreviousAimLocation c) (AimLocation (snd r)))
     /\ PreviousTargetActor (fst (fst r)) = HitActor (CachedAimData (fst (fst r)))
     /\ PreviousAimLocation (fst (fst r))
        = (if existsb isLocationUpdated evs then AimLocation (snd r)
           else PreviousAimLocation c)).
  { clear c. intros c e o w Ho Hw r evs.
    destruct (RequestAimUpdate_present e c o w Ho Hw)
      as (Hd & Hev & Hc & Hcd & Hpt & Hpl).
    fold r in Hd, Hev, Hc, Hcd, Hpt, Hpl. subst evs.
    rewrite Hev, Hd, Hcd, Hpt, Hpl.
    set (d := PerformAimTrace (Cfg c) e).
    unfold blockedPart, targetPart, locationPart, Get.
    destruct (Bool.eqb _ _);
      destruct (option_actor_eqb (PreviousTargetActor c) (HitActor d)) eqn:Et;
      destruct (Rlt_dec _ _) as [Hlt | Hge]; simpl;
      repeat split; intros; try reflexivity; try discriminate;
      try assumption; try lra; try (now elim Hge);
      try (apply option_actor_eqb_eq in Et; contradiction);
      try (intro Heq; apply option_actor_eqb_eq in Heq; congruence). }
  split; [| split; [| split; [| split; [| split]]]].
  - apply Hone.
  - intros es Hall. now apply RequestAimUpdates_quiet.
  - intros Hthr e n.
    destruct (GetOwner e) as [o |] eqn:Ho;
      [destruct (GetWorld e) as [w |] eqn:Hw |].
    + apply RequestAimUpdates_quiet.
      intros e' Hin. apply repeat_spec in Hin. subst e'.
      destruct (RequestAimUpdate_present e c o w Ho Hw)
        as (_ & _ & Hc & _ & Hpt & Hpl).
      rewrite Hc, Hpt, Hpl. split; [reflexivity |].
      destruct (Rlt_dec _ _) as [Hlt | Hge]; [| lra].
      rewrite Dist_self. exact Hthr.
    + now rewrite RequestAimUpdates_repeat_absent by now right.
    + now rewrite RequestAimUpdates_repeat_absent by now left.
  - intro a. apply ActorDestroyed_spec.
  - intros a e o w Ho Hw Hprev Hmiss.
    destruct (RequestAimUpdate_present e c o w Ho Hw) as (Hd & _).
    destruct (RequestAimUpdate_present e (ActorDestroyed a c) o w Ho Hw)
      as (Hd' & _).
    destruct (ActorDestroyed_spec a c) as (Hget & Hcfg & _).
    cbn zeta in Hget, Hcfg. rewrite Hcfg in Hd'.
    rewrite Hprev in Hget. cbn [option_actor_eqb] in Hget.
    rewrite Nat.eqb_refl in Hget.
    split.
    + apply (proj1 (Hone c e o w Ho Hw)). cbn zeta in Hd.
      rewrite Hd, Hmiss, Hprev. discriminate.
    + destruct (existsb isTargetChanged
                  (snd (fst (RequestAimUpdate e (ActorDestroyed a c))))) eqn:Ex;
        [| reflexivity].
      apply (proj1 (Hone (ActorDestroyed a c) e o w Ho Hw)) in Ex.
      cbn zeta in Hd'. rewrite Hd', Hmiss, Hget in Ex. now elim Ex.
  - intros ss Hall. now apply steps_quiet.
Qed.

End AimComponent.

(** ** The fire controller ([UAC_CombatComponent], AC_CombatComponent.cpp) *)

Module EFireBlockedReason.
Inductive t : Type :=
| OnCooldown | NoProjectileClass | AimBlocked | NoAimComponent | SpawnFailed
| Custom.
End EFireBlockedReason.

Module CombatComponent.
Import FMath.

(** A projectile class ([TSubclassOf<ABaseProjectile>] when not null). *)
Definition UClass : Type := nat.

(** [GetOwner()], with what the component reads from it. *)
Record Owner : Type := mkOwner {
  OwnerActor            : AActor;
  GetActorLocation      : FVector;
  GetActorForwardVector : FVector;
  GetActorRightVector   : FVector;
  (** [Cast<APawn>(GetOwner())] succeeds *)
  IsPawn                : bool;
  (** [Cast<ACharacter>(GetOwner())], its [GetMesh()], and for a mesh the
      location of each socket that exists *)
  AsCharacter           : option (option (FName -> option FVector));
  (** world location of the muzzle point component, which [BeginPlay]
      attaches to the owner's root at [MuzzleOffset] *)
  MuzzlePointLocation   : FVector
}.

Record FActorSpawnParameters : Type := mkSpawnParams {
  SpawnOwner      : AActor;
  SpawnInstigator : option AActor
}.

(** [GetWorld()], with what the component asks of it. *)
Record UWorld : Type := mkUWorld {
  GetTimeSeconds : R;
  (** [SpawnActor<ABaseProjectile>]: class, location, the direction whose
      rotation is passed, parameters; the spawned projectile, which has begun
      play, or [None] when spawning fails *)
  SpawnActor : UClass -> FVector -> FVector -> FActorSpawnParameters ->
               option BaseProjectile.ABaseProjectile;
  (** the actors of the world as the spawned projectile sees them *)
  ProjectileWorld : BaseProjectile.World
}.

Record Env : Type := mkEnv {
  GetOwner : option Owner;
  GetWorld : option UWorld;
  (** the same moment as the aim component on the same owner sees it *)
  AimEnv   : AimComponent.Env
}.

Record UAC_CombatComponent : Type := mkCombat {
  MuzzleSocketName       : FName;
  MuzzleOffset           : FVector;
  FireCooldown           : R;
  bRespectAimBlocked     : bool;
  DefaultProjectileClass : option UClass;
  (** [TMap<FName, TSubclassOf<ABaseProjectile>>], keyed by the comparison
      index of the name *)
  ProjectileClassMap     : gmap string (option UClass);
  MuzzlePointComponent   : bool;
  AimComponent           : option AimComponent.UAC_AimComponent;
  LastFireTime           : R;
  bWasOnCooldown         : bool
}.

(** [UAC_CombatComponent::UAC_CombatComponent]. *)
Definition Constructed : UAC_CombatComponent :=
  mkCombat "MuzzleSocket"%string (mkFVector 60 0 70) (/ 2) true None ∅ false
    None (- 1000) false.

Inductive Event : Type :=
| OnFireBlocked (Reason : EFireBlockedReason.t) (AttemptedType : FName)
| OnCooldownStateChanged (bIsOnCooldown : bool) (RemainingTime : R)
| OnProjectileFired (Projectile : AActor) (ProjectileType : FName)
                    (Direction : FVector)
| OnAim (ev : AimComponent.Event).

Definition Outcome : Type :=
  (UAC_CombatComponent * option BaseProjectile.ABaseProjectile * list Event)%type.

(** [UAC_CombatComponent::BroadcastFireBlocked], as the whole result of a
    rejected call. *)
Definition BroadcastFireBlocked (Reason : EFireBlockedReason.t)
    (TypeName : FName) (c : UAC_CombatComponent) : Outcome :=
  (c, None, [OnFireBlocked Reason TypeName]).

(** [UAC_CombatComponent::CalculateMuzzleLocation]. *)
Definition CalculateMuzzleLocation (e : Env) (c : UAC_CombatComponent) : FVector :=
  match GetOwner e with
  | None => ZeroVector
  | Some o =>
    let socket :=
      match AsCharacter o with
      | Some (Some Mesh) => Mesh (MuzzleSocketName c)
      | _ => None
      end in
    match socket with
    | Some l => l
    | None =>
      if MuzzlePointComponent c then MuzzlePointLocation o
      else
        vadd (vadd (vadd (GetActorLocation o)
                      (vscale (GetActorForwardVector o) (X (MuzzleOffset c))))
                (vscale (GetActorRightVector o) (Y (MuzzleOffset c))))
          (vscale UpVector (Z (MuzzleOffset c)))
    end
  end.

Definition set_AimComponent (a : option AimComponent.UAC_AimComponent)
    (c : UAC_CombatComponent) : UAC_CombatComponent :=
  mkCombat (MuzzleSocketName c) (MuzzleOffset c) (FireCooldown c)
    (bRespectAimBlocked c) (DefaultProjectileClass c) (ProjectileClassMap c)
    (MuzzlePointComponent c) a (LastFireTime c) (bWasOnCooldown c).

Definition set_cooldown (t : R) (b : bool) (c : UAC_CombatComponent)
  : UAC_CombatComponent :=
  mkCombat (MuzzleSocketName c) (MuzzleOffset c) (FireCooldown c)
    (bRespectAimBlocked c) (DefaultProjectileClass c) (ProjectileClassMap c)
    (MuzzlePointComponent c) (AimComponent c) t b.

(** The aim gate of [SpawnProjectileInternal] and [CanFire]:
    [bRespectAimBlocked && AimComponent && AimComponent->IsAimBlocked()]. *)
Definition AimGateClosed (c : UAC_CombatComponent) : bool :=
  bRespectAimBlocked c
  && match AimComponent c with
     | Some a => AimComponent.bAimIsBlocked a
     | None => false
     end.

(** The launch direction of [SpawnProjectileInternal], with the aim
    component as the fresh request leaves it and the events that request
    broadcast. *)
Definition ResolveFireDirection (e : Env) (o : Owner) (SpawnLocation : FVector)
    (c : UAC_CombatComponent)
  : (FVector * option AimComponent.UAC_AimComponent * list Event)%type :=
  match AimComponent c with
  | Some a =>
    let '(a', evs, _) := AimComponent.RequestAimUpdate (AimEnv e) a in
    (AimComponent.GetAimDirectionFromLocation (AimEnv e) a' SpawnLocation,
     Some a', map OnAim evs)
  | None => (GetActorForwardVector o, None, [])
  end.

(** [UAC_CombatComponent::SpawnProjectileInternal]. *)
Definition SpawnProjectileInternal (e : Env) (ProjectileClass : option UClass)
    (TypeName : FName) (c : UAC_CombatComponent) : Outcome :=
  match GetWorld e, GetOwner e with
  | Some w, Some o =>
    match ProjectileClass with
    | None => BroadcastFireBlocked EFireBlockedReason.NoProjectileClass TypeName c
    | Some cls =>
      let CurrentTime := GetTimeSeconds w in
      if Rlt_dec (CurrentTime - LastFireTime c) (FireCooldown c)
      then BroadcastFireBlocked EFireBlockedReason.OnCooldown TypeName c
      else if AimGateClosed c
      then BroadcastFireBlocked EFireBlockedReason.AimBlocked TypeName c
      else
        let SpawnLocation := CalculateMuzzleLocation e c in
        let '(FireDirection, aim', aimEvents) :=
          ResolveFireDirection e o SpawnLocation c in
        let c1 := set_AimComponent aim' c in
        let SpawnParams :=
          mkSpawnParams (OwnerActor o)
            (if IsPawn o then Some (OwnerActor o) else None) in
        match SpawnActor w cls SpawnLocation FireDirection SpawnParams with
        | None =>
          let '(c2, r, evs) :=
            BroadcastFireBlocked EFireBlockedReason.SpawnFailed TypeName c1 in
          (c2, r, aimEvents ++ evs)
        | Some spawned =>
          let p1 := BaseProjectile.InitializeProjectile (ProjectileWorld w)
                      (Some (OwnerActor o)) FireDirection spawned in
          let Projectile :=
            if BaseProjectile.HasProjectileMovement p1
            then BaseProjectile.set_Velocity
                   (vscale FireDirection (BaseProjectile.MovementInitialSpeed p1))
                   p1
            else p1 in
          (set_cooldown CurrentTime true c1,
           Some Projectile,
           aimEvents
           ++ [OnCooldownStateChanged true (FireCooldown c1);
               OnProjectileFired (BaseProjectile.Self Projectile) TypeName
                 FireDirection])
        end
    end
  | _, _ => BroadcastFireBlocked EFireBlockedReason.SpawnFailed TypeName c
  end.

(** [UAC_CombatComponent::FireProjectileClass]. *)
Definition FireProjectileClass (e : Env) (ProjectileClass : option UClass)
    (c : UAC_CombatComponent) : Outcome :=
  SpawnProjectileInternal e ProjectileClass NAME_None c.

(** [UAC_CombatComponent::FireProjectile]. *)
Definition FireProjectile (e : Env) (c : UAC_CombatComponent) : Outcome :=
  FireProjectileClass e (DefaultProjectileClass c) c.

(** [UAC_CombatComponent::FireProjectileByType].  [ProjectileClassMap.Find]
    looks the name up by its comparison index. *)
Definition FireProjectileByType (e : Env) (TypeName : FName)
    (c : UAC_CombatComponent) : Outcome :=
  match ProjectileClassMap c !! ComparisonIndex TypeName with
  | Some (Some cls) => SpawnProjectileInternal e (Some cls) TypeName c
  | _ => BroadcastFireBlocked EFireBlockedReason.NoProjectileClass TypeName c
  end.

(** [UAC_CombatComponent::GetCooldownRemaining]. *)
Definition GetCooldownRemaining (e : Env) (c : UAC_CombatComponent) : R :=
  match GetWorld e with
  | None => 0
  | Some w =>
    let Elapsed := GetTimeSeconds w - LastFireTime c in
    let Remaining := FireCooldown c - Elapsed in
    Rmax 0 Remaining
  end.

(** The three ways of asking for a shot. *)
Inductive Dispatch : Type :=
| ByDefault
| ByType (TypeName : FName)
| ByClass (ProjectileClass : option UClass).

Definition dispatch (call : Dispatch) (e : Env) (c : UAC_CombatComponent)
  : Outcome :=
  match call with
  | ByDefault => FireProjectile e c
  | ByType TypeName => FireProjectileByType e TypeName c
  | ByClass cls => FireProjectileClass e cls c
  end.

(** The kind identifier a call attempts: the name it was given, or
    [NAME_None] for the calls that name no kind. *)
Definition AttemptedType (call : Dispatch) : FName :=
  match call with
  | ByType TypeName => TypeName
  | _ => NAME_None
  end.

Definition isFireBlocked (ev : Event) : bool :=
  match ev with OnFireBlocked _ _ => true | _ => false end.
Definition isProjectileFired (ev : Event) : bool :=
  match ev with OnProjectileFired _ _ _ => true | _ => false end.

(** The rejection reasons of the design document's closed set. *)
Definition InClosedSet (r : EFireBlockedReason.t) : Prop :=
  r = EFireBlockedReason.OnCooldown
  \/ r = EFireBlockedReason.NoProjectileClass
  \/ r = EFireBlockedReason.AimBlocked
  \/ r = EFireBlockedReason.NoAimComponent
  \/ r = EFireBlockedReason.SpawnFailed.

(** *** Outcomes of a dispatch *)

Lemma filter_OnAim (f : Event -> bool) (evs : list AimComponent.Event) :
  (forall ev, f (OnAim ev) = false) ->
  List.filter f (map OnAim evs) = [].
Proof.
  intro Hf. induction evs as [| ev rest IH]; simpl; [reflexivity |].
  now rewrite Hf.
Qed.

Lemma ResolveFireDirection_events (e : Env) (o : Owner) (loc : FVector)
    (c : UAC_CombatComponent) (f : Event -> bool) :
  (forall ev, f (OnAim ev) = false) ->
  List.filter f (snd (ResolveFireDirection e o loc c)) = [].
Proof.
  intro Hf. unfold ResolveFireDirection.
  destruct (AimComponent c) as [a |]; [| reflexivity].
  destruct (AimComponent.RequestAimUpdate (AimEnv e) a) as [[a' evs] d].
  simpl. now apply filter_OnAim.
Qed.

(** The shape of every result of [SpawnProjectileInternal]. *)
Definition WellFormedOutcome (e : Env) (TypeName : FName) (r : Outcome) : Prop :=
  let evs := snd r in
  match snd (fst r) with
  | Some Projectile =>
    List.filter isFireBlocked evs = []
    /\ exists dir,
         List.filter isProjectileFired evs
         = [OnProjectileFired (BaseProjectile.Self Projectile) TypeName dir]
         /\ exists w cls loc params spawned,
              GetWorld e = Some w
              /\ SpawnActor w cls loc dir params = Some spawned
              /\ BaseProjectile.Self Projectile = BaseProjectile.Self spawned
  | None =>
    List.filter isProjectileFired evs = []
    /\ exists reason,
         List.filter isFireBlocked evs = [OnFireBlocked reason TypeName]
         /\ InClosedSet reason
  end.

Lemma BroadcastFireBlocked_wf (e : Env) (reason : EFireBlockedReason.t)
    (TypeName : FName) (c : UAC_CombatComponent) :
  InClosedSet reason ->
  WellFormedOutcome e TypeName (BroadcastFireBlocked reason TypeName c).
Proof.
  intro Hin. unfold WellFormedOutcome, BroadcastFireBlocked; simpl.
  split; [reflexivity |]. now exists reason.
Qed.

Create HintDb closed_set.
#[local] Hint Unfold InClosedSet : closed_set.

Lemma SpawnProjectileInternal_wf (e : Env) (cls : option UClass)
    (TypeName : FName) (c : UAC_CombatComponent) :
  WellFormedOutcome e TypeName (SpawnProjectileInternal e cls TypeName c).
Proof.
  unfold SpawnProjectileInternal.
  destruct (GetWorld e) as [w |] eqn:Hw;
    [| apply BroadcastFireBlocked_wf; autounfold with closed_set; tauto].
  destruct (GetOwner e) as [o |];
    [| apply BroadcastFireBlocked_wf; autounfold with closed_set; tauto].
  destruct cls as [k |];
    [| apply BroadcastFireBlocked_wf; autounfold with closed_set; tauto].
  destruct (Rlt_dec _ _);
    [apply BroadcastFireBlocked_wf; autounfold with closed_set; tauto |].
  destruct (AimGateClosed c);
    [apply BroadcastFireBlocked_wf; autounfold with closed_set; tauto |].
  pose proof (ResolveFireDirection_events e o (CalculateMuzzleLocation e c) c
                isFireBlocked (fun _ => eq_refl)) as Hb.
  pose proof (ResolveFireDirection_events e o (CalculateMuzzleLocation e c) c
                isProjectileFired (fun _ => eq_refl)) as Hf.
  destruct (ResolveFireDirection e o (CalculateMuzzleLocation e c) c)
    as [[dir aim'] aimEvents].
  simpl in Hb, Hf.
  destruct (SpawnActor w k _ dir _) as [spawned |] eqn:Hs.
  - unfold WellFormedOutcome. cbn [fst snd].
    rewrite !List.filter_app, Hb, Hf. cbn [List.filter isFireBlocked
      isProjectileFired app]. split; [reflexivity |].
    exists dir. split; [reflexivity |].
    exists w, k, (CalculateMuzzleLocation e c). eexists. exists spawned.
    split; [exact Hw |]. split; [exact Hs |].
    unfold BaseProjectile.InitializeProjectile.
    repeat match goal with
           | |- context [if ?b then _ else _] => destruct b
           end; reflexivity.
  - unfold WellFormedOutcome, BroadcastFireBlocked. cbn [fst snd].
    rewrite !List.filter_app, Hb, Hf. simpl. split; [reflexivity |].
    exists EFireBlockedReason.SpawnFailed. split; [reflexivity |].
    autounfold with closed_set; tauto.
Qed.

(** C4.  Every dispatch call, whichever of the three entry points is used,
    ends in exactly one of two ways: it returns the projectile that the
    world has just spawned, publishes exactly one fired event for it with
    the attempted kind identifier, and publishes no fire-blocked event; or
    it returns no projectile, publishes no fired event and exactly one
    fire-blocked event, which carries the attempted kind identifier and a
    reason of the closed set. *)
Theorem dispatch_outcome (call : Dispatch) (e : Env) (c : UAC_CombatComponent) :
  WellFormedOutcome e (AttemptedType call) (dispatch call e c).
Proof.
  destruct call as [| TypeName | cls]; simpl.
  - apply SpawnProjectileInternal_wf.
  - unfold FireProjectileByType.
    destruct (ProjectileClassMap c !! ComparisonIndex TypeName) as [[k |] |].
    + apply SpawnProjectileInternal_wf.
    + apply BroadcastFireBlocked_wf. autounfold with closed_set; tauto.
    + apply BroadcastFireBlocked_wf. autounfold with closed_set; tauto.
  - apply SpawnProjectileInternal_wf.
Qed.

(** *** The cooldown gate *)

(** The projectile kind a call resolves to, if any. *)
Definition ResolvedClass (call : Dispatch) (c : UAC_CombatComponent)
  : option UClass :=
  match call with
  | ByDefault => DefaultProjectileClass c
  | ByType TypeName =>
    match ProjectileClassMap c !! ComparisonIndex TypeName with
    | Some (Some cls) => Some cls
    | _ => None
    end
  | ByClass cls => cls
  end.

Lemma dispatch_resolved (call : Dispatch) (e : Env) (c : UAC_CombatComponent)
    (k : UClass) :
  ResolvedClass call c = Some k ->
  dispatch call e c = SpawnProjectileInternal e (Some k) (AttemptedType call) c.
Proof.
  destruct call as [| TypeName | cls]; simpl; intro H.
  - unfold FireProjectile, FireProjectileClass. now rewrite H.
  - unfold FireProjectileByType.
    destruct (ProjectileClassMap c !! ComparisonIndex TypeName) as [[k' |] |];
      try discriminate. now inversion H.
  - unfold FireProjectileClass. now rewrite H.
Qed.

(** A call whose kind does not resolve is rejected for that reason, whatever
    the time. *)
Lemma dispatch_unresolved (call : Dispatch) (e : Env) (w : UWorld) (o : Owner)
    (c : UAC_CombatComponent) :
  GetWorld e = Some w -> GetOwner e = Some o ->
  ResolvedClass call c = None ->
  dispatch call e c
  = (c, None, [OnFireBlocked EFireBlockedReason.NoProjectileClass
                 (AttemptedType call)]).
Proof.
  intros Hw Ho.
  destruct call as [| TypeName | cls]; simpl; intro H.
  - unfold FireProjectile, FireProjectileClass, SpawnProjectileInternal.
    now rewrite Hw, Ho, H.
  - unfold FireProjectileByType.
    destruct (ProjectileClassMap c !! ComparisonIndex TypeName) as [[k' |] |];
      try discriminate; reflexivity.
  - unfold FireProjectileClass, SpawnProjectileInternal.
    now rewrite Hw, Ho, H.
Qed.

(** What a successful [SpawnProjectileInternal] leaves behind. *)
Lemma SpawnProjectileInternal_success (e : Env) (cls : option UClass)
    (TypeName : FName) (c c1 : UAC_CombatComponent)
    (p : BaseProjectile.ABaseProjectile) (evs : list Event) :
  SpawnProjectileInternal e cls TypeName c = (c1, Some p, evs) ->
  exists w, GetWorld e = Some w
            /\ LastFireTime c1 = GetTimeSeconds w
            /\ FireCooldown c1 = FireCooldown c
            /\ bWasOnCooldown c1 = true.
Proof.
  unfold SpawnProjectileInternal, BroadcastFireBlocked.
  destruct (GetWorld e) as [w |]; [| discriminate].
  destruct (GetOwner e) as [o |]; [| discriminate].
  destruct cls as [k |]; [| discriminate].
  destruct (Rlt_dec _ _); [discriminate |].
  destruct (AimGateClosed c); [discriminate |].
  destruct (ResolveFireDirection e o _ c) as [[dir aim'] aimEvents].
  destruct (SpawnActor w k _ dir _) as [spawned |]; [| discriminate].
  intro H. inversion H; subst. exists w. repeat split.
Qed.

Lemma dispatch_success (call : Dispatch) (e : Env) (c c1 : UAC_CombatComponent)
    (p : BaseProjectile.ABaseProjectile) (evs : list Event) :
  dispatch call e c = (c1, Some p, evs) ->
  exists w, GetWorld e = Some w
            /\ LastFireTime c1 = GetTimeSeconds w
            /\ FireCooldown c1 = FireCooldown c
            /\ bWasOnCooldown c1 = true.
Proof.
  destruct call as [| TypeName | cls]; simpl.
  - apply SpawnProjectileInternal_success.
  - unfold FireProjectileByType, BroadcastFireBlocked.
    destruct (ProjectileClassMap c !! ComparisonIndex TypeName) as [[k |] |];
      try discriminate. apply SpawnProjectileInternal_success.
  - apply SpawnProjectileInternal_success.
Qed.

(** The arguments with which [SpawnProjectileInternal] calls [SpawnActor]. *)
Definition SpawnRequest (e : Env) (o : Owner) (c : UAC_CombatComponent)
  : (FVector * FVector * FActorSpawnParameters)%type :=
  let SpawnLocation := CalculateMuzzleLocation e c in
  (SpawnLocation,
   fst (fst (ResolveFireDirection e o SpawnLocation c)),
   mkSpawnParams (OwnerActor o)
     (if IsPawn o then Some (OwnerActor o) else None)).

(** C2 (as amended).  After a dispatch that fired at world time T, with
    cooldown C: the last fire time is T; every later dispatch whose
    projectile kind resolves, made with owner and world present at a time
    t < T + C, returns no projectile, leaves the component unchanged and
    publishes the single event fire-blocked(OnCooldown, attempted kind);
    no dispatch at a time t >= T + C publishes a fire-blocked event
    with reason OnCooldown; such a dispatch, when its kind resolves, the
    aim gate is open and the world spawns the projectile, returns a
    projectile, publishes no fire-blocked event and restarts the cooldown
    at t; and a dispatch whose kind does not resolve, made with owner and
    world present at any time, in particular at a time t < T + C, returns no
    projectile, leaves the component unchanged and publishes the single
    event fire-blocked(NoProjectileClass, attempted kind), because the kind
    is checked before the cooldown. *)
Theorem cooldown_gate (call0 : Dispatch) (e0 : Env) (w0 : UWorld)
    (c0 c1 : UAC_CombatComponent) (p0 : BaseProjectile.ABaseProjectile)
    (evs0 : list Event) :
  GetWorld e0 = Some w0 ->
  dispatch call0 e0 c0 = (c1, Some p0, evs0) ->
  let T := GetTimeSeconds w0 in
  let C := FireCooldown c1 in
  LastFireTime c1 = T
  /\ C = FireCooldown c0
  /\ (forall call e w o k,
        GetWorld e = Some w -> GetOwner e = Some o ->
        ResolvedClass call c1 = Some k ->
        GetTimeSeconds w < T + C ->
        dispatch call e c1
        = (c1, None, [OnFireBlocked EFireBlockedReason.OnCooldown
                        (AttemptedType call)]))
  /\ (forall call e w,
        GetWorld e = Some w -> T + C <= GetTimeSeconds w ->
        forall n,
          ~ In (OnFireBlocked EFireBlockedReason.OnCooldown n)
               (snd (dispatch call e c1)))
  /\ (forall call e w o k spawned,
        GetWorld e = Some w -> GetOwner e = Some o ->
        ResolvedClass call c1 = Some k ->
        T + C <= GetTimeSeconds w ->
        AimGateClosed c1 = false ->
        (let '(loc, dir, params) := SpawnRequest e o c1 in
         SpawnActor w k loc dir params = Some spawned) ->
        exists c2 p evs,
          dispatch call e c1 = (c2, Some p, evs)
          /\ BaseProjectile.Self p = BaseProjectile.Self spawned
          /\ List.filter isFireBlocked evs = []
          /\ LastFireTime c2 = GetTimeSeconds w)
  /\ (forall call e w o,
        GetWorld e = Some w -> GetOwner e = Some o ->
        ResolvedClass call c1 = None ->
        dispatch call e c1
        = (c1, None, [OnFireBlocked EFireBlockedReason.NoProjectileClass
                        (AttemptedType call)])).
Proof.
  intros Hw0 Hfire T C.
  destruct (dispatch_success _ _ _ _ _ _ Hfire) as (w0' & Hw0' & HT & HC & _).
  rewrite Hw0 in Hw0'. inversion Hw0'; subst w0'. clear Hw0'.
  split; [exact HT |]. split; [exact HC |]. split; [| split; [| split]].
  - intros call e w o k Hw Ho Hk Ht.
    rewrite (dispatch_resolved call e c1 k Hk).
    unfold SpawnProjectileInternal. rewrite Hw, Ho.
    destruct (Rlt_dec _ _) as [_ | Hn]; [reflexivity |].
    exfalso. apply Hn. subst T C. rewrite HT. lra.
  - intros call e w Hw Ht n Hin.
    assert (Hsp : forall cls name,
              ~ In (OnFireBlocked EFireBlockedReason.OnCooldown n)
                   (snd (SpawnProjectileInternal e cls name c1))).
    { intros cls name. unfold SpawnProjectileInternal, BroadcastFireBlocked.
      rewrite Hw.
      destruct (GetOwner e) as [o |]; [| simpl; intros [H | []]; discriminate].
      destruct cls as [k |]; [| simpl; intros [H | []]; discriminate].
      destruct (Rlt_dec _ _) as [Hlt | _];
        [exfalso; subst T C; rewrite HT in Hlt; lra |].
      destruct (AimGateClosed c1); [simpl; intros [H | []]; discriminate |].
      unfold ResolveFireDirection.
      destruct (AimComponent c1) as [a |].
      - destruct (AimComponent.RequestAimUpdate (AimEnv e) a) as [[a' evs] d].
        destruct (SpawnActor w k _ _ _); cbn [snd]; intro H;
          apply in_app_or in H; destruct H as [H | H];
          try (apply in_map_iff in H; destruct H as (x & Hx & _); discriminate);
          simpl in H; intuition discriminate.
      - destruct (SpawnActor w k _ _ _); cbn [snd]; simpl;
          intuition discriminate. }
    destruct call as [| TypeName | cls]; simpl in Hin.
    + now apply Hsp in Hin.
    + unfold FireProjectileByType, BroadcastFireBlocked in Hin.
      destruct (ProjectileClassMap c1 !! ComparisonIndex TypeName) as [[k |] |].
      * now apply Hsp in Hin.
      * simpl in Hin. destruct Hin as [H | []]. discriminate.
      * simpl in Hin. destruct Hin as [H | []]. discriminate.
    + now apply Hsp in Hin.
  - intros call e w o k spawned Hw Ho Hk Ht Hgate Hspawn.
    rewrite (dispatch_resolved call e c1 k Hk).
    unfold SpawnRequest in Hspawn.
    pose proof (ResolveFireDirection_events e o (CalculateMuzzleLocation e c1)
                  c1 isFireBlocked (fun _ => eq_refl)) as Hb.
    unfold SpawnProjectileInternal. rewrite Hw, Ho, Hgate.
    destruct (Rlt_dec _ _) as [Hlt | _];
      [exfalso; subst T C; rewrite HT in Hlt; lra |].
    destruct (ResolveFireDirection e o (CalculateMuzzleLocation e c1) c1)
      as [[dir aim'] aimEvents].
    cbn [fst snd] in Hspawn, Hb. rewrite Hspawn.
    do 3 eexists. split; [reflexivity |]. split; [| split].
    + unfold BaseProjectile.InitializeProjectile.
      repeat match goal with
             | |- context [if ?b then _ else _] => destruct b
             end; reflexivity.
    + rewrite List.filter_app, Hb. reflexivity.
    + reflexivity.
  - intros call e w o Hw Ho Hk. now apply dispatch_unresolved with w o.
Qed.

End CombatComponent.

(** ** Worked scenarios *)

Module ProjectileScenarios.
Import FMath BaseProjectile.

(** Actor 1 launches (team 1, a pawn with controller 100); actor 2 is on
    team 2; actor 3 is on the launcher's team; actor 4 exposes no team. *)
Definition world : World :=
  mkWorld
    (fun a => match a with
              | 1%nat => Some 1%N
              | 2%nat => Some 2%N
              | 3%nat => Some 1%N
              | _ => None
              end)
    (fun _ => ZeroVector)
    (fun _ => ForwardVector)
    (fun a => Nat.eqb a 1)
    (fun _ => None)
    (fun a => if Nat.eqb a 1 then Some 100%nat else None).

Definition noSweep : FHitResult :=
  mkHit false false ZeroVector ZeroVector ZeroVector ZeroVector.

Definition launched : ABaseProjectile :=
  InitializeProjectile world (Some 1%nat) ForwardVector (Constructed 7%nat).

Definition overlap (a : AActor) : World * Signal :=
  (world, ComponentBeginOverlap (Some a) None noSweep).

Definition synthesizedHit : FHitResult :=
  mkHit false false ZeroVector (vneg ForwardVector) ZeroVector
    (vneg ForwardVector).

(** Two enemies and the lifetime expiry in one tick: the first overlap
    resolves, the rest is not delivered. *)
Example hit_then_hit_then_expiry :
  snd (deliverAll [overlap 2%nat; overlap 4%nat; (world, LifetimeTimerFired)]
         (BeginPlay launched))
  = [TakeDamage 2%nat 15 synthesizedHit (Some 100%nat) (Some 1%nat);
     SpawnImpactEffect ZeroVector (vneg ForwardVector);
     OnProjectileHit 7%nat 2%nat synthesizedHit;
     OnProjectileDestroyed 7%nat true].
Proof.
  unfold deliverAll, deliver, overlap.
  change (OverlapBound (BeginPlay launched)) with true. cbv iota.
  unfold OnOverlapBegin, HandleHit, ApplyDamage, andThen.
  cbn -[Rle_dec GetSafeNormal].
  destruct (Rle_dec 15 0) as [H | _]; [lra |].
  reflexivity.
Qed.

(** A friendly overlap first: the projectile flies on and resolves on the
    enemy behind. *)
Example friendly_then_enemy :
  List.filter isHitEvent
    (snd (deliverAll [overlap 3%nat; overlap 2%nat] (BeginPlay launched)))
  = [OnProjectileHit 7%nat 2%nat synthesizedHit].
Proof.
  unfold deliverAll, deliver, overlap.
  change (OverlapBound (BeginPlay launched)) with true. cbv iota.
  unfold OnOverlapBegin, HandleHit, ApplyDamage, andThen.
  cbn -[Rle_dec GetSafeNormal].
  destruct (Rle_dec 15 0) as [H | _]; [lra |].
  reflexivity.
Qed.

Lemma at_most_one_resolution_witness :
  let es :=
    snd (deliverAll [overlap 2%nat; overlap 4%nat; (world, LifetimeTimerFired)]
           (BeginPlay launched)) in
  (count isTakeDamage es <= 1 /\ count isHitEvent es <= 1
   /\ count isDestroyedEvent es <= 1)%nat.
Proof.
  exact (proj1 (at_most_one_resolution launched eq_refl eq_refl)
           [overlap 2%nat; overlap 4%nat; (world, LifetimeTimerFired)]).
Defined.

Lemma friendly_exemption_witness :
  IsFriendlyActor world launched (Some 3%nat) = true
  /\ OnOverlapBegin world (Some 3%nat) None noSweep launched = (launched, []).
Proof.
  refine (proj1 (friendly_exemption world launched 3%nat None noSweep
                   eq_refl eq_refl eq_refl eq_refl eq_refl)
            1%N eq_refl eq_refl _).
  discriminate.
Defined.

Lemma InitializeProjectile_velocity_witness :
  Size (Velocity (InitializeProjectile world (Some 1%nat) (mkFVector 3 0 4)
                    (Constructed 7%nat)))
  = 3000.
Proof.
  refine (proj2 (proj1 (InitializeProjectile_velocity world (Some 1%nat)
                          (mkFVector 3 0 4) (Constructed 7%nat) eq_refl) _) _).
  - unfold SMALL_NUMBER, SizeSquared; simpl. lra.
  - simpl. lra.
Defined.

(** A launch direction that is not zero but shorter than the normalisation
    tolerance: the projectile is left without velocity, so its launch speed
    is not [InitialSpeed]. *)
Lemma tiny_direction_not_launched :
  let dir := mkFVector (/ 100000) 0 0 in
  let p := InitializeProjectile world (Some 1%nat) dir (Constructed 7%nat) in
  dir <> ZeroVector
  /\ Velocity p = ZeroVector
  /\ Size (Velocity p) <> InitialSpeed (Constructed 7%nat).
Proof.
  intros dir p.
  assert (Hv : Velocity p = ZeroVector).
  { subst p. unfold InitializeProjectile. cbn -[GetSafeNormal].
    rewrite GetSafeNormal_small.
    - apply FVector_eq; simpl; ring.
    - unfold SizeSquared, SMALL_NUMBER, dir; simpl. lra. }
  repeat split.
  - intro H. apply (f_equal X) in H. simpl in H. lra.
  - exact Hv.
  - rewrite Hv, Size_ZeroVector. simpl. lra.
Qed.

End ProjectileScenarios.

Module AimScenarios.
Import FMath AimComponent.

(** An agent without controller at the origin, facing +X. *)
Definition agent : Owner :=
  mkOwner 1%nat ZeroVector ForwardVector None None None [].

Definition emptyWorld : UWorld :=
  mkUWorld 0 (fun _ _ _ => None) (fun _ _ => false) (fun _ => false).

(** Scenario A: nothing in the world. *)
Definition scenarioA : Env := mkEnv (Some agent) (Some emptyWorld).


Lemma AimDirection_unit_beyond_tolerance_witness :
  Size (AimDirection (snd (RequestAimUpdate scenarioA (Constructed DefaultConfig))))
  = 1.
Proof.
  refine (proj1 (proj1 (AimDirection_unit_beyond_tolerance scenarioA
                          (Constructed DefaultConfig) agent emptyWorld
                          eq_refl eq_refl) _)).
  rewrite (RequestAimUpdate_snapshot scenarioA _ agent emptyWorld eq_refl eq_refl).
  unfold SMALL_NUMBER, SizeSquared. cbn -[GetSafeNormal]. lra.
Defined.

(** A player whose camera sits 300 units behind the agent and looks along
    +X, with a maximum trace distance of 300 and nothing in the world: the
    far end of the ray is the agent's own location. *)
Definition camera : APlayerController :=
  mkPC (1920%Z, 1080%Z)
    (fun _ _ => Some (mkFVector (- 300) 0 0, ForwardVector))
    (mkFVector (- 300) 0 0, ForwardVector).

Definition player : Owner :=
  mkOwner 1%nat ZeroVector ForwardVector
    (Some (Some (PlayerController camera))) None None [].

Definition shortRange : Config :=
  mkConfig 300 (/ 2, / 2) 50 10 [] [] false (/ 20).

Definition behindCamera : Env := mkEnv (Some player) (Some emptyWorld).

(** The snapshot of that request has no unit aim direction. *)
Lemma far_end_at_agent_has_zero_direction :
  let d := snd (RequestAimUpdate behindCamera (Constructed shortRange)) in
  bDidHit d = false
  /\ AimLocation d = mkFVector (- 300 + 1 * 300) (0 + 0 * 300) (0 + 0 * 300)
  /\ AimDirection d = ZeroVector
  /\ Size (AimDirection d) <> 1.
Proof.
  intro d.
  assert (Ed : d = PerformAimTrace shortRange behindCamera)
    by exact (RequestAimUpdate_snapshot behindCamera (Constructed shortRange)
                player emptyWorld eq_refl eq_refl).
  assert (Edir : AimDirection d = ZeroVector).
  { rewrite Ed.
    rewrite (PerformAimTrace_direction shortRange behindCamera player
               emptyWorld eq_refl eq_refl).
    apply GetSafeNormal_small.
    unfold SizeSquared, SMALL_NUMBER. cbn -[GetSafeNormal]. lra. }
  repeat split.
  - now rewrite Ed.
  - now rewrite Ed.
  - exact Edir.
  - rewrite Edir, Size_ZeroVector. lra.
Qed.

(** Scenario B: muzzle at (0,0,70), cached aim location (1000,0,0). *)
Definition aimingAhead : UAC_AimComponent :=
  mkAim DefaultConfig
    (mkAimData (mkFVector 1000 0 0) ForwardVector None EAimTraceResult.Nothing
       10000 UpVector NAME_None false 0)
    None ZeroVector false 0.

Lemma GetAimDirectionFromLocation_correction_witness :
  Z (GetAimDirectionFromLocation scenarioA aimingAhead (mkFVector 0 0 70)) < 0
  /\ GetAimDirectionFromLocation scenarioA aimingAhead (mkFVector 0 0 70)
     <> ForwardVector.
Proof.
  exact (proj2 (proj2 (GetAimDirectionFromLocation_correction scenarioA
                         aimingAhead agent (mkFVector 0 0 70) eq_refl))
           eq_refl eq_refl eq_refl).
Defined.

(** An aim point ahead and far to the side: the unit vector toward it is
    not degenerate and points forward (positive dot product with the
    facing), yet the facing direction is returned instead of it. *)
Definition aimingSideways : UAC_AimComponent :=
  mkAim DefaultConfig
    (mkAimData (mkFVector 25 312 0) ForwardVector None EAimTraceResult.Nothing
       10000 UpVector NAME_None false 0)
    None ZeroVector false 0.

Lemma forward_but_sideways_falls_back :
  let toward := GetSafeNormal (vsub (mkFVector 25 312 0) ZeroVector) in
  let facing := GetActorForwardVector agent in
  Size toward = 1
  /\ IsNearlyZero toward = false
  /\ 0 < DotProduct toward facing
  /\ GetAimDirectionFromLocation scenarioA aimingSideways ZeroVector = facing
  /\ GetAimDirectionFromLocation scenarioA aimingSideways ZeroVector <> toward.
Proof.
  intros toward facing.
  assert (Hsq : SizeSquared (vsub (mkFVector 25 312 0) ZeroVector) = 97969).
  { unfold SizeSquared, vsub; simpl. ring. }
  assert (Hsz : Size (vsub (mkFVector 25 312 0) ZeroVector) = 313).
  { unfold Size. rewrite Hsq. apply sqrt_of_square; lra. }
  assert (Ht : toward = mkFVector (25 / 313) (312 / 313) 0).
  { subst toward. rewrite GetSafeNormal_scaled.
    - rewrite Hsz. apply FVector_eq; simpl; field.
    - rewrite Hsq. unfold SMALL_NUMBER. lra. }
  assert (Hdot : DotProduct toward facing = 25 / 313).
  { rewrite Ht. unfold DotProduct; simpl. field. }
  assert (Hnz : IsNearlyZero toward = false).
  { rewrite Ht. unfold IsNearlyZero, KINDA_SMALL_NUMBER; simpl.
    destruct (Rle_dec (Rabs (25 / 313)) (/ 10000)) as [Hle | _];
      [| reflexivity].
    rewrite Rabs_pos_eq in Hle by lra. lra. }
  assert (Hres : GetAimDirectionFromLocation scenarioA aimingSideways ZeroVector
                 = facing).
  { unfold GetAimDirectionFromLocation.
    cbn [GetOwner scenarioA aimingSideways CachedAimData AimLocation].
    fold toward. rewrite Hnz.
    change (GetActorForwardVector agent) with facing. rewrite Hdot.
    destruct (Rlt_dec (25 / 313) (/ 10)) as [_ | Hn]; [reflexivity | lra]. }
  split; [| split; [| split; [| split]]].
  - subst toward. apply GetSafeNormal_unit. rewrite Hsq.
    unfold SMALL_NUMBER. lra.
  - exact Hnz.
  - rewrite Hdot. lra.
  - exact Hres.
  - rewrite Hres, Ht. intro H. apply (f_equal Y) in H. simpl in H. lra.
Qed.

(** The agent looks at actor 5, which the trace strikes [x] units ahead. *)
Definition targetAt (x : R) : Env :=
  mkEnv (Some agent)
    (Some (mkUWorld 0
             (fun _ _ _ => Some (mkHit (mkFVector x 0 0) (Some 5%nat) x
                                   (vneg ForwardVector) None))
             (fun _ _ => false) (fun _ => false))).

Lemma trace_targetAt (x : R) :
  PerformAimTrace DefaultConfig (targetAt x)
  = mkAimData (mkFVector x 0 0)
      (GetSafeNormal (vsub (mkFVector x 0 0) ZeroVector))
      (Some 5%nat) EAimTraceResult.World x (vneg ForwardVector) NAME_None
      true 0.
Proof. reflexivity. Qed.

Lemma Dist_along_X (a b : R) :
  a <= b -> Dist (mkFVector a 0 0) (mkFVector b 0 0) = b - a.
Proof.
  intro Hab. unfold Dist, Size, SizeSquared, vsub; simpl.
  apply sqrt_of_square; [lra | ring].
Qed.

(** The component after its initial trace with the target 100 units ahead. *)
Definition started : UAC_AimComponent :=
  BeginPlay (targetAt 100) (Constructed DefaultConfig).

(** The target creeps away, 6 units per request, threshold 10. *)
Definition afterFirst : UAC_AimComponent :=
  fst (fst (RequestAimUpdate (targetAt 106) started)).

Lemma first_request_is_silent :
  RequestAimUpdate (targetAt 106) started
  = (mkAim DefaultConfig (PerformAimTrace DefaultConfig (targetAt 106))
       (Some 5%nat) (mkFVector 100 0 0) false 0,
     [], PerformAimTrace DefaultConfig (targetAt 106)).
Proof.
  unfold RequestAimUpdate, BroadcastChanges, Get.
  cbn [GetOwner GetWorld targetAt started BeginPlay Cfg Constructed
       bAimIsBlocked PreviousTargetActor PreviousAimLocation AutoUpdateTimer
       CachedAimData].
  rewrite !trace_targetAt.
  cbn [bDidHit HitDistance HitActor AimLocation DefaultConfig MinAimDistance
       LocationUpdateThreshold option_actor_eqb Nat.eqb negb andb
       PreviousAimLocation PreviousTargetActor Cfg CachedAimData].
  rewrite Dist_along_X by lra.
  destruct (Rlt_dec 106 50) as [H | _]; [lra |].
  destruct (Rlt_dec 10 (106 - 100)) as [H | _]; [lra |].
  reflexivity.
Qed.

(** The second request resolves the same target only 6 units beyond the
    previous snapshot, which is within the threshold, and still publishes a
    location-updated notification: the comparison is with the location
    remembered since the initial trace, 12 units back. *)
Lemma creeping_target_is_notified :
  let r := RequestAimUpdate (targetAt 112) afterFirst in
  snd (fst (RequestAimUpdate (targetAt 106) started)) = []
  /\ HitActor (snd r) = HitActor (CachedAimData afterFirst)
  /\ Dist (AimLocation (CachedAimData afterFirst)) (AimLocation (snd r))
     <= LocationUpdateThreshold (Cfg afterFirst)
  /\ existsb isLocationUpdated (snd (fst r)) = true.
Proof.
  intro r.
  assert (Ea : afterFirst
               = mkAim DefaultConfig (PerformAimTrace DefaultConfig (targetAt 106))
                   (Some 5%nat) (mkFVector 100 0 0) false 0).
  { unfold afterFirst. now rewrite first_request_is_silent. }
  assert (Er : r = (mkAim DefaultConfig
                      (PerformAimTrace DefaultConfig (targetAt 112))
                      (Some 5%nat) (mkFVector 112 0 0) false 0,
                    [OnAimLocationUpdated (mkFVector 112 0 0)
                       (GetSafeNormal (vsub (mkFVector 112 0 0) ZeroVector))],
                    PerformAimTrace DefaultConfig (targetAt 112))).
  { subst r. rewrite Ea. unfold RequestAimUpdate, BroadcastChanges, Get.
    cbn [GetOwner GetWorld targetAt Cfg bAimIsBlocked PreviousTargetActor
         PreviousAimLocation AutoUpdateTimer CachedAimData].
    rewrite !trace_targetAt.
    cbn [bDidHit HitDistance HitActor AimLocation AimDirection DefaultConfig
         MinAimDistance LocationUpdateThreshold option_actor_eqb Nat.eqb negb
         andb PreviousAimLocation PreviousTargetActor Cfg CachedAimData].
    rewrite Dist_along_X by lra.
    destruct (Rlt_dec 112 50) as [H | _]; [lra |].
    destruct (Rlt_dec 10 (112 - 100)) as [_ | H]; [| lra].
    reflexivity. }
  rewrite Er, Ea, first_request_is_silent. cbn [fst snd CachedAimData Cfg].
  rewrite !trace_targetAt. cbn [HitActor AimLocation].
  repeat split.
  rewrite Dist_along_X by lra. simpl. lra.
Qed.

(** The target stands still: after the initial trace, any number of
    requests publishes neither notification. *)
Lemma change_suppression_witness :
  notifications
    (snd (RequestAimUpdates (repeat (targetAt 100) 3)
            (fst (fst (RequestAimUpdate (targetAt 100) started)))))
  = [].
Proof.
  refine (proj1 (proj2 (proj2 (change_suppression started))) _
            (targetAt 100) 3%nat).
  simpl. lra.
Defined.

(** The remembered target, actor 5, is destroyed and the next request
    resolves no target: the weak pointer reads null, null equals null, and
    no target-changed notification is published.  With actor 5 still alive
    the same request publishes one. *)
Example destroyed_target_then_miss :
  PreviousTargetActor started = Some 5%nat
  /\ HitActor (PerformAimTrace (Cfg started) scenarioA) = None
  /\ List.filter isTargetChanged
       (snd (steps [Destroyed 5%nat; Request scenarioA] started)) = []
  /\ List.filter isTargetChanged (snd (steps [Request scenarioA] started))
     = [OnAimTargetChanged None EAimTraceResult.Nothing].
Proof.
  split; [reflexivity |]. split; [reflexivity |].
  rewrite !steps_cons. cbn [steps step fst snd app].
  rewrite !app_nil_r.
  rewrite !(RequestAimUpdate_targetChanged scenarioA _ agent emptyWorld
              eq_refl eq_refl).
  split; reflexivity.
Qed.

(** Actor 6 is tagged Door and Ally; actor 8 is an untagged team agent. *)
Definition taggedWorld : UWorld :=
  mkUWorld 0 (fun _ _ _ => None)
    (fun a t => Nat.eqb a 6 && (FName_eqb t "Door" || FName_eqb t "Ally"))
    (fun a => Nat.eqb a 8).

Definition taggingConfig : Config :=
  mkConfig 10000 (/ 2, / 2) 50 10 ["Ally"%string] ["Door"%string] false (/ 20).

Definition teamAgent : Owner :=
  mkOwner 1%nat ZeroVector ForwardVector None None
    (Some (fun a => if Nat.eqb a 8 then ETeamAttitude.Hostile
                    else ETeamAttitude.Neutral)) [].

Lemma ClassifyHitActor_priority_witness :
  ClassifyHitActor taggingConfig teamAgent taggedWorld (Some 6%nat)
  = EAimTraceResult.Interactable.
Proof.
  refine (proj1 (ClassifyHitActor_priority taggingConfig teamAgent taggedWorld
                   6%nat) _).
  exists "Door"%string. split; [now left | reflexivity].
Defined.

Example hostile_team_agent_is_enemy :
  ClassifyHitActor taggingConfig teamAgent taggedWorld (Some 8%nat)
  = EAimTraceResult.Enemy.
Proof. reflexivity. Qed.

End AimScenarios.

Module CombatScenarios.
Import FMath CombatComponent.

(** Scenario C: cooldown 0.5 s, one mapped kind, no aim component. *)
Definition shooter : Owner :=
  mkOwner 1%nat ZeroVector ForwardVector (mkFVector 0 1 0) true None
    (mkFVector 60 0 70).

(** A world at time [t] in which every spawn succeeds. *)
Definition worldAt (t : R) : UWorld :=
  mkUWorld t
    (fun cls _ _ _ =>
       Some (BaseProjectile.BeginPlay
               (BaseProjectile.Constructed (100 + cls)%nat)))
    ProjectileScenarios.world.

Definition at_time (t : R) : Env :=
  mkEnv (Some shooter) (Some (worldAt t)) AimScenarios.scenarioA.

Definition armed : UAC_CombatComponent :=
  mkCombat "MuzzleSocket"%string (mkFVector 60 0 70) (/ 2) true (Some 1%nat)
    (<[ComparisonIndex "Flame" := Some 1%nat]> ∅) true None (- 1000) false.

Definition cooling : UAC_CombatComponent := set_cooldown 0 true armed.

Definition shot : BaseProjectile.ABaseProjectile :=
  let p1 := BaseProjectile.InitializeProjectile ProjectileScenarios.world
              (Some 1%nat) ForwardVector
              (BaseProjectile.BeginPlay (BaseProjectile.Constructed 101%nat)) in
  BaseProjectile.set_Velocity (vscale ForwardVector 3000) p1.

Lemma fired_at_0 :
  dispatch ByDefault (at_time 0) armed
  = (cooling, Some shot,
     [OnCooldownStateChanged true (/ 2);
      OnProjectileFired 101%nat NAME_None ForwardVector]).
Proof.
  unfold dispatch, FireProjectile, FireProjectileClass, SpawnProjectileInternal.
  cbn [GetWorld GetOwner at_time armed DefaultProjectileClass LastFireTime
       FireCooldown worldAt GetTimeSeconds].
  destruct (Rlt_dec (0 - - 1000) (/ 2)) as [H | _]; [lra |].
  reflexivity.
Qed.

Lemma cooldown_gate_witness :
  dispatch (ByType "Flame"%string) (at_time (3 / 10)) cooling
  = (cooling, None,
     [OnFireBlocked EFireBlockedReason.OnCooldown "Flame"%string]).
Proof.
  refine (proj1 (proj2 (proj2 (cooldown_gate ByDefault (at_time 0) (worldAt 0)
                                 armed cooling shot _ eq_refl fired_at_0)))
            (ByType "Flame"%string) (at_time (3 / 10)) (worldAt (3 / 10))
            shooter 1%nat eq_refl eq_refl eq_refl _).
  simpl. lra.
Defined.

Example remaining_at_0_3 :
  GetCooldownRemaining (at_time (3 / 10)) cooling = 2 / 10.
Proof.
  unfold GetCooldownRemaining. simpl. unfold Rmax.
  destruct (Rle_dec 0 (/ 2 - (3 / 10 - 0))) as [_ | H]; lra.
Qed.

Example fires_again_at_0_5 :
  exists c2 p evs,
    dispatch ByDefault (at_time (/ 2)) cooling = (c2, Some p, evs)
    /\ LastFireTime c2 = / 2.
Proof.
  unfold dispatch, FireProjectile, FireProjectileClass, SpawnProjectileInternal.
  cbn [GetWorld GetOwner at_time cooling set_cooldown armed
       DefaultProjectileClass LastFireTime FireCooldown worldAt GetTimeSeconds].
  destruct (Rlt_dec (/ 2 - 0) (/ 2)) as [H | _]; [lra |].
  do 3 eexists. split; reflexivity.
Qed.

(** During the cooldown, a dispatch whose kind does not resolve is rejected
    for the missing kind, not for the cooldown. *)
Lemma unresolved_kind_during_cooldown :
  dispatch ByDefault (at_time 0) armed
  = (cooling, Some shot,
     [OnCooldownStateChanged true (/ 2);
      OnProjectileFired 101%nat NAME_None ForwardVector])
  /\ 0 < 3 / 10 < 0 + FireCooldown cooling
  /\ dispatch (ByType "Frost"%string) (at_time (3 / 10)) cooling
     = (cooling, None,
        [OnFireBlocked EFireBlockedReason.NoProjectileClass "Frost"%string])
  /\ dispatch (ByClass None) (at_time (3 / 10)) cooling
     = (cooling, None,
        [OnFireBlocked EFireBlockedReason.NoProjectileClass NAME_None])
  /\ ~ In (OnFireBlocked EFireBlockedReason.OnCooldown "Frost"%string)
          (snd (dispatch (ByType "Frost"%string) (at_time (3 / 10)) cooling)).
Proof.
  assert (E : dispatch (ByType "Frost"%string) (at_time (3 / 10)) cooling
              = (cooling, None,
                 [OnFireBlocked EFireBlockedReason.NoProjectileClass
                    "Frost"%string])) by reflexivity.
  split; [exact fired_at_0 |]. split; [simpl; lra |].
  split; [exact E |]. split; [reflexivity |].
  rewrite E. simpl. intros [H | []]. discriminate.
Qed.

End CombatScenarios.

(** ** Further properties of the projectile *)

Module ProjectileLifecycle.
Import FMath BaseProjectile.

Lemma InitializeProjectile_fields (w : World) (owner : option AActor)
    (dir : FVector) (p : ABaseProjectile) :
  let q := InitializeProjectile w owner dir p in
  Self q = Self p
  /\ CachedOwner q = owner
  /\ CachedInstigator q
     = match owner with
       | Some o => if IsPawn w o then Some o else GetInstigator w o
       | None => CachedInstigator p
       end
  /\ Damage q = Damage p
  /\ HasCollisionSphere q = HasCollisionSphere p
  /\ bActorIsBeingDestroyed q = bActorIsBeingDestroyed p
  /\ bDidHitSomething q = bDidHitSomething p.
Proof.
  unfold InitializeProjectile.
  destruct (HasProjectileMovement (set_Owner _ _ _ p)); repeat split.
Qed.

Lemma actor_eqb_refl (a : AActor) : actor_eqb a (Some a) = true.
Proof. apply Nat.eqb_refl. Qed.

(** X1.  A projectile initialised for a launcher never resolves on that
    launcher, on the launcher's cached instigator, on itself or on an absent
    actor, whatever the teams and the sweep: the overlap leaves the
    projectile as it is and has no effect.  For a launcher that is a pawn
    the cached instigator is the launcher. *)
Theorem launcher_is_never_hit (w0 w : World) (o : AActor) (dir : FVector)
    (p0 : ABaseProjectile) (comp : option FVector) (sweep : FHitResult) :
  let p := InitializeProjectile w0 (Some o) dir p0 in
  (forall a, a = o \/ CachedInstigator p = Some a \/ a = Self p ->
             OnOverlapBegin w (Some a) comp sweep p = (p, []))
  /\ OnOverlapBegin w None comp sweep p = (p, [])
  /\ (IsPawn w0 o = true -> CachedInstigator p = Some o).
Proof.
  intro p.
  destruct (InitializeProjectile_fields w0 (Some o) dir p0)
    as (Hself & Hown & Hinst & _).
  fold p in Hself, Hown, Hinst.
  split; [| split].
  - intros a Ha. unfold OnOverlapBegin.
    destruct (Nat.eqb a (Self p)) eqn:Es; [reflexivity |].
    destruct Ha as [-> | [Hi | ->]].
    + now rewrite Hown, actor_eqb_refl.
    + now rewrite Hi, actor_eqb_refl, orb_true_r.
    + now rewrite Nat.eqb_refl in Es.
  - reflexivity.
  - intro Hp. now rewrite Hinst, Hp.
Qed.

(** The hit geometry handed to [HandleHit]: the sweep when it is a valid
    blocking hit, a synthesised one otherwise. *)
Definition IsHitGeometry (w : World) (p : ABaseProjectile) (a : AActor)
    (comp : option FVector) (sweep h : FHitResult) : Prop :=
  (IsValidBlockingHit sweep = true -> h = sweep)
  /\ (IsValidBlockingHit sweep = false ->
      ImpactPoint h = match comp with
                      | Some l => l
                      | None => GetActorLocation w a
                      end
      /\ ImpactNormal h = vneg (GetActorForwardVector w (Self p))
      /\ Location h = GetActorLocation w (Self p)
      /\ Normal h = ImpactNormal h).

(** X2.  A resolving overlap (a candidate that is not the projectile, its
    launcher, its instigator or a friend) on a live projectile has exactly
    these effects, in this order: one damage application of [Damage] to the
    candidate, attributed to the instigator's controller and the launcher,
    when [Damage] is positive and none at all otherwise; the impact effect
    at the impact point; the hit event; the termination event reporting a
    hit.  The hit geometry is the sweep when that is a valid blocking hit;
    otherwise its impact point is the overlapping component's location (the
    candidate's location when no component is given) and its normal is the
    reverse of the projectile's forward vector. *)
Theorem resolving_overlap_effects (w : World) (p : ABaseProjectile)
    (a : AActor) (comp : option FVector) (sweep : FHitResult) :
  HasCollisionSphere p = true -> bActorIsBeingDestroyed p = false ->
  Nat.eqb a (Self p) = false ->
  actor_eqb a (CachedOwner p) = false ->
  actor_eqb a (CachedInstigator p) = false ->
  IsFriendlyActor w p (Some a) = false ->
  exists h,
    IsHitGeometry w p a comp sweep h
    /\ snd (OnOverlapBegin w (Some a) comp sweep p)
       = (if Rle_dec (Damage p) 0 then []
          else [TakeDamage a (Damage p) h
                  (match CachedInstigator p with
                   | Some i => GetController w i
                   | None => None
                   end)
                  (CachedOwner p)])
         ++ [SpawnImpactEffect (ImpactPoint h) (ImpactNormal h);
             OnProjectileHit (Self p) a h;
             OnProjectileDestroyed (Self p) true].
Proof.
  intros Hs Hd Hself Hown Hinst Hfr.
  unfold OnOverlapBegin. rewrite Hself, Hown, Hinst, Hfr. cbn [orb].
  set (h := if IsValidBlockingHit sweep then sweep else _).
  exists h. split.
  - unfold IsHitGeometry. subst h.
    destruct (IsValidBlockingHit sweep); split; intro H;
      try discriminate; try reflexivity.
    repeat split.
  - unfold HandleHit, ApplyDamage, Destroy, EndPlay.
    cbn [Damage set_bDidHitSomething bActorIsBeingDestroyed
         set_bActorIsBeingDestroyed CachedInstigator CachedOwner Self
         bDidHitSomething HasCollisionSphere set_registrations
         OverlapBound LifetimeTimerSet].
    destruct (Rle_dec (Damage p) 0); unfold andThen;
      cbn [bActorIsBeingDestroyed set_bDidHitSomething HasCollisionSphere
           Self bDidHitSomething];
      rewrite Hd, Hs; reflexivity.
Qed.

(** A projectile that is live and has hit nothing yet. *)
Definition InFlight (p : ABaseProjectile) : Prop :=
  HasCollisionSphere p = true /\ bActorIsBeingDestroyed p = false
  /\ bDidHitSomething p = false.

Lemma deliverAll_termination (sigs : list (World * Signal)) (p : ABaseProjectile) :
  InFlight p ->
  let es := snd (deliverAll sigs p) in
  forall s b, In (OnProjectileDestroyed s b) es ->
    s = Self p /\ (b = true <-> count isHitEvent es = 1%nat).
Proof.
  intros (Hs & Hd & Hf). induction sigs as [| [w sg] rest IH]; simpl.
  - intros s b [].
  - destruct sg as [other comp sweep |].
    + destruct (OverlapBound p); [| now rewrite andThen_nil].
      destruct (OnOverlapBegin_live w other comp sweep p Hs Hd)
        as [E | (p' & es & a & E & _ & Hb & Ht & _ & Hh & _ & Hde)].
      * rewrite E. now rewrite andThen_nil.
      * rewrite E. unfold andThen.
        rewrite (unregistered_inert rest p' Hb Ht). simpl.
        rewrite app_nil_r. intros s b Hin.
        assert (Hin' : In (OnProjectileDestroyed s b)
                          (List.filter isDestroyedEvent es))
          by (apply List.filter_In; now split).
        rewrite Hde in Hin'. destruct Hin' as [Heq | []].
        inversion Heq; subst. split; [reflexivity |]. now split.
    + destruct (LifetimeTimerSet p); [| now rewrite andThen_nil].
      destruct (OnLifetimeExpired_live p Hs Hd) as (p' & E & Hb & Ht).
      rewrite E. unfold andThen.
      rewrite (unregistered_inert rest p' Hb Ht). simpl.
      intros s b [Heq | []]. inversion Heq; subst.
      split; [reflexivity |]. rewrite Hf. unfold count; simpl.
      split; discriminate.
Qed.

(** X3.  The termination event tells the truth.  For a projectile that
    begins play without a hit recorded, whatever signals follow: every
    termination event published is the projectile's own and reports a hit
    exactly when a hit event was published; and when the lifetime timer
    fires first, the only effect is the termination event reporting no
    hit. *)
Theorem termination_reports_hit (p : ABaseProjectile) :
  InFlight p ->
  (forall sigs s b,
     In (OnProjectileDestroyed s b) (snd (deliverAll sigs (BeginPlay p))) ->
     s = Self p
     /\ (b = true <->
         count isHitEvent (snd (deliverAll sigs (BeginPlay p))) = 1%nat))
  /\ (forall w later,
        snd (deliverAll ((w, LifetimeTimerFired) :: later) (BeginPlay p))
        = [OnProjectileDestroyed (Self p) false]).
Proof.
  intros Hin. split.
  - intros sigs. apply (deliverAll_termination sigs (BeginPlay p)).
    exact Hin.
  - intros w later. destruct Hin as (Hs & Hd & Hf).
    destruct (OnLifetimeExpired_live (BeginPlay p) Hs Hd) as (p' & E & Hb & Ht).
    simpl deliverAll. change (LifetimeTimerSet (BeginPlay p))
      with (Some (LifetimeSeconds p)). cbv iota. rewrite E.
    unfold andThen. rewrite (unregistered_inert later p' Hb Ht). simpl.
    change (bDidHitSomething (BeginPlay p)) with (bDidHitSomething p).
    now rewrite Hf.
Qed.

End ProjectileLifecycle.

(** ** Further properties of the aim resolver *)

Module AimLifecycle.
Import FMath AimComponent.

Definition set_AutoUpdateTimer (t : R) (c : UAC_AimComponent) : UAC_AimComponent :=
  mkAim (Cfg c) (CachedAimData c) (PreviousTargetActor c)
    (PreviousAimLocation c) (bAimIsBlocked c) t.

(** [UAC_AimComponent::TickComponent]. *)
Definition TickComponent (DeltaTime : R) (e : Env) (c : UAC_AimComponent)
  : (UAC_AimComponent * list Event)%type :=
  if bAutoUpdateOnTick (Cfg c) then
    let c1 := set_AutoUpdateTimer (AutoUpdateTimer c + DeltaTime) c in
    if Rle_dec (AutoUpdateInterval (Cfg c1)) (AutoUpdateTimer c1) then
      fst (RequestAimUpdate e (set_AutoUpdateTimer 0 c1))
    else (c1, [])
  else (c, []).

(** [UAC_AimComponent::BroadcastCurrentState]. *)
Definition BroadcastCurrentState (c : UAC_AimComponent) : list Event :=
  [OnAimTargetChanged (HitActor (CachedAimData c)) (TraceResult (CachedAimData c));
   OnAimLocationUpdated (AimLocation (CachedAimData c))
     (AimDirection (CachedAimData c));
   OnAimBlocked (bAimIsBlocked c)].

(** [UAC_AimComponent::IsAimingAt]. *)
Definition IsAimingAt (c : UAC_AimComponent) (TestActor : option AActor) : bool :=
  match TestActor with
  | None => false
  | Some _ => option_actor_eqb (HitActor (CachedAimData c)) TestActor
  end.

(** The blocked flag a request computes from its snapshot. *)
Definition BlockedBy (c : UAC_AimComponent) (d : FAimTraceData) : bool :=
  bDidHit d && (if Rlt_dec (HitDistance d) (MinAimDistance (Cfg c))
                then true else false).

Lemma RequestAimUpdate_flags (e : Env) (c : UAC_AimComponent) (o : Owner)
    (w : UWorld) :
  GetOwner e = Some o -> GetWorld e = Some w ->
  let r := RequestAimUpdate e c in
  bAimIsBlocked (fst (fst r)) = BlockedBy c (PerformAimTrace (Cfg c) e)
  /\ AutoUpdateTimer (fst (fst r)) = AutoUpdateTimer c.
Proof.
  intros Ho Hw r. subst r. unfold RequestAimUpdate. rewrite Ho, Hw.
  unfold BroadcastChanges, BlockedBy.
  cbn [PreviousTargetActor Cfg PreviousAimLocation bAimIsBlocked].
  destruct (negb _); cbn [PreviousAimLocation Cfg];
    destruct (Rlt_dec (LocationUpdateThreshold (Cfg c)) _); split; reflexivity.
Qed.

(** X4.  The initial trace primes change detection.  [BeginPlay] publishes
    nothing; with an owner it leaves the remembered target and location
    equal to those of the cached snapshot; and the first request made in the
    same state of the world then publishes neither a target-changed nor a
    location-updated notification (the threshold being non-negative). *)
Theorem BeginPlay_primes_change_detection (e : Env) (c : UAC_AimComponent) :
  0 <= LocationUpdateThreshold (Cfg c) ->
  notifications (snd (fst (RequestAimUpdate e (BeginPlay e c)))) = []
  /\ (GetOwner e <> None ->
      PreviousTargetActor (BeginPlay e c)
        = HitActor (CachedAimData (BeginPlay e c))
      /\ PreviousAimLocation (BeginPlay e c)
         = AimLocation (CachedAimData (BeginPlay e c))
      /\ CachedAimData (BeginPlay e c) = PerformAimTrace (Cfg c) e).
Proof.
  intro Hthr. split.
  - unfold BeginPlay. destruct (GetOwner e) as [o |] eqn:Ho.
    + apply RequestAimUpdate_quiet; cbn [Cfg PreviousTargetActor
        PreviousAimLocation]; [reflexivity |].
      now rewrite Dist_self.
    + rewrite RequestAimUpdate_absent by now left. reflexivity.
  - intro Hne. unfold BeginPlay.
    destruct (GetOwner e); [| now elim Hne]. repeat split.
Qed.

(** X5.  The blocked state follows the snapshot.  After a request made with
    owner and world present the aim is blocked exactly when the trace hit
    something nearer than [MinAimDistance]; a trace that hit nothing always
    leaves the aim unblocked; and an aim-blocked event is published exactly
    when the state differs from the one before the request, carrying the new
    state. *)
Theorem blocked_state_follows_snapshot (e : Env) (c : UAC_AimComponent)
    (o : Owner) (w : UWorld) :
  GetOwner e = Some o -> GetWorld e = Some w ->
  let r := RequestAimUpdate e c in
  let c' := fst (fst r) in
  (bAimIsBlocked c' = true <->
   bDidHit (snd r) = true /\ HitDistance (snd r) < MinAimDistance (Cfg c))
  /\ (bDidHit (snd r) = false -> bAimIsBlocked c' = false)
  /\ (forall b, In (OnAimBlocked b) (snd (fst r)) <->
                b = bAimIsBlocked c' /\ bAimIsBlocked c' <> bAimIsBlocked c).
Proof.
  intros Ho Hw r c'.
  destruct (RequestAimUpdate_present e c o w Ho Hw) as (Hd & Hev & _).
  destruct (RequestAimUpdate_flags e c o w Ho Hw) as (Hb & _).
  fold r in Hd, Hev, Hb. fold c' in Hb. rewrite Hd, Hb, Hev.
  set (d := PerformAimTrace (Cfg c) e).
  split; [| split].
  - unfold BlockedBy. destruct (bDidHit d); simpl.
    + destruct (Rlt_dec _ _); split; intro H; try discriminate;
        try (now split); destruct H; try reflexivity; contradiction.
    + split; [discriminate | intros [H _]; discriminate].
  - unfold BlockedBy. now intros ->.
  - intro b. unfold blockedPart, targetPart, locationPart. fold (BlockedBy c d).
    destruct (bAimIsBlocked c) eqn:Eo; destruct (BlockedBy c d) eqn:En;
      destruct (option_actor_eqb _ _); destruct (Rlt_dec _ _); simpl;
      split; intro H;
      repeat match goal with
             | H : _ \/ _ |- _ => destruct H
             | H : _ /\ _ |- _ => destruct H
             | H : False |- _ => destruct H
             | H : OnAimBlocked _ = OnAimBlocked _ |- _ => inversion H; clear H
             end;
      try discriminate; try congruence; try (split; congruence);
      try (left; congruence).
Qed.

Lemma RequestAimUpdate_timer (e : Env) (c : UAC_AimComponent) :
  AutoUpdateTimer (fst (fst (RequestAimUpdate e c))) = AutoUpdateTimer c.
Proof.
  destruct (GetOwner e) as [o |] eqn:Ho;
    [destruct (GetWorld e) as [w |] eqn:Hw |].
  - apply (RequestAimUpdate_flags e c o w Ho Hw).
  - now rewrite RequestAimUpdate_absent by now right.
  - now rewrite RequestAimUpdate_absent by now left.
Qed.

(** X6.  Periodic refresh.  With auto-update off a tick changes nothing and
    publishes nothing.  With it on, the tick adds the elapsed time to the
    accumulator; while the sum stays below the interval nothing else
    happens; once it reaches the interval the accumulator restarts from zero
    (the excess is dropped) and exactly one aim request is made, whatever
    the length of the tick.  So, for a positive interval, the accumulator is
    below the interval after every tick. *)
Theorem TickComponent_refresh (DeltaTime : R) (e : Env) (c : UAC_AimComponent) :
  (bAutoUpdateOnTick (Cfg c) = false -> TickComponent DeltaTime e c = (c, []))
  /\ (bAutoUpdateOnTick (Cfg c) = true ->
      (AutoUpdateTimer c + DeltaTime < AutoUpdateInterval (Cfg c) ->
       TickComponent DeltaTime e c
       = (set_AutoUpdateTimer (AutoUpdateTimer c + DeltaTime) c, []))
      /\ (AutoUpdateInterval (Cfg c) <= AutoUpdateTimer c + DeltaTime ->
          TickComponent DeltaTime e c
          = fst (RequestAimUpdate e (set_AutoUpdateTimer 0 c))
          /\ AutoUpdateTimer (fst (TickComponent DeltaTime e c)) = 0)
      /\ (0 < AutoUpdateInterval (Cfg c) ->
          AutoUpdateTimer (fst (TickComponent DeltaTime e c))
          < AutoUpdateInterval (Cfg c))).
Proof.
  unfold TickComponent. split.
  - now intros ->.
  - intros ->. cbn [Cfg set_AutoUpdateTimer AutoUpdateTimer].
    assert (Hreq : AutoUpdateTimer
                     (fst (fst (RequestAimUpdate e
                                  (set_AutoUpdateTimer 0 c)))) = 0)
      by apply RequestAimUpdate_timer.
    destruct (Rle_dec _ _) as [Hle | Hlt].
    + split; [intro; lra |]. split.
      * intros _. split; [reflexivity | exact Hreq].
      * intro Hpos. cbn [fst]. rewrite RequestAimUpdate_timer. exact Hpos.
    + split; [reflexivity |]. split.
      * intro; lra.
      * intros _. cbn [fst set_AutoUpdateTimer AutoUpdateTimer]. lra.
Qed.

(** X7.  [IsAimingAt] after a request.  An absent actor is never aimed at;
    after a request whose trace hit actor [a], [a] is aimed at and no other
    actor is; after a request whose trace hit nothing, no actor is. *)
Theorem IsAimingAt_after_request (e : Env) (c : UAC_AimComponent) (o : Owner)
    (w : UWorld) :
  GetOwner e = Some o -> GetWorld e = Some w ->
  let c' := fst (fst (RequestAimUpdate e c)) in
  IsAimingAt c' None = false
  /\ (forall t, IsAimingAt c' (Some t) = true <->
                HitActor (snd (RequestAimUpdate e c)) = Some t)
  /\ (LineTraceSingleByChannel w (fst (TraceSegment (Cfg c) e o))
        (snd (TraceSegment (Cfg c) e o)) (OwnerActor o :: GetAttachedActors o)
      = None ->
      forall t, IsAimingAt c' t = false).
Proof.
  intros Ho Hw c'.
  destruct (RequestAimUpdate_present e c o w Ho Hw) as (Hd & _ & _ & Hcd & _).
  fold c' in Hcd.
  split; [reflexivity |]. split.
  - intro t. unfold IsAimingAt. rewrite Hcd, Hd. apply option_actor_eqb_eq.
  - intros Hmiss [t |]; [| reflexivity].
    unfold IsAimingAt. rewrite Hcd. unfold PerformAimTrace. rewrite Ho, Hw.
    destruct (TraceSegment (Cfg c) e o) as [TraceStart TraceEnd].
    simpl in Hmiss. now rewrite Hmiss.
Qed.

(** X8.  The corrected direction is never degenerate.  With an owner whose
    forward vector has length one, [GetAimDirectionFromLocation] returns a
    vector of length one for every start point and every cached aim
    location, also when the start point is the aim location itself. *)
Theorem GetAimDirectionFromLocation_unit (e : Env) (c : UAC_AimComponent)
    (o : Owner) (p : FVector) :
  GetOwner e = Some o -> Size (GetActorForwardVector o) = 1 ->
  Size (GetAimDirectionFromLocation e c p) = 1
  /\ GetAimDirectionFromLocation e c (AimLocation (CachedAimData c))
     = GetActorForwardVector o.
Proof.
  intros Ho Hf. unfold GetAimDirectionFromLocation. rewrite Ho. split.
  - destruct (IsNearlyZero _) eqn:Hnz; [exact Hf |]. cbn [orb].
    destruct (Rlt_dec _ _); [exact Hf |].
    apply (GetSafeNormal_not_nearly_zero _ Hnz).
  - rewrite GetSafeNormal_small.
    + now rewrite IsNearlyZero_ZeroVector.
    + unfold SizeSquared, vsub; simpl. pose proof SMALL_NUMBER_pos.
      replace (_ + _ + _) with 0 by ring. assumption.
Qed.

(** X9.  A late subscriber is told the snapshot.  After a request made with
    owner and world present, [BroadcastCurrentState] publishes exactly three
    events, in this order: the target and classification of the returned
    snapshot (also when there is no target), its location and direction, and
    the blocked state the request computed. *)
Theorem BroadcastCurrentState_after_request (e : Env) (c : UAC_AimComponent)
    (o : Owner) (w : UWorld) :
  GetOwner e = Some o -> GetWorld e = Some w ->
  let r := RequestAimUpdate e c in
  BroadcastCurrentState (fst (fst r))
  = [OnAimTargetChanged (HitActor (snd r)) (TraceResult (snd r));
     OnAimLocationUpdated (AimLocation (snd r)) (AimDirection (snd r));
     OnAimBlocked (BlockedBy c (snd r))].
Proof.
  intros Ho Hw r.
  destruct (RequestAimUpdate_present e c o w Ho Hw) as (Hd & _ & _ & Hcd & _).
  destruct (RequestAimUpdate_flags e c o w Ho Hw) as (Hb & _).
  fold r in Hd, Hcd, Hb. unfold BroadcastCurrentState.
  now rewrite Hcd, Hb, Hd.
Qed.

End AimLifecycle.

(** ** Further properties of the fire controller *)

Module CombatLifecycle.
Import FMath CombatComponent.

(** The cooldown test shared by [SpawnProjectileInternal], [CanFire] and
    [CanFireType]: [CurrentTime - LastFireTime < FireCooldown]. *)
Definition OnCooldownAt (w : UWorld) (c : UAC_CombatComponent) : bool :=
  if Rlt_dec (GetTimeSeconds w - LastFireTime c) (FireCooldown c)
  then true else false.

(** [UAC_CombatComponent::CanFire]. *)
Definition CanFire (e : Env) (c : UAC_CombatComponent) : bool :=
  match GetWorld e with
  | None => false
  | Some w =>
    if OnCooldownAt w c then false
    else if AimGateClosed c then false
    else match DefaultProjectileClass c with
         | None => false
         | Some _ => true
         end
  end.

(** [UAC_CombatComponent::CanFireType]. *)
Definition CanFireType (e : Env) (TypeName : FName) (c : UAC_CombatComponent)
  : bool :=
  match GetWorld e with
  | None => false
  | Some w =>
    if OnCooldownAt w c then false
    else if AimGateClosed c then false
    else match ProjectileClassMap c !! ComparisonIndex TypeName with
         | Some (Some _) => true
         | _ => false
         end
  end.

(** [UAC_CombatComponent::GetCooldownProgress]. *)
Definition GetCooldownProgress (e : Env) (c : UAC_CombatComponent) : R :=
  if Rle_dec (FireCooldown c) 0 then 1
  else 1 - GetCooldownRemaining e c / FireCooldown c.

Definition set_bWasOnCooldown (b : bool) (c : UAC_CombatComponent)
  : UAC_CombatComponent :=
  mkCombat (MuzzleSocketName c) (MuzzleOffset c) (FireCooldown c)
    (bRespectAimBlocked c) (DefaultProjectileClass c) (ProjectileClassMap c)
    (MuzzlePointComponent c) (AimComponent c) (LastFireTime c) b.

(** [UAC_CombatComponent::TickComponent]. *)
Definition TickComponent (e : Env) (c : UAC_CombatComponent)
  : (UAC_CombatComponent * list Event)%type :=
  let bIsOnCooldown :=
    if Rlt_dec 0 (GetCooldownRemaining e c) then true else false in
  if Bool.eqb bIsOnCooldown (bWasOnCooldown c) then (c, [])
  else (set_bWasOnCooldown bIsOnCooldown c,
        [OnCooldownStateChanged bIsOnCooldown (GetCooldownRemaining e c)]).

(** [UAC_CombatComponent::SetProjectileClassForType]: [ProjectileClassMap.Add]
    writes the entry of the name's comparison index. *)
Definition SetProjectileClassForType (TypeName : FName) (InClass : option UClass)
    (c : UAC_CombatComponent) : UAC_CombatComponent :=
  mkCombat (MuzzleSocketName c) (MuzzleOffset c) (FireCooldown c)
    (bRespectAimBlocked c) (DefaultProjectileClass c)
    (<[ComparisonIndex TypeName := InClass]> (ProjectileClassMap c))
    (MuzzlePointComponent c) (AimComponent c) (LastFireTime c)
    (bWasOnCooldown c).

(** The player's side of firing ([ABasePlayer], BasePlayer.cpp). *)
Record ABasePlayer : Type := mkPlayer {
  PlayerCombatComponent : option UAC_CombatComponent;
  EquippedSpellType     : FName
}.

(** [ABasePlayer::HandleFireInput]: the player afterwards and the events
    its combat component published. *)
Definition HandleFireInput (e : Env) (pl : ABasePlayer)
  : (ABasePlayer * list Event)%type :=
  match PlayerCombatComponent pl with
  | None => (pl, [])
  | Some c =>
    if FName_eqb (EquippedSpellType pl) NAME_None then (pl, [])
    else if negb (CanFireType e (EquippedSpellType pl) c) then (pl, [])
    else
      let '(c', _, evs) := FireProjectileByType e (EquippedSpellType pl) c in
      (mkPlayer (Some c') (EquippedSpellType pl), evs)
  end.

(** *** Readiness queries and the dispatch agree *)

Lemma SpawnProjectileInternal_ready (e : Env) (w : UWorld) (k : UClass)
    (TypeName : FName) (c : UAC_CombatComponent) :
  GetWorld e = Some w -> OnCooldownAt w c = false -> AimGateClosed c = false ->
  let r := SpawnProjectileInternal e (Some k) TypeName c in
  (exists p, snd (fst r) = Some p /\ List.filter isFireBlocked (snd r) = [])
  \/ (snd (fst r) = None
      /\ List.filter isFireBlocked (snd r)
         = [OnFireBlocked EFireBlockedReason.SpawnFailed TypeName]).
Proof.
  intros Hw Hcd Hgate. unfold SpawnProjectileInternal, BroadcastFireBlocked.
  rewrite Hw. destruct (GetOwner e) as [o |]; [| right; now split].
  unfold OnCooldownAt in Hcd.
  destruct (Rlt_dec _ _); [discriminate |]. rewrite Hgate.
  pose proof (ResolveFireDirection_events e o (CalculateMuzzleLocation e c) c
                isFireBlocked (fun _ => eq_refl)) as Hb.
  destruct (ResolveFireDirection e o _ c) as [[dir aim'] aimEvents].
  cbn [snd] in Hb.
  destruct (SpawnActor w k _ dir _) as [spawned |].
  - left. eexists. cbn [fst snd]. split; [reflexivity |].
    now rewrite List.filter_app, Hb.
  - right. cbn [fst snd]. split; [reflexivity |].
    now rewrite List.filter_app, Hb.
Qed.

Lemma SpawnProjectileInternal_not_ready (e : Env) (cls : option UClass)
    (TypeName : FName) (c : UAC_CombatComponent) :
  (forall w, GetWorld e = Some w ->
             OnCooldownAt w c = true \/ AimGateClosed c = true \/ cls = None) ->
  exists reason,
    SpawnProjectileInternal e cls TypeName c
    = (c, None, [OnFireBlocked reason TypeName]).
Proof.
  intro H. unfold SpawnProjectileInternal, BroadcastFireBlocked.
  destruct (GetWorld e) as [w |]; [| eexists; reflexivity].
  destruct (GetOwner e) as [o |]; [| eexists; reflexivity].
  destruct cls as [k |]; [| eexists; reflexivity].
  specialize (H w eq_refl). unfold OnCooldownAt in H.
  destruct (Rlt_dec _ _); [eexists; reflexivity |].
  destruct (AimGateClosed c); [eexists; reflexivity |].
  destruct H as [H | [H | H]]; discriminate.
Qed.

Lemma FireProjectileByType_ready (e : Env) (n : FName)
    (c : UAC_CombatComponent) :
  CanFireType e n c = true ->
  let r := FireProjectileByType e n c in
  (exists p, snd (fst r) = Some p
             /\ List.filter isFireBlocked (snd r) = [])
  \/ (snd (fst r) = None
      /\ List.filter isFireBlocked (snd r)
         = [OnFireBlocked EFireBlockedReason.SpawnFailed n]).
Proof.
  unfold CanFireType, FireProjectileByType. intro Hyes.
  destruct (GetWorld e) as [w |] eqn:Hw; [| discriminate].
  destruct (OnCooldownAt w c) eqn:Hcd; [discriminate |].
  destruct (AimGateClosed c) eqn:Hg; [discriminate |].
  destruct (ProjectileClassMap c !! ComparisonIndex n) as [[k |] |];
    try discriminate.
  now apply (SpawnProjectileInternal_ready e w).
Qed.

(** X10.  The readiness queries predict the dispatch.  When [CanFireType]
    answers no, [FireProjectileByType] returns no projectile and leaves the
    component unchanged; when it answers yes, the dispatch either returns a
    projectile, publishing no fire-blocked event, or is rejected for
    SpawnFailed, never for cooldown, kind or blocked aim.  The same holds of [CanFire] and [FireProjectile]. *)
Theorem readiness_predicts_dispatch (e : Env) (c : UAC_CombatComponent) :
  (forall n,
     (CanFireType e n c = false ->
      exists reason,
        FireProjectileByType e n c = (c, None, [OnFireBlocked reason n]))
     /\ (CanFireType e n c = true ->
         let r := FireProjectileByType e n c in
         (exists p, snd (fst r) = Some p
                    /\ List.filter isFireBlocked (snd r) = [])
         \/ (snd (fst r) = None
             /\ List.filter isFireBlocked (snd r)
                = [OnFireBlocked EFireBlockedReason.SpawnFailed n])))
  /\ (CanFire e c = false ->
      exists reason,
        FireProjectile e c = (c, None, [OnFireBlocked reason NAME_None]))
  /\ (CanFire e c = true ->
      let r := FireProjectile e c in
      (exists p, snd (fst r) = Some p
                 /\ List.filter isFireBlocked (snd r) = [])
      \/ (snd (fst r) = None
          /\ List.filter isFireBlocked (snd r)
             = [OnFireBlocked EFireBlockedReason.SpawnFailed NAME_None])).
Proof.
  split; [| split].
  - intro n. unfold CanFireType, FireProjectileByType. split.
    + intro Hno.
      destruct (ProjectileClassMap c !! ComparisonIndex n) as [[k |] |];
        try (eexists; reflexivity).
      apply SpawnProjectileInternal_not_ready. intros w Hw. rewrite Hw in Hno.
      destruct (OnCooldownAt w c); [now left |].
      destruct (AimGateClosed c); [right; now left | discriminate].
    + intro Hyes. fold (FireProjectileByType e n c).
      apply FireProjectileByType_ready. exact Hyes.
  - intro Hno. unfold CanFire in Hno. unfold FireProjectile, FireProjectileClass.
    apply SpawnProjectileInternal_not_ready. intros w Hw. rewrite Hw in Hno.
    destruct (OnCooldownAt w c); [now left |].
    destruct (AimGateClosed c); [right; now left |].
    destruct (DefaultProjectileClass c); [discriminate | right; now right].
  - intro Hyes. unfold CanFire in Hyes.
    unfold FireProjectile, FireProjectileClass.
    destruct (GetWorld e) as [w |] eqn:Hw; [| discriminate].
    destruct (OnCooldownAt w c) eqn:Hcd; [discriminate |].
    destruct (AimGateClosed c) eqn:Hg; [discriminate |].
    destruct (DefaultProjectileClass c) as [k |]; [| discriminate].
    now apply (SpawnProjectileInternal_ready e w).
Qed.

(** X11.  Fire input is silent unless it can fire.  [HandleFireInput] does
    nothing at all without a combat component, with no spell equipped (the
    equipped name equals [NAME_None]), or when [CanFireType] says no: in
    particular, pressing fire during the cooldown publishes no fire-blocked
    event and leaves the player unchanged.  Otherwise it is one
    [FireProjectileByType] of the equipped spell on the combat component.
    The equipped spell is never changed, and the only fire-blocked event it
    can ever publish has the reason SpawnFailed. *)
Theorem HandleFireInput_silent (e : Env) (pl : ABasePlayer) :
  (PlayerCombatComponent pl = None -> HandleFireInput e pl = (pl, []))
  /\ (FName_eqb (EquippedSpellType pl) NAME_None = true ->
      HandleFireInput e pl = (pl, []))
  /\ (forall c,
        PlayerCombatComponent pl = Some c ->
        CanFireType e (EquippedSpellType pl) c = false ->
        HandleFireInput e pl = (pl, []))
  /\ (forall c w,
        PlayerCombatComponent pl = Some c -> GetWorld e = Some w ->
        GetTimeSeconds w - LastFireTime c < FireCooldown c ->
        HandleFireInput e pl = (pl, []))
  /\ (forall c,
        PlayerCombatComponent pl = Some c ->
        FName_eqb (EquippedSpellType pl) NAME_None = false ->
        CanFireType e (EquippedSpellType pl) c = true ->
        let r := FireProjectileByType e (EquippedSpellType pl) c in
        HandleFireInput e pl
        = (mkPlayer (Some (fst (fst r))) (EquippedSpellType pl), snd r))
  /\ EquippedSpellType (fst (HandleFireInput e pl)) = EquippedSpellType pl
  /\ (forall reason n,
        In (OnFireBlocked reason n) (snd (HandleFireInput e pl)) ->
        reason = EFireBlockedReason.SpawnFailed /\ n = EquippedSpellType pl).
Proof.
  assert (Hno : forall c,
            PlayerCombatComponent pl = Some c ->
            CanFireType e (EquippedSpellType pl) c = false ->
            HandleFireInput e pl = (pl, [])).
  { intros c Hc Hcan. unfold HandleFireInput. rewrite Hc, Hcan.
    now destruct (FName_eqb _ _). }
  split; [| split; [| split; [| split; [| split; [| split]]]]].
  - intro Hc. unfold HandleFireInput. now rewrite Hc.
  - intro Hn. unfold HandleFireInput. rewrite Hn.
    now destruct (PlayerCombatComponent pl).
  - exact Hno.
  - intros c w Hc Hw Hcd. apply (Hno c Hc).
    unfold CanFireType, OnCooldownAt. rewrite Hw.
    destruct (Rlt_dec _ _); [reflexivity | contradiction].
  - intros c Hc Hn Hcan r. subst r. unfold HandleFireInput.
    rewrite Hc, Hn, Hcan. cbn [negb].
    now destruct (FireProjectileByType e (EquippedSpellType pl) c) as [[c' res] evs].
  - unfold HandleFireInput.
    destruct (PlayerCombatComponent pl) as [c |]; [| reflexivity].
    destruct (FName_eqb _ _); [reflexivity |].
    destruct (negb _); [reflexivity |].
    now destruct (FireProjectileByType e (EquippedSpellType pl) c) as [[c' res] evs].
  - intros reason n. unfold HandleFireInput.
    destruct (PlayerCombatComponent pl) as [c |]; [| intros []].
    destruct (FName_eqb _ _); [intros [] |].
    destruct (CanFireType e (EquippedSpellType pl) c) eqn:Hcan; [| intros []].
    cbn [negb].
    pose proof (FireProjectileByType_ready e (EquippedSpellType pl) c Hcan)
      as Hyes.
    destruct (FireProjectileByType e (EquippedSpellType pl) c)
      as [[c' res] evs] eqn:E.
    cbn [fst snd] in *. intro Hin.
    assert (Hin' : In (OnFireBlocked reason n) (List.filter isFireBlocked evs))
      by (apply List.filter_In; now split).
    destruct Hyes as [(p & _ & Hnb) | (_ & Hf)].
    + rewrite Hnb in Hin'. destruct Hin'.
    + rewrite Hf in Hin'. destruct Hin' as [Heq | []]. now inversion Heq.
Qed.

(** *** The cooldown read-outs *)

Lemma GetCooldownRemaining_present (e : Env) (w : UWorld)
    (c : UAC_CombatComponent) :
  GetWorld e = Some w ->
  GetCooldownRemaining e c
  = Rmax 0 (FireCooldown c - (GetTimeSeconds w - LastFireTime c)).
Proof. intro Hw. unfold GetCooldownRemaining. now rewrite Hw. Qed.

(** X12.  The cooldown read-outs.  The remaining time is never negative and
    is zero without a world; with a world it is positive exactly when the
    dispatch's cooldown test is on, and it then equals the cooldown minus
    the time elapsed since the last fire.  The progress is 1 for a
    non-positive cooldown; otherwise it is 1 exactly when nothing remains
    and, the clock not being behind the last fire, it lies between 0 and
    1. *)
Theorem cooldown_readouts (e : Env) (c : UAC_CombatComponent) :
  0 <= GetCooldownRemaining e c
  /\ (GetWorld e = None -> GetCooldownRemaining e c = 0)
  /\ (forall w, GetWorld e = Some w ->
        (0 < GetCooldownRemaining e c <-> OnCooldownAt w c = true)
        /\ (OnCooldownAt w c = true ->
            GetCooldownRemaining e c
            = FireCooldown c - (GetTimeSeconds w - LastFireTime c)))
  /\ (FireCooldown c <= 0 -> GetCooldownProgress e c = 1)
  /\ (0 < FireCooldown c ->
      (GetCooldownProgress e c = 1 <-> GetCooldownRemaining e c = 0)
      /\ GetCooldownProgress e c <= 1
      /\ (forall w, GetWorld e = Some w -> LastFireTime c <= GetTimeSeconds w ->
                    0 <= GetCooldownProgress e c)).
Proof.
  assert (Hnn : 0 <= GetCooldownRemaining e c).
  { unfold GetCooldownRemaining. destruct (GetWorld e); [apply Rmax_l | lra]. }
  split; [exact Hnn |]. split; [| split; [| split]].
  - intro Hw. unfold GetCooldownRemaining. now rewrite Hw.
  - intros w Hw. rewrite (GetCooldownRemaining_present e w c Hw).
    unfold OnCooldownAt, Rmax.
    destruct (Rlt_dec _ _) as [Hlt | Hge];
      destruct (Rle_dec 0 _) as [Hle | Hnle]; split;
      try (split; intro H; try reflexivity; try discriminate; lra);
      try (intro; lra); try reflexivity; try discriminate.
  - intro Hc. unfold GetCooldownProgress.
    destruct (Rle_dec _ _); [reflexivity | lra].
  - intro Hc. unfold GetCooldownProgress.
    destruct (Rle_dec (FireCooldown c) 0) as [Hle | _]; [lra |].
    set (rem := GetCooldownRemaining e c) in *.
    assert (Hdiv : 0 <= rem / FireCooldown c).
    { apply Rmult_le_pos; [exact Hnn |]. left. now apply Rinv_0_lt_compat. }
    split; [| split].
    + split; intro H.
      * assert (Hz : rem / FireCooldown c = 0) by lra.
        unfold Rdiv in Hz. apply Rmult_integral in Hz.
        destruct Hz as [Hz | Hz]; [exact Hz |].
        pose proof (Rinv_0_lt_compat _ Hc). lra.
      * rewrite H. unfold Rdiv. rewrite Rmult_0_l. lra.
    + lra.
    + intros w Hw Ht. subst rem.
      rewrite (GetCooldownRemaining_present e w c Hw).
      assert (Hle1 : Rmax 0 (FireCooldown c - (GetTimeSeconds w - LastFireTime c))
                     <= FireCooldown c)
        by (apply Rmax_lub; lra).
      assert (Hq : Rmax 0 (FireCooldown c - (GetTimeSeconds w - LastFireTime c))
                   / FireCooldown c <= 1).
      { apply (Rmult_le_reg_r (FireCooldown c)); [exact Hc |].
        unfold Rdiv. rewrite Rmult_assoc, Rinv_l by lra. lra. }
      lra.
Qed.

(** X13.  Cooldown state notifications.  A tick publishes a cooldown-state
    event exactly when the state (time remaining or not) differs from the
    one last published, and then records it, so that a second tick at the
    same moment publishes nothing.  After a fire the recorded state is "on
    cooldown": ticks before the cooldown has elapsed publish nothing, and
    the first tick once it has elapsed publishes "off cooldown" with zero
    time remaining. *)
Theorem TickComponent_notifies_changes (e : Env) (c : UAC_CombatComponent) :
  (snd (TickComponent e c) = [] <->
   ((0 < GetCooldownRemaining e c) <-> bWasOnCooldown c = true))
  /\ (bWasOnCooldown (fst (TickComponent e c)) = true <->
      0 < GetCooldownRemaining e c)
  /\ TickComponent e (fst (TickComponent e c)) = (fst (TickComponent e c), [])
  /\ (forall w, GetWorld e = Some w -> bWasOnCooldown c = true ->
        (GetTimeSeconds w < LastFireTime c + FireCooldown c ->
         TickComponent e c = (c, []))
        /\ (LastFireTime c + FireCooldown c <= GetTimeSeconds w ->
            TickComponent e c
            = (set_bWasOnCooldown false c, [OnCooldownStateChanged false 0]))).
Proof.
  assert (Hsame : forall b, GetCooldownRemaining e (set_bWasOnCooldown b c)
                            = GetCooldownRemaining e c) by reflexivity.
  split; [| split; [| split]].
  - unfold TickComponent.
    destruct (Rlt_dec 0 _) as [Hp | Hn]; destruct (bWasOnCooldown c); simpl.
    + split; [intros _; split; auto | reflexivity].
    + split; [discriminate | intros [H _]; discriminate (H Hp)].
    + split; [discriminate | intros [_ H]; elim Hn; now apply H].
    + split; [intros _; split; [contradiction | discriminate] | reflexivity].
  - unfold TickComponent.
    destruct (Rlt_dec 0 _) as [Hp | Hn]; destruct (bWasOnCooldown c) eqn:Eb;
      simpl; rewrite ?Eb; split; intro H; try reflexivity; try assumption;
      try discriminate; try contradiction.
  - unfold TickComponent at 1.
    assert (Hflag : bWasOnCooldown (fst (TickComponent e c))
                    = if Rlt_dec 0 (GetCooldownRemaining e c) then true else false).
    { unfold TickComponent.
      destruct (Rlt_dec 0 _); destruct (bWasOnCooldown c) eqn:Eb; simpl;
        rewrite ?Eb; reflexivity. }
    assert (Hrem : GetCooldownRemaining e (fst (TickComponent e c))
                   = GetCooldownRemaining e c).
    { unfold TickComponent. destruct (Bool.eqb _ _); reflexivity. }
    rewrite Hrem, Hflag.
    destruct (Rlt_dec 0 _); reflexivity.
  - intros w Hw Hb. unfold TickComponent.
    rewrite (GetCooldownRemaining_present e w c Hw), Hb. unfold Rmax. split.
    + intro Ht. destruct (Rle_dec 0 _) as [_ | Hn]; [| lra].
      destruct (Rlt_dec 0 _) as [_ | Hn]; [reflexivity | lra].
    + intro Ht. destruct (Rle_dec 0 _) as [Hle | Hn].
      * assert (Hz : FireCooldown c - (GetTimeSeconds w - LastFireTime c) = 0)
          by lra.
        rewrite Hz. destruct (Rlt_dec 0 0); [lra | reflexivity].
      * destruct (Rlt_dec 0 0); [lra | reflexivity].
Qed.

(** *** Registering projectile kinds *)

(** X14.  Registering a kind and firing it.  Names are compared without
    regard to case.  After [SetProjectileClassForType n cls], the name [n]
    and every name equal to it resolve to [cls] (a second registration
    under an equal name replaces the first), every name not equal to [n]
    and the default kind resolve as before, and cooldown, aim gate and last
    fire time are untouched.  Registering the null class makes the name
    unfireable: [FireProjectileByType] of an equal name is then rejected
    with NoProjectileClass, whatever the cooldown, as it is for a name never
    registered. *)
Theorem SetProjectileClassForType_lookup (n : FName) (cls : option UClass)
    (c : UAC_CombatComponent) :
  let c' := SetProjectileClassForType n cls c in
  (forall m, FName_eqb m n = true -> ResolvedClass (ByType m) c' = cls)
  /\ (forall m cls2,
        FName_eqb m n = true ->
        SetProjectileClassForType m cls2 c'
        = SetProjectileClassForType n cls2 c)
  /\ (forall m, FName_eqb m n = false ->
                ResolvedClass (ByType m) c' = ResolvedClass (ByType m) c)
  /\ ResolvedClass ByDefault c' = ResolvedClass ByDefault c
  /\ (forall e, CanFire e c' = CanFire e c)
  /\ (forall e m,
        FName_eqb m n = true ->
        FireProjectileByType e m (SetProjectileClassForType n None c)
        = (SetProjectileClassForType n None c, None,
           [OnFireBlocked EFireBlockedReason.NoProjectileClass m]))
  /\ (forall e m,
        ProjectileClassMap c !! ComparisonIndex m = None ->
        FireProjectileByType e m c
        = (c, None, [OnFireBlocked EFireBlockedReason.NoProjectileClass m])).
Proof.
  intro c'. subst c'.
  split; [| split; [| split; [| split; [| split; [| split]]]]].
  - intros m Hm. apply FName_eqb_eq in Hm.
    unfold ResolvedClass, SetProjectileClassForType.
    cbn [ProjectileClassMap]. rewrite Hm, lookup_insert_eq. now destruct cls.
  - intros m cls2 Hm. apply FName_eqb_eq in Hm.
    unfold SetProjectileClassForType. cbn. now rewrite Hm, insert_insert_eq.
  - intros m Hm. apply FName_eqb_neq in Hm.
    unfold ResolvedClass, SetProjectileClassForType.
    cbn [ProjectileClassMap]. rewrite lookup_insert_ne by congruence.
    reflexivity.
  - reflexivity.
  - reflexivity.
  - intros e m Hm. apply FName_eqb_eq in Hm.
    unfold FireProjectileByType, SetProjectileClassForType.
    cbn [ProjectileClassMap]. now rewrite Hm, lookup_insert_eq.
  - intros e m Hm. unfold FireProjectileByType. now rewrite Hm.
Qed.

(** Registering "Flame" changes what "flame" resolves to, and leaves
    "Frost" alone. *)
Example registering_ignores_case :
  let c := SetProjectileClassForType "Flame" (Some 3%nat) Constructed in
  ResolvedClass (ByType "flame") c = Some 3%nat
  /\ ResolvedClass (ByType "FLAME") c = Some 3%nat
  /\ ResolvedClass (ByType "Frost") c = None.
Proof. repeat split; reflexivity. Qed.

(** *** The muzzle location *)

(** X15.  Where the projectile leaves.  The muzzle location is the zero
    vector without an owner; the muzzle socket's location whenever the owner
    is a character whose mesh has that socket, whether or not the muzzle
    point component exists; otherwise the muzzle point component's location
    when it exists; otherwise the owner's location plus an offset that is
    [MuzzleOffset] read in the owner's frame: its X along the owner's
    forward vector, its Y along the owner's right vector and its Z along the
    world's up vector.  For an upright owner (forward and right vectors
    horizontal, of length one and orthogonal) the offset therefore measures
    [MuzzleOffset.X] along the forward vector, [MuzzleOffset.Y] along the
    right vector and [MuzzleOffset.Z] upwards, and is as long as
    [MuzzleOffset]; for an owner facing +X with right vector +Y the muzzle
    is the owner's location plus [MuzzleOffset]. *)
Theorem CalculateMuzzleLocation_priority (e : Env) (c : UAC_CombatComponent) :
  (GetOwner e = None -> CalculateMuzzleLocation e c = ZeroVector)
  /\ (forall o Mesh l,
        GetOwner e = Some o -> AsCharacter o = Some (Some Mesh) ->
        Mesh (MuzzleSocketName c) = Some l ->
        CalculateMuzzleLocation e c = l)
  /\ (forall o,
        GetOwner e = Some o ->
        (AsCharacter o = None \/ AsCharacter o = Some None
         \/ exists Mesh, AsCharacter o = Some (Some Mesh)
                         /\ Mesh (MuzzleSocketName c) = None) ->
        (MuzzlePointComponent c = true ->
         CalculateMuzzleLocation e c = MuzzlePointLocation o)
        /\ (MuzzlePointComponent c = false ->
            let Fwd := GetActorForwardVector o in
            let Right := GetActorRightVector o in
            let Offset := vsub (CalculateMuzzleLocation e c) (GetActorLocation o) in
            Offset
            = vadd (vadd (vscale Fwd (X (MuzzleOffset c)))
                      (vscale Right (Y (MuzzleOffset c))))
                (vscale UpVector (Z (MuzzleOffset c)))
            /\ (Z Fwd = 0 -> Z Right = 0 ->
                SizeSquared Fwd = 1 -> SizeSquared Right = 1 ->
                DotProduct Fwd Right = 0 ->
                DotProduct Offset Fwd = X (MuzzleOffset c)
                /\ DotProduct Offset Right = Y (MuzzleOffset c)
                /\ DotProduct Offset UpVector = Z (MuzzleOffset c)
                /\ SizeSquared Offset = SizeSquared (MuzzleOffset c))
            /\ (Fwd = ForwardVector -> Right = mkFVector 0 1 0 ->
                CalculateMuzzleLocation e c
                = vadd (GetActorLocation o) (MuzzleOffset c)))).
Proof.
  unfold CalculateMuzzleLocation. split; [| split].
  - now intros ->.
  - intros o Mesh l -> -> ->. reflexivity.
  - intros o -> Hno.
    assert (Hs : match AsCharacter o with
                 | Some (Some Mesh) => Mesh (MuzzleSocketName c)
                 | _ => None
                 end = None).
    { destruct Hno as [-> | [-> | (Mesh & -> & ->)]]; reflexivity. }
    rewrite Hs. split.
    + now intros ->.
    + intros ->. cbv zeta.
      set (Fwd := GetActorForwardVector o). set (Right := GetActorRightVector o).
      set (Muzzle := vadd _ (vscale UpVector _)).
      assert (EO : vsub Muzzle (GetActorLocation o)
                   = vadd (vadd (vscale Fwd (X (MuzzleOffset c)))
                             (vscale Right (Y (MuzzleOffset c))))
                       (vscale UpVector (Z (MuzzleOffset c)))).
      { subst Muzzle. apply FVector_eq; simpl; ring. }
      rewrite EO. split; [reflexivity | split].
      * intros HzF HzR HF HR HFR. clear EO Muzzle.
        destruct (MuzzleOffset c) as [ox oy oz].
        destruct Fwd as [fx fy fz], Right as [rx ry rz].
        unfold SizeSquared, DotProduct in *. simpl in *. subst fz rz.
        split; [| split; [| split]].
        -- transitivity (ox * (fx * fx + fy * fy + 0 * 0)
                         + oy * (fx * rx + fy * ry + 0 * 0)); [ring |].
           rewrite HF, HFR. ring.
        -- transitivity (ox * (fx * rx + fy * ry + 0 * 0)
                         + oy * (rx * rx + ry * ry + 0 * 0)); [ring |].
           rewrite HR, HFR. ring.
        -- ring.
        -- transitivity (ox * ox * (fx * fx + fy * fy + 0 * 0)
                         + oy * oy * (rx * rx + ry * ry + 0 * 0)
                         + 2 * ox * oy * (fx * rx + fy * ry + 0 * 0)
                         + oz * oz); [ring |].
           rewrite HF, HR, HFR. ring.
      * intros HF HR. subst Muzzle. rewrite HF, HR.
        apply FVector_eq; simpl; ring.
Qed.

(** *** What a rejection leaves behind *)

Ltac early_rejection :=
  let H := fresh "H" in
  intro H; inversion H; subst;
  split; [reflexivity | split; [reflexivity |]];
  let Heq := fresh "Heq" in
  let Hne := fresh "Hne" in
  intros ? ? [Heq | []] Hne; inversion Heq; subst;
  try (now elim Hne); split; reflexivity.

Lemma SpawnProjectileInternal_rejected (e : Env) (cls : option UClass)
    (TypeName : FName) (c c' : UAC_CombatComponent) (evs : list Event) :
  SpawnProjectileInternal e cls TypeName c = (c', None, evs) ->
  LastFireTime c' = LastFireTime c
  /\ bWasOnCooldown c' = bWasOnCooldown c
  /\ (forall reason n,
        In (OnFireBlocked reason n) evs ->
        reason <> EFireBlockedReason.SpawnFailed ->
        c' = c /\ evs = [OnFireBlocked reason n]).
Proof.
  unfold SpawnProjectileInternal, BroadcastFireBlocked.
  destruct (GetWorld e) as [w |].
  2: now early_rejection.
  destruct (GetOwner e) as [o |].
  2: now early_rejection.
  destruct cls as [k |].
  2: now early_rejection.
  destruct (Rlt_dec _ _) as [Hlt | Hnlt].
  { now early_rejection. }
  destruct (AimGateClosed c).
  { now early_rejection. }
  pose proof (ResolveFireDirection_events e o (CalculateMuzzleLocation e c) c
                isFireBlocked (fun _ => eq_refl)) as Hb.
  destruct (ResolveFireDirection e o _ c) as [[dir aim'] aimEvents].
  cbn [snd] in Hb.
  destruct (SpawnActor w k _ dir _) as [spawned |]; [discriminate |].
  intro H; inversion H; subst.
  split; [reflexivity | split; [reflexivity |]].
  intros reason n Hin Hne. exfalso.
  apply in_app_or in Hin. destruct Hin as [Hin | [Heq | []]].
  - assert (Hin' : In (OnFireBlocked reason n)
                      (List.filter isFireBlocked aimEvents))
      by (apply List.filter_In; now split).
    rewrite Hb in Hin'. destruct Hin'.
  - inversion Heq; subst. now elim Hne.
Qed.

(** X16.  A rejected dispatch costs nothing.  Whatever the entry point, a
    dispatch that returns no projectile never restarts the cooldown; and
    unless the reason is SpawnFailed it leaves the whole component unchanged
    (the aim component included: no aim request is made) and publishes the
    fire-blocked event and nothing else. *)
Theorem rejection_costs_nothing (call : Dispatch) (e : Env)
    (c c' : UAC_CombatComponent) (evs : list Event) :
  dispatch call e c = (c', None, evs) ->
  LastFireTime c' = LastFireTime c
  /\ bWasOnCooldown c' = bWasOnCooldown c
  /\ (forall reason n,
        In (OnFireBlocked reason n) evs ->
        reason <> EFireBlockedReason.SpawnFailed ->
        c' = c /\ evs = [OnFireBlocked reason n]).
Proof.
  destruct call as [| TypeName | cls]; simpl.
  - apply SpawnProjectileInternal_rejected.
  - unfold FireProjectileByType, BroadcastFireBlocked.
    destruct (ProjectileClassMap c !! ComparisonIndex TypeName) as [[k |] |].
    + apply SpawnProjectileInternal_rejected.
    + now early_rejection.
    + now early_rejection.
  - apply SpawnProjectileInternal_rejected.
Qed.

(** *** The projectile a dispatch hands over *)



(** The launch direction the dispatch computes: toward the aim point of a
    fresh aim request, seen from the muzzle, when an aim component is
    attached; the owner's facing otherwise. *)
Definition LaunchDirection (e : Env) (o : Owner) (c : UAC_CombatComponent)
  : FVector :=
  match AimComponent c with
  | Some a =>
    AimComponent.GetAimDirectionFromLocation (AimEnv e)
      (fst (fst (AimComponent.RequestAimUpdate (AimEnv e) a)))
      (CalculateMuzzleLocation e c)
  | None => GetActorForwardVector o
  end.



End CombatLifecycle.

(** ** The damage sink ([UAC_HealthComponent], AC_HealthComponent.cpp) *)

Module HealthComponent.

Record UAC_HealthComponent : Type := mkHealth {
  MaxHealth      : R;
  CurrentHealth  : R;
  OwnerActor     : option AActor;
  bIsInitialized : bool;
  (* whether anything is bound to the two delegates *)
  OnHealthChangedIsBound : bool;
  OnDeathIsBound         : bool;
  (* whether HandleTakeAnyDamage is bound to the owner's OnTakeAnyDamage *)
  BoundToOwner   : bool
}.

(** [UAC_HealthComponent::UAC_HealthComponent]. *)
Definition Constructed (changedBound deathBound : bool) : UAC_HealthComponent :=
  mkHealth 100 0 None false changedBound deathBound false.

Inductive Event : Type :=
| OnHealthChanged (Owner : option AActor) (NewHealth Delta : R)
| OnDeath (Owner : option AActor) (Killer : option AActor).

Definition set_health (mx cur : R) (init : bool) (c : UAC_HealthComponent)
  : UAC_HealthComponent :=
  mkHealth mx cur (OwnerActor c) init (OnHealthChangedIsBound c)
    (OnDeathIsBound c) (BoundToOwner c).

(** [FMath::Clamp(X, Min, Max)], that is [Max(Min(X, Max), Min)]. *)
Definition Clamp (x lo hi : R) : R := Rmax (Rmin x hi) lo.

(** [UAC_HealthComponent::IsAlive]. *)
Definition IsAlive (c : UAC_HealthComponent) : bool :=
  if Rlt_dec 0 (CurrentHealth c) then true else false.

(** [OwnerActor && OnHealthChanged.IsBound()], then the broadcast. *)
Definition BroadcastHealthChanged (c : UAC_HealthComponent) (delta : R)
  : list Event :=
  match OwnerActor c with
  | Some _ =>
    if OnHealthChangedIsBound c
    then [OnHealthChanged (OwnerActor c) (CurrentHealth c) delta] else []
  | None => []
  end.

(** [UAC_HealthComponent::Initialize]. *)
Definition Initialize (InMaxHealth : R) (c : UAC_HealthComponent)
  : (UAC_HealthComponent * list Event)%type :=
  let InMaxHealth' := if Rle_dec InMaxHealth 0 then 100 else InMaxHealth in
  let c1 := set_health InMaxHealth' InMaxHealth' true c in
  (c1, BroadcastHealthChanged c1 0).

(** [UAC_HealthComponent::BeginPlay], for the owner the engine reports. *)
Definition BeginPlay (owner : option AActor) (c : UAC_HealthComponent)
  : (UAC_HealthComponent * list Event)%type :=
  let c1 := mkHealth (MaxHealth c) (CurrentHealth c) owner (bIsInitialized c)
              (OnHealthChangedIsBound c) (OnDeathIsBound c) (BoundToOwner c) in
  match owner with
  | None => (c1, [])
  | Some _ =>
    let c2 := mkHealth (MaxHealth c1) (CurrentHealth c1) (OwnerActor c1)
                (bIsInitialized c1) (OnHealthChangedIsBound c1)
                (OnDeathIsBound c1) true in
    if bIsInitialized c2 then (c2, []) else Initialize (MaxHealth c2) c2
  end.

(** [UAC_HealthComponent::ApplyDamage]: the component afterwards, the
    events, and the returned actual damage. *)
Definition ApplyDamage (DamageAmount : R) (DamageCauser : option AActor)
    (c : UAC_HealthComponent) : (UAC_HealthComponent * list Event * R)%type :=
  if Rle_dec DamageAmount 0 then (c, [], 0)
  else if negb (IsAlive c) then (c, [], 0)
  else
    let OldHealth := CurrentHealth c in
    let c1 := set_health (MaxHealth c)
                (Clamp (CurrentHealth c - DamageAmount) 0 (MaxHealth c))
                (bIsInitialized c) c in
    let ActualDamage := OldHealth - CurrentHealth c1 in
    let ev1 := BroadcastHealthChanged c1 (- ActualDamage) in
    let ev2 :=
      if Rle_dec (CurrentHealth c1) 0 then
        if OnDeathIsBound c1 then [OnDeath (OwnerActor c1) DamageCauser]
        else []
      else [] in
    (c1, ev1 ++ ev2, ActualDamage).

(** [UAC_HealthComponent::Heal]. *)
Definition Heal (HealAmount : R) (c : UAC_HealthComponent)
  : (UAC_HealthComponent * list Event * R)%type :=
  if Rle_dec HealAmount 0 then (c, [], 0)
  else if negb (IsAlive c) then (c, [], 0)
  else
    let OldHealth := CurrentHealth c in
    let c1 := set_health (MaxHealth c)
                (Clamp (CurrentHealth c + HealAmount) 0 (MaxHealth c))
                (bIsInitialized c) c in
    let ActualHealing := CurrentHealth c1 - OldHealth in
    (c1, BroadcastHealthChanged c1 ActualHealing, ActualHealing).

(** [UAC_HealthComponent::HandleTakeAnyDamage]. *)
Definition HandleTakeAnyDamage (Damage : R) (DamageCauser : option AActor)
    (c : UAC_HealthComponent) : (UAC_HealthComponent * list Event)%type :=
  if Req_dec_T Damage 0 then (c, [])
  else if Rlt_dec 0 Damage then fst (ApplyDamage Damage DamageCauser c)
  else fst (Heal (Rabs Damage) c).

(** [UAC_HealthComponent::GetHealthPercent]. *)
Definition GetHealthPercent (c : UAC_HealthComponent) : R :=
  if Rlt_dec 0 (MaxHealth c) then CurrentHealth c / MaxHealth c else 0.

(** The calls that can change the health of a component in play. *)
Inductive Call : Type :=
| CallApplyDamage (DamageAmount : R) (DamageCauser : option AActor)
| CallHeal (HealAmount : R)
| CallTakeAnyDamage (Damage : R) (DamageCauser : option AActor).

Definition call (k : Call) (c : UAC_HealthComponent)
  : (UAC_HealthComponent * list Event)%type :=
  match k with
  | CallApplyDamage a who => fst (ApplyDamage a who c)
  | CallHeal a => fst (Heal a c)
  | CallTakeAnyDamage d who => HandleTakeAnyDamage d who c
  end.

Fixpoint calls (ks : list Call) (c : UAC_HealthComponent)
  : (UAC_HealthComponent * list Event)%type :=
  match ks with
  | [] => (c, [])
  | k :: rest =>
    let (c1, ev1) := call k c in
    let (c2, ev2) := calls rest c1 in
    (c2, ev1 ++ ev2)
  end.

Definition isDeath (ev : Event) : bool :=
  match ev with OnDeath _ _ => true | _ => false end.

(** Health within its bounds, for a positive maximum. *)
Definition InBounds (c : UAC_HealthComponent) : Prop :=
  0 < MaxHealth c /\ 0 <= CurrentHealth c <= MaxHealth c.

Ltac clamp_cases :=
  unfold Clamp, Rmax, Rmin in *;
  repeat match goal with
         | |- context [Rle_dec ?a ?b] => destruct (Rle_dec a b)
         | |- context [Rlt_dec ?a ?b] => destruct (Rlt_dec a b)
         | H : context [Rle_dec ?a ?b] |- _ => destruct (Rle_dec a b)
         | H : context [Rlt_dec ?a ?b] |- _ => destruct (Rlt_dec a b)
         end.

Lemma IsAlive_true (c : UAC_HealthComponent) :
  IsAlive c = true <-> 0 < CurrentHealth c.
Proof.
  unfold IsAlive. destruct (Rlt_dec _ _); split; intro H;
    try reflexivity; try assumption; try discriminate; contradiction.
Qed.

Lemma IsAlive_false (c : UAC_HealthComponent) :
  IsAlive c = false <-> CurrentHealth c <= 0.
Proof.
  unfold IsAlive. destruct (Rlt_dec _ _); split; intro H;
    try reflexivity; try discriminate; lra.
Qed.

(** A live component hit for a positive amount. *)
Lemma ApplyDamage_alive (a : R) (who : option AActor) (c : UAC_HealthComponent) :
  0 < a -> 0 < CurrentHealth c -> CurrentHealth c <= MaxHealth c ->
  ApplyDamage a who c
  = (set_health (MaxHealth c) (CurrentHealth c - Rmin a (CurrentHealth c))
       (bIsInitialized c) c,
     BroadcastHealthChanged
       (set_health (MaxHealth c) (CurrentHealth c - Rmin a (CurrentHealth c))
          (bIsInitialized c) c) (- Rmin a (CurrentHealth c))
     ++ (if Rle_dec (CurrentHealth c) a then
           if OnDeathIsBound c then [OnDeath (OwnerActor c) who] else []
         else []),
     Rmin a (CurrentHealth c)).
Proof.
  intros Ha Hc Hm. unfold ApplyDamage.
  destruct (Rle_dec a 0); [lra |].
  assert (Hal : IsAlive c = true) by now apply IsAlive_true.
  rewrite Hal. cbn [negb].
  assert (Hcl : Clamp (CurrentHealth c - a) 0 (MaxHealth c)
                = CurrentHealth c - Rmin a (CurrentHealth c))
    by (clamp_cases; lra).
  rewrite Hcl. cbn [CurrentHealth set_health OnDeathIsBound OwnerActor].
  replace (CurrentHealth c - (CurrentHealth c - Rmin a (CurrentHealth c)))
    with (Rmin a (CurrentHealth c)) by ring.
  f_equal. f_equal. f_equal.
  unfold Rmin. destruct (Rle_dec a (CurrentHealth c));
    destruct (Rle_dec (CurrentHealth c - _) 0);
    destruct (Rle_dec (CurrentHealth c) a); try reflexivity; lra.
Qed.

(** X18.  Damage accounting.  On a component whose health is within its
    bounds: a non-positive amount, or any amount on a dead component,
    changes nothing, publishes nothing and returns 0; a positive amount on
    a live component removes the smaller of the amount and the current
    health, returns exactly what it removed, never drives the health below
    zero, and publishes the death event (to a bound listener, naming the
    damage causer) exactly when the amount reaches the current health. *)
Theorem damage_accounting (a : R) (who : option AActor)
    (c : UAC_HealthComponent) :
  InBounds c ->
  let r := ApplyDamage a who c in
  (a <= 0 \/ IsAlive c = false -> r = (c, [], 0))
  /\ (0 < a -> IsAlive c = true ->
      snd r = Rmin a (CurrentHealth c)
      /\ CurrentHealth (fst (fst r)) = CurrentHealth c - snd r
      /\ 0 <= CurrentHealth (fst (fst r))
      /\ MaxHealth (fst (fst r)) = MaxHealth c
      /\ (IsAlive (fst (fst r)) = false <-> CurrentHealth c <= a)
      /\ (forall o k, In (OnDeath o k) (snd (fst r)) <->
                      o = OwnerActor c /\ k = who /\ OnDeathIsBound c = true
                      /\ CurrentHealth c <= a)).
Proof.
  intros (Hmax & Hlo & Hhi) r. split.
  - intros [Ha | Hd]; subst r; unfold ApplyDamage.
    + destruct (Rle_dec a 0); [reflexivity | lra].
    + destruct (Rle_dec a 0); [reflexivity |]. now rewrite Hd.
  - intros Ha Hal. apply IsAlive_true in Hal. subst r.
    rewrite (ApplyDamage_alive a who c Ha Hal Hhi). cbn [fst snd].
    cbn [CurrentHealth MaxHealth set_health].
    split; [reflexivity |]. split; [reflexivity |].
    split; [unfold Rmin; destruct (Rle_dec _ _); lra |].
    split; [reflexivity |]. split.
    + rewrite IsAlive_false. cbn [CurrentHealth set_health].
      unfold Rmin; destruct (Rle_dec _ _); split; intro; lra.
    + intros o k. unfold BroadcastHealthChanged.
      cbn [OwnerActor set_health OnHealthChangedIsBound CurrentHealth].
      destruct (OwnerActor c) as [x |]; destruct (OnHealthChangedIsBound c);
        destruct (Rle_dec (CurrentHealth c) a); destruct (OnDeathIsBound c);
        simpl; split; intro H;
        repeat match goal with
               | H : _ \/ _ |- _ => destruct H
               | H : _ /\ _ |- _ => destruct H
               | H : False |- _ => destruct H
               | H : OnDeath _ _ = OnDeath _ _ |- _ => inversion H; clear H
               end;
        subst; try discriminate; try contradiction; auto 6.
Qed.

Lemma call_dead (k : Call) (c : UAC_HealthComponent) :
  IsAlive c = false -> call k c = (c, []).
Proof.
  intro Hd. destruct k as [a who | a | d who]; simpl.
  - unfold ApplyDamage. destruct (Rle_dec a 0); [reflexivity |].
    now rewrite Hd.
  - unfold Heal. destruct (Rle_dec a 0); [reflexivity |]. now rewrite Hd.
  - unfold HandleTakeAnyDamage. destruct (Req_dec_T d 0); [reflexivity |].
    destruct (Rlt_dec 0 d).
    + unfold ApplyDamage. destruct (Rle_dec d 0); [reflexivity |].
      now rewrite Hd.
    + unfold Heal. destruct (Rle_dec (Rabs d) 0); [reflexivity |].
      now rewrite Hd.
Qed.

Lemma Heal_alive (a : R) (c : UAC_HealthComponent) :
  InBounds c -> 0 < a -> 0 < CurrentHealth c ->
  Heal a c
  = (set_health (MaxHealth c)
       (CurrentHealth c + Rmin a (MaxHealth c - CurrentHealth c))
       (bIsInitialized c) c,
     BroadcastHealthChanged
       (set_health (MaxHealth c)
          (CurrentHealth c + Rmin a (MaxHealth c - CurrentHealth c))
          (bIsInitialized c) c)
       (Rmin a (MaxHealth c - CurrentHealth c)),
     Rmin a (MaxHealth c - CurrentHealth c)).
Proof.
  intros (Hmax & Hlo & Hhi) Ha Hc. unfold Heal.
  destruct (Rle_dec a 0); [lra |].
  assert (Hal : IsAlive c = true) by now apply IsAlive_true.
  rewrite Hal. cbn [negb].
  assert (Hcl : Clamp (CurrentHealth c + a) 0 (MaxHealth c)
                = CurrentHealth c + Rmin a (MaxHealth c - CurrentHealth c))
    by (clamp_cases; lra).
  rewrite Hcl. cbn [CurrentHealth set_health].
  replace (CurrentHealth c + Rmin a (MaxHealth c - CurrentHealth c)
           - CurrentHealth c)
    with (Rmin a (MaxHealth c - CurrentHealth c)) by ring.
  reflexivity.
Qed.

Lemma call_alive (k : Call) (c : UAC_HealthComponent) :
  InBounds c -> IsAlive c = true ->
  InBounds (fst (call k c))
  /\ MaxHealth (fst (call k c)) = MaxHealth c
  /\ (length (List.filter isDeath (snd (call k c))) <= 1)%nat
  /\ (List.filter isDeath (snd (call k c)) <> [] ->
      IsAlive (fst (call k c)) = false).
Proof.
  intros Hb Hal. pose proof Hb as (Hmax & Hlo & Hhi).
  apply IsAlive_true in Hal.
  assert (Hdmg : forall a who, 0 < a ->
            InBounds (fst (fst (ApplyDamage a who c)))
            /\ MaxHealth (fst (fst (ApplyDamage a who c))) = MaxHealth c
            /\ (length (List.filter isDeath (snd (fst (ApplyDamage a who c))))
                <= 1)%nat
            /\ (List.filter isDeath (snd (fst (ApplyDamage a who c))) <> [] ->
                IsAlive (fst (fst (ApplyDamage a who c))) = false)).
  { intros a who Ha. rewrite (ApplyDamage_alive a who c Ha Hal Hhi).
    cbn [fst snd]. unfold InBounds, BroadcastHealthChanged.
    cbn [MaxHealth CurrentHealth set_health OwnerActor OnHealthChangedIsBound].
    split; [| split; [reflexivity |]].
    - unfold Rmin. destruct (Rle_dec a (CurrentHealth c)); lra.
    - rewrite IsAlive_false. cbn [CurrentHealth set_health].
      destruct (OwnerActor c); destruct (OnHealthChangedIsBound c);
        destruct (Rle_dec (CurrentHealth c) a) as [Hle | Hn];
        destruct (OnDeathIsBound c); simpl; split; try lia;
        intro H; try (now elim H);
        unfold Rmin; destruct (Rle_dec a (CurrentHealth c)); lra. }
  assert (Hheal : forall a, 0 < a ->
            InBounds (fst (fst (Heal a c)))
            /\ MaxHealth (fst (fst (Heal a c))) = MaxHealth c
            /\ (length (List.filter isDeath (snd (fst (Heal a c)))) <= 1)%nat
            /\ (List.filter isDeath (snd (fst (Heal a c))) <> [] ->
                IsAlive (fst (fst (Heal a c))) = false)).
  { intros a Ha. rewrite (Heal_alive a c Hb Ha Hal).
    cbn [fst snd]. unfold InBounds, BroadcastHealthChanged.
    cbn [MaxHealth CurrentHealth set_health OwnerActor OnHealthChangedIsBound].
    split; [| split; [reflexivity |]].
    - unfold Rmin. destruct (Rle_dec a (MaxHealth c - CurrentHealth c)); lra.
    - destruct (OwnerActor c); destruct (OnHealthChangedIsBound c); simpl;
        split; try lia; intro H; now elim H. }
  assert (Hnop : InBounds c /\ MaxHealth c = MaxHealth c
                 /\ (length (List.filter isDeath (@nil Event)) <= 1)%nat
                 /\ (List.filter isDeath (@nil Event) <> [] -> IsAlive c = false)).
  { repeat split; try assumption; simpl; try lia. intro H; now elim H. }
  destruct k as [a who | a | d who]; simpl.
  - destruct (Rle_dec a 0) as [Hle | Hpos].
    + unfold ApplyDamage. destruct (Rle_dec a 0); [exact Hnop | lra].
    + apply Hdmg. lra.
  - destruct (Rle_dec a 0) as [Hle | Hpos].
    + unfold Heal. destruct (Rle_dec a 0); [exact Hnop | lra].
    + apply Hheal. lra.
  - unfold HandleTakeAnyDamage. destruct (Req_dec_T d 0); [exact Hnop |].
    destruct (Rlt_dec 0 d); [now apply Hdmg |].
    apply Hheal. apply Rabs_pos_lt. assumption.
Qed.

Lemma calls_dead (ks : list Call) (c : UAC_HealthComponent) :
  IsAlive c = false -> calls ks c = (c, []).
Proof.
  intro Hd. induction ks as [| k rest IH]; simpl; [reflexivity |].
  now rewrite (call_dead k c Hd), IH.
Qed.

Lemma calls_invariant (ks : list Call) :
  forall c, InBounds c ->
  InBounds (fst (calls ks c))
  /\ MaxHealth (fst (calls ks c)) = MaxHealth c
  /\ (length (List.filter isDeath (snd (calls ks c))) <= 1)%nat.
Proof.
  induction ks as [| k rest IH]; intros c Hb; simpl.
  - repeat split; try apply Hb. lia.
  - destruct (IsAlive c) eqn:Hal.
    + destruct (call_alive k c Hb Hal) as (Hb1 & Hm1 & Hc1 & Hdead).
      destruct (call k c) as [c1 ev1]. cbn [fst snd] in *.
      destruct (List.filter isDeath ev1) as [| d ds] eqn:Hf.
      * destruct (IH c1 Hb1) as (Hb2 & Hm2 & Hc2).
        destruct (calls rest c1) as [c2 ev2]. cbn [fst snd] in *.
        rewrite List.filter_app, Hf. simpl.
        split; [exact Hb2 |]. split; [congruence | exact Hc2].
      * assert (Hd1 : IsAlive c1 = false) by (apply Hdead; discriminate).
        rewrite (calls_dead rest c1 Hd1). cbn [fst snd].
        rewrite app_nil_r, Hf. split; [exact Hb1 |].
        split; [exact Hm1 | exact Hc1].
    + rewrite (call_dead k c Hal), (calls_dead rest c Hal). cbn [fst snd].
      repeat split; try apply Hb. simpl; lia.
Qed.

(** X19.  Health stays within its bounds.  [Initialize] always leaves a
    positive maximum and full health, replacing a non-positive request by
    100.  From a component within its bounds, any sequence of damage, heal
    and take-any-damage calls leaves the health between zero and the
    maximum, the maximum unchanged, and the health fraction between 0 and
    1. *)
Theorem health_within_bounds (c : UAC_HealthComponent) :
  (forall m,
     InBounds (fst (Initialize m c))
     /\ CurrentHealth (fst (Initialize m c)) = MaxHealth (fst (Initialize m c))
     /\ (m <= 0 -> MaxHealth (fst (Initialize m c)) = 100)
     /\ (0 < m -> MaxHealth (fst (Initialize m c)) = m))
  /\ (InBounds c ->
      forall ks,
        InBounds (fst (calls ks c))
        /\ MaxHealth (fst (calls ks c)) = MaxHealth c
        /\ 0 <= GetHealthPercent (fst (calls ks c)) <= 1).
Proof.
  split.
  - intro m. unfold Initialize, InBounds. cbn [fst MaxHealth CurrentHealth
      set_health].
    destruct (Rle_dec m 0); repeat split; intros; lra.
  - intros Hb ks. destruct (calls_invariant ks c Hb) as (Hb' & Hm & _).
    split; [exact Hb' |]. split; [exact Hm |].
    destruct Hb' as (Hmax & Hlo & Hhi). unfold GetHealthPercent.
    destruct (Rlt_dec 0 _) as [_ | Hn]; [| lra].
    set (mx := MaxHealth (fst (calls ks c))) in *.
    set (cur := CurrentHealth (fst (calls ks c))) in *.
    assert (Hi : 0 < / mx) by now apply Rinv_0_lt_compat.
    split.
    + apply Rmult_le_pos; lra.
    + apply (Rmult_le_reg_r mx); [exact Hmax |].
      unfold Rdiv. rewrite Rmult_assoc, Rinv_l by lra. lra.
Qed.

(** X20.  Death is final and announced once.  From a component within its
    bounds, any sequence of damage, heal and take-any-damage calls publishes
    the death event at most once; and once the health is zero every further
    call, healing included, changes nothing and publishes nothing. *)
Theorem death_is_final (c : UAC_HealthComponent) :
  (InBounds c ->
   forall ks, (length (List.filter isDeath (snd (calls ks c))) <= 1)%nat)
  /\ (IsAlive c = false -> forall ks, calls ks c = (c, [])).
Proof.
  split.
  - intros Hb ks. now apply calls_invariant.
  - intros Hd ks. now apply calls_dead.
Qed.

(** X21.  Healing.  On a live component within its bounds a positive heal
    restores the smaller of the amount and the missing health and returns
    exactly that; a hit that leaves the component alive followed by a heal
    of the same amount restores the health it had; and incoming engine
    damage of a negative amount is a heal of its absolute value. *)
Theorem healing (a : R) (c : UAC_HealthComponent) :
  InBounds c -> 0 < a -> IsAlive c = true ->
  snd (Heal a c) = Rmin a (MaxHealth c - CurrentHealth c)
  /\ CurrentHealth (fst (fst (Heal a c))) = CurrentHealth c + snd (Heal a c)
  /\ (a < CurrentHealth c ->
      forall who,
        CurrentHealth (fst (fst (Heal a (fst (fst (ApplyDamage a who c))))))
        = CurrentHealth c)
  /\ (forall who, HandleTakeAnyDamage (- a) who c = fst (Heal a c)).
Proof.
  intros Hb Ha Hal. pose proof Hb as (Hmax & Hlo & Hhi).
  apply IsAlive_true in Hal.
  rewrite (Heal_alive a c Hb Ha Hal). cbn [fst snd CurrentHealth set_health].
  split; [reflexivity |]. split; [reflexivity |]. split.
  - intros Hlt who. rewrite (ApplyDamage_alive a who c Ha Hal Hhi).
    cbn [fst]. rewrite Heal_alive.
    + cbn [fst CurrentHealth MaxHealth set_health].
      unfold Rmin. destruct (Rle_dec a (CurrentHealth c)); [| lra].
      destruct (Rle_dec a _); lra.
    + unfold InBounds. cbn [CurrentHealth MaxHealth set_health].
      unfold Rmin. destruct (Rle_dec a (CurrentHealth c)); lra.
    + exact Ha.
    + cbn [CurrentHealth set_health].
      unfold Rmin. destruct (Rle_dec a (CurrentHealth c)); lra.
  - intro who. unfold HandleTakeAnyDamage.
    destruct (Req_dec_T (- a) 0); [lra |].
    destruct (Rlt_dec 0 (- a)); [lra |].
    rewrite Rabs_Ropp, Rabs_pos_eq by lra.
    now rewrite (Heal_alive a c Hb Ha Hal).
Qed.

End HealthComponent.

(** ** Goals and the score (QuidditchGoal.cpp, WizardJamGameMode.cpp) *)

Module QuidditchGoal.

Record AQuidditchGoal : Type := mkGoal {
  GoalElement             : FName;
  PointsForCorrectElement : BinNums.Z;   (* int32 *)
  HasDynamicMaterial      : bool
}.

(** What overlaps the scoring zone: [Cast<ABaseProjectile>(OtherActor)]
    fails, or gives a projectile with its spell element and its
    [GetOwner()]. *)
Inductive Overlapper : Type :=
| NotAProjectile
| AProjectile (SpellElement : FName) (Shooter : option AActor)
              (p : BaseProjectile.ABaseProjectile).

Inductive Effect : Type :=
| OnGoalScored (ScoringActor : AActor) (Element : FName)
               (PointsAwarded : BinNums.Z) (bWasCorrectElement : bool)
| HitFlash (bCorrectElement : bool)
| OfProjectile (ev : BaseProjectile.Effect).

(** [AQuidditchGoal::IsCorrectElement], on the projectile's element:
    [ProjectileElement == GoalElement] is the comparison of names, which
    ignores case. *)
Definition IsCorrectElement (g : AQuidditchGoal) (SpellElement : option FName)
  : bool :=
  match SpellElement with
  | None => false
  | Some el => FName_eqb el (GoalElement g)
  end.

(** [AQuidditchGoal::CalculatePoints]. *)
Definition CalculatePoints (g : AQuidditchGoal) (ScoringActor : AActor)
    (bCorrectElement : bool) : BinNums.Z :=
  if negb bCorrectElement then 0%Z else PointsForCorrectElement g.

(** [AQuidditchGoal::PlayHitFeedback]. *)
Definition PlayHitFeedback (g : AQuidditchGoal) (bCorrectElement : bool)
  : list Effect :=
  if HasDynamicMaterial g then [HitFlash bCorrectElement] else [].

(** [AQuidditchGoal::OnScoringZoneBeginOverlap]: the projectile afterwards,
    if one was involved, and the effects. *)
Definition OnScoringZoneBeginOverlap (g : AQuidditchGoal) (other : Overlapper)
  : (option BaseProjectile.ABaseProjectile * list Effect)%type :=
  match other with
  | NotAProjectile => (None, [])
  | AProjectile el None p => (Some p, [])
  | AProjectile el (Some Shooter) p =>
    let bCorrectElement := IsCorrectElement g (Some el) in
    let Points := CalculatePoints g Shooter bCorrectElement in
    let (p', evs) := BaseProjectile.Destroy p in
    (Some p',
     [OnGoalScored Shooter el Points bCorrectElement]
     ++ PlayHitFeedback g bCorrectElement
     ++ map OfProjectile evs)
  end.

Definition isGoalScored (ev : Effect) : bool :=
  match ev with OnGoalScored _ _ _ _ => true | _ => false end.

(** X22.  Scoring on a goal.  Something that is not a projectile, or a
    projectile without owner, scores nothing and is left alone.  A
    projectile with an owner produces exactly one goal-scored event naming
    that owner and the projectile's element: marked correct, with
    [PointsForCorrectElement], exactly when the element equals the goal's as
    names are compared, that is without regard to case, and with 0 points
    otherwise.  The projectile is destroyed in both cases: a
    live one publishes its termination event, reporting whether it had hit
    something before, and no longer reacts to any overlap or timer. *)
Theorem goal_scoring (g : AQuidditchGoal) :
  OnScoringZoneBeginOverlap g NotAProjectile = (None, [])
  /\ (forall el p,
        OnScoringZoneBeginOverlap g (AProjectile el None p) = (Some p, []))
  /\ (forall el shooter p,
        let r := OnScoringZoneBeginOverlap g (AProjectile el (Some shooter) p) in
        List.filter isGoalScored (snd r)
        = [OnGoalScored shooter el
             (if FName_eqb el (GoalElement g)
              then PointsForCorrectElement g else 0%Z)
             (FName_eqb el (GoalElement g))]
        /\ (BaseProjectile.HasCollisionSphere p = true ->
            BaseProjectile.bActorIsBeingDestroyed p = false ->
            exists p',
              fst r = Some p'
              /\ In (OfProjectile
                       (BaseProjectile.OnProjectileDestroyed
                          (BaseProjectile.Self p)
                          (BaseProjectile.bDidHitSomething p))) (snd r)
              /\ forall sigs, BaseProjectile.deliverAll sigs p' = (p', []))).
Proof.
  split; [reflexivity |]. split; [reflexivity |].
  intros el shooter p r. subst r. unfold OnScoringZoneBeginOverlap.
  destruct (BaseProjectile.Destroy p) as [p' evs] eqn:Hd. cbn [fst snd].
  split.
  - unfold IsCorrectElement, CalculatePoints, PlayHitFeedback.
    cbn [List.filter app isGoalScored].
    rewrite List.filter_app.
    assert (H1 : forall l, List.filter isGoalScored (map OfProjectile l) = []).
    { induction l as [| x l IH]; simpl; [reflexivity | exact IH]. }
    rewrite H1, app_nil_r.
    destruct (HasDynamicMaterial g); destruct (FName_eqb el (GoalElement g));
      reflexivity.
  - intros Hs Hl.
    destruct (BaseProjectile.Destroy_live p Hs Hl) as (q & Hq & Hb & Ht).
    rewrite Hq in Hd. inversion Hd; subst. exists p'.
    split; [reflexivity |]. split.
    + apply in_or_app. right. apply in_or_app. right. simpl. now left.
    + intro sigs. now apply BaseProjectile.unregistered_inert.
Qed.

(** A "flame" projectile on a "Flame" goal is of the correct element; a
    "Frost" projectile is not. *)
Example element_ignores_case :
  let g := mkGoal "Flame" 10%Z false in
  IsCorrectElement g (Some "flame"%string) = true
  /\ CalculatePoints g 1%nat (IsCorrectElement g (Some "flame"%string)) = 10%Z
  /\ IsCorrectElement g (Some "Frost"%string) = false.
Proof. repeat split; reflexivity. Qed.

End QuidditchGoal.

Module GameMode.

(** [int32] arithmetic, wrapping. *)
Definition wrap32 (x : BinNums.Z) : BinNums.Z :=
  ((x + 2147483648) mod 4294967296 - 2147483648)%Z.

Record AWizardJamGameMode : Type := mkGameMode {
  WinningScore    : BinNums.Z;
  PlayerScore     : BinNums.Z;
  AIScore         : BinNums.Z;
  MatchTimerIsSet : bool
}.

Inductive Event : Type :=
| OnPlayerScored (NewScore PointsAdded : BinNums.Z)
| OnAIScored (NewScore PointsAdded : BinNums.Z)
| OnMatchEnded (bPlayerWon : bool).

(** [AWizardJamGameMode::GetActorTeamID]; [teamOf] is the team interface of
    the world's actors. *)
Definition GetActorTeamID (teamOf : AActor -> option FGenericTeamId)
    (Actor : option AActor) : BinNums.Z :=
  match Actor with
  | None => (- 1)%Z
  | Some a =>
    match teamOf a with
    | Some t => Z.of_N t
    | None => 0%Z
    end
  end.

(** [AWizardJamGameMode::CheckMatchEnd]. *)
Definition CheckMatchEnd (gm : AWizardJamGameMode)
  : (AWizardJamGameMode * list Event)%type :=
  if Z.leb (WinningScore gm) (PlayerScore gm) then
    (mkGameMode (WinningScore gm) (PlayerScore gm) (AIScore gm) false,
     [OnMatchEnded true])
  else if Z.leb (WinningScore gm) (AIScore gm) then
    (mkGameMode (WinningScore gm) (PlayerScore gm) (AIScore gm) false,
     [OnMatchEnded false])
  else (gm, []).

(** [AWizardJamGameMode::OnGoalScored]. *)
Definition OnGoalScored (teamOf : AActor -> option FGenericTeamId)
    (ScoringActor : option AActor) (Element : FName)
    (PointsAwarded : BinNums.Z) (bWasCorrectElement : bool)
    (gm : AWizardJamGameMode) : (AWizardJamGameMode * list Event)%type :=
  match ScoringActor with
  | None => (gm, [])
  | Some _ =>
    if Z.eqb PointsAwarded 0 then (gm, [])
    else
      let ScorerTeamID := GetActorTeamID teamOf ScoringActor in
      let (gm1, ev1) :=
        if Z.eqb ScorerTeamID 0 then
          let s := wrap32 (PlayerScore gm + PointsAwarded) in
          (mkGameMode (WinningScore gm) s (AIScore gm) (MatchTimerIsSet gm),
           [OnPlayerScored s PointsAwarded])
        else if Z.eqb ScorerTeamID 1 then
          let s := wrap32 (AIScore gm + PointsAwarded) in
          (mkGameMode (WinningScore gm) (PlayerScore gm) s (MatchTimerIsSet gm),
           [OnAIScored s PointsAwarded])
        else (gm, []) in
      let (gm2, ev2) := CheckMatchEnd gm1 in
      (gm2, ev1 ++ ev2)
  end.

(** [AWizardJamGameMode::OnMatchTimeExpired]. *)
Definition OnMatchTimeExpired (gm : AWizardJamGameMode) : list Event :=
  [OnMatchEnded (Z.ltb (AIScore gm) (PlayerScore gm))].

(** The game mode is bound to every goal's scored event: it handles the
    goal-scored events among the effects of an overlap, in order. *)
Fixpoint HandleGoalEffects (teamOf : AActor -> option FGenericTeamId)
    (evs : list QuidditchGoal.Effect) (gm : AWizardJamGameMode)
  : (AWizardJamGameMode * list Event)%type :=
  match evs with
  | [] => (gm, [])
  | QuidditchGoal.OnGoalScored a el pts ok :: rest =>
    let (gm1, ev1) := OnGoalScored teamOf (Some a) el pts ok gm in
    let (gm2, ev2) := HandleGoalEffects teamOf rest gm1 in
    (gm2, ev1 ++ ev2)
  | _ :: rest => HandleGoalEffects teamOf rest gm
  end.

Definition isMatchEnded (ev : Event) : bool :=
  match ev with OnMatchEnded _ => true | _ => false end.

Definition InInt32 (x : BinNums.Z) : Prop :=
  (- 2147483648 <= x <= 2147483647)%Z.

Lemma wrap32_id (x : BinNums.Z) : InInt32 x -> wrap32 x = x.
Proof.
  unfold InInt32, wrap32. intros H.
  rewrite Z.mod_small by lia. lia.
Qed.

Lemma HandleGoalEffects_other (teamOf : AActor -> option FGenericTeamId)
    (evs : list QuidditchGoal.Effect) (gm : AWizardJamGameMode) :
  List.filter QuidditchGoal.isGoalScored evs = [] ->
  HandleGoalEffects teamOf evs gm = (gm, []).
Proof.
  induction evs as [| ev rest IH]; simpl; [reflexivity |].
  destruct ev; simpl; try discriminate; exact IH.
Qed.

Lemma HandleGoalEffects_overlap (teamOf : AActor -> option FGenericTeamId)
    (g : QuidditchGoal.AQuidditchGoal) (el : FName) (shooter : AActor)
    (p : BaseProjectile.ABaseProjectile) (gm : AWizardJamGameMode) :
  HandleGoalEffects teamOf
    (snd (QuidditchGoal.OnScoringZoneBeginOverlap g
            (QuidditchGoal.AProjectile el (Some shooter) p))) gm
  = OnGoalScored teamOf (Some shooter) el
      (if FName_eqb el (QuidditchGoal.GoalElement g)
       then QuidditchGoal.PointsForCorrectElement g else 0%Z)
      (FName_eqb el (QuidditchGoal.GoalElement g)) gm.
Proof.
  unfold QuidditchGoal.OnScoringZoneBeginOverlap.
  destruct (BaseProjectile.Destroy p) as [p' evs]. cbn [snd].
  cbn [app HandleGoalEffects].
  unfold QuidditchGoal.IsCorrectElement, QuidditchGoal.CalculatePoints.
  replace (if negb (FName_eqb el (QuidditchGoal.GoalElement g))
           then 0%Z else QuidditchGoal.PointsForCorrectElement g)
    with (if FName_eqb el (QuidditchGoal.GoalElement g)
          then QuidditchGoal.PointsForCorrectElement g else 0%Z)
    by now destruct (FName_eqb el (QuidditchGoal.GoalElement g)).
  destruct (OnGoalScored teamOf (Some shooter) el _ _ gm) as [gm1 ev1].
  rewrite HandleGoalEffects_other.
  - now rewrite app_nil_r.
  - rewrite List.filter_app. unfold QuidditchGoal.PlayHitFeedback.
    assert (H1 : forall l, List.filter QuidditchGoal.isGoalScored
                             (map QuidditchGoal.OfProjectile l) = []).
    { induction l as [| x l IH]; simpl; [reflexivity | exact IH]. }
    rewrite H1. now destruct (QuidditchGoal.HasDynamicMaterial g).
Qed.

(** X23.  From a goal overlap to the score.  Elements are names, compared
    without regard to case.  Something that is not a
    projectile, an ownerless projectile and a projectile of the wrong
    element leave the game mode unchanged and publish nothing, and so does a
    goal worth 0 points.  A projectile of the goal's element, worth a
    non-zero number of points that does not overflow the score, adds the
    points to the player's score when its shooter is on team 0 or exposes no
    team, to the AI's score when on team 1, and to neither score
    otherwise. *)
Theorem goal_overlap_to_score (teamOf : AActor -> option FGenericTeamId)
    (g : QuidditchGoal.AQuidditchGoal) (gm : AWizardJamGameMode) :
  let handle other :=
    HandleGoalEffects teamOf
      (snd (QuidditchGoal.OnScoringZoneBeginOverlap g other)) gm in
  handle QuidditchGoal.NotAProjectile = (gm, [])
  /\ (forall el p, handle (QuidditchGoal.AProjectile el None p) = (gm, []))
  /\ (forall el shooter p,
        FName_eqb el (QuidditchGoal.GoalElement g) = false
        \/ QuidditchGoal.PointsForCorrectElement g = 0%Z ->
        handle (QuidditchGoal.AProjectile el (Some shooter) p) = (gm, []))
  /\ (forall el shooter p,
        FName_eqb el (QuidditchGoal.GoalElement g) = true ->
        let pts := QuidditchGoal.PointsForCorrectElement g in
        let r := handle (QuidditchGoal.AProjectile el (Some shooter) p) in
        pts <> 0%Z ->
        (teamOf shooter = None \/ teamOf shooter = Some 0%N ->
         InInt32 (PlayerScore gm + pts) ->
         PlayerScore (fst r) = (PlayerScore gm + pts)%Z
         /\ AIScore (fst r) = AIScore gm
         /\ In (OnPlayerScored (PlayerScore gm + pts) pts) (snd r))
        /\ (teamOf shooter = Some 1%N ->
            InInt32 (AIScore gm + pts) ->
            AIScore (fst r) = (AIScore gm + pts)%Z
            /\ PlayerScore (fst r) = PlayerScore gm
            /\ In (OnAIScored (AIScore gm + pts) pts) (snd r))
        /\ (forall t, teamOf shooter = Some t -> (1 < t)%N ->
            PlayerScore (fst r) = PlayerScore gm
            /\ AIScore (fst r) = AIScore gm)).
Proof.
  intro handle. subst handle. cbv beta.
  split; [reflexivity |]. split; [reflexivity |]. split.
  - intros el shooter p Hcase. rewrite HandleGoalEffects_overlap.
    unfold OnGoalScored.
    destruct Hcase as [-> | Hz]; [reflexivity |].
    rewrite Hz. now destruct (FName_eqb el _).
  - intros el shooter p Hel pts r Hpts. subst r.
    rewrite HandleGoalEffects_overlap, Hel. fold pts.
    unfold OnGoalScored, GetActorTeamID.
    destruct (Z.eqb_spec pts 0) as [Hz | _]; [contradiction |].
    split; [| split].
    + intros Hteam Hrange.
      assert (Ht : (match teamOf shooter with
                    | Some t => Z.of_N t
                    | None => 0
                    end =? 0)%Z = true)
        by (destruct Hteam as [-> | ->]; reflexivity).
      rewrite Ht, (wrap32_id _ Hrange). unfold CheckMatchEnd.
      cbn [WinningScore PlayerScore AIScore].
      destruct (Z.leb _ (PlayerScore gm + pts)); [| destruct (Z.leb _ _)];
        cbn [fst snd PlayerScore AIScore]; repeat split; now left.
    + intros Hteam Hrange. rewrite Hteam. cbn [Z.of_N Z.eqb Pos.eqb].
      rewrite (wrap32_id _ Hrange). unfold CheckMatchEnd.
      cbn [WinningScore PlayerScore AIScore].
      destruct (Z.leb _ (PlayerScore gm)); [| destruct (Z.leb _ _)];
        cbn [fst snd PlayerScore AIScore]; repeat split; now left.
    + intros t Hteam Ht. rewrite Hteam.
      destruct (Z.eqb_spec (Z.of_N t) 0) as [H0 | _]; [lia |].
      destruct (Z.eqb_spec (Z.of_N t) 1) as [H1 | _]; [lia |].
      unfold CheckMatchEnd.
      destruct (Z.leb _ (PlayerScore gm)); [| destruct (Z.leb _ _)];
        now split.
Qed.

(** X24.  The end of the match is not latched.  After every handled
    scoring event (a scorer, a non-zero number of points) the game mode
    publishes match-ended with "player won" when the player's score has
    reached the winning score, otherwise with "player lost" when the AI's
    has, otherwise nothing; the player takes precedence when both have.  No
    state records that the match has ended, so each later scoring event
    publishes it again while a winning score stands.  When the match timer
    expires the player wins only with strictly more points: a tie is
    reported as a loss. *)
Theorem match_end_is_not_latched (teamOf : AActor -> option FGenericTeamId)
    (a : AActor) (el : FName) (pts : BinNums.Z) (ok : bool)
    (gm : AWizardJamGameMode) :
  pts <> 0%Z ->
  let r := OnGoalScored teamOf (Some a) el pts ok gm in
  List.filter isMatchEnded (snd r)
  = (if Z.leb (WinningScore gm) (PlayerScore (fst r)) then [OnMatchEnded true]
     else if Z.leb (WinningScore gm) (AIScore (fst r)) then [OnMatchEnded false]
     else [])
  /\ WinningScore (fst r) = WinningScore gm
  /\ (forall a2 el2 pts2 ok2,
        (WinningScore gm <= PlayerScore (fst r))%Z ->
        teamOf a2 = Some 1%N -> pts2 <> 0%Z ->
        In (OnMatchEnded true)
           (snd (OnGoalScored teamOf (Some a2) el2 pts2 ok2 (fst r))))
  /\ (PlayerScore gm = AIScore gm ->
      OnMatchTimeExpired gm = [OnMatchEnded false]).
Proof.
  intros Hpts r.
  assert (Hshape : forall g1 ev1,
            List.filter isMatchEnded ev1 = [] ->
            List.filter isMatchEnded (ev1 ++ snd (CheckMatchEnd g1))
            = (if Z.leb (WinningScore g1) (PlayerScore (fst (CheckMatchEnd g1)))
               then [OnMatchEnded true]
               else if Z.leb (WinningScore g1) (AIScore (fst (CheckMatchEnd g1)))
               then [OnMatchEnded false] else [])
            /\ WinningScore (fst (CheckMatchEnd g1)) = WinningScore g1).
  { intros g1 ev1 Hev. rewrite List.filter_app, Hev. unfold CheckMatchEnd.
    destruct (Z.leb (WinningScore g1) (PlayerScore g1)) eqn:E1;
      [| destruct (Z.leb (WinningScore g1) (AIScore g1)) eqn:E2];
      cbn [fst snd PlayerScore AIScore WinningScore app List.filter isMatchEnded];
      rewrite ?E1, ?E2; split; reflexivity. }
  assert (Hr : List.filter isMatchEnded (snd r)
               = (if Z.leb (WinningScore gm) (PlayerScore (fst r))
                  then [OnMatchEnded true]
                  else if Z.leb (WinningScore gm) (AIScore (fst r))
                  then [OnMatchEnded false] else [])
               /\ WinningScore (fst r) = WinningScore gm).
  { subst r. unfold OnGoalScored.
    destruct (Z.eqb_spec pts 0) as [Hz | _]; [contradiction |].
    destruct (Z.eqb _ 0).
    - match goal with
      | |- context [CheckMatchEnd ?g1] =>
        destruct (Hshape g1 [OnPlayerScored (PlayerScore g1) pts] eq_refl)
          as (H1 & H2); destruct (CheckMatchEnd g1) as [g2 ev2]
      end.
      cbn [fst snd] in *. split; assumption.
    - destruct (Z.eqb _ 1).
      + match goal with
        | |- context [CheckMatchEnd ?g1] =>
          destruct (Hshape g1 [OnAIScored (AIScore g1) pts] eq_refl)
            as (H1 & H2); destruct (CheckMatchEnd g1) as [g2 ev2]
        end.
        cbn [fst snd] in *. split; assumption.
      + destruct (Hshape gm [] eq_refl) as (H1 & H2).
        destruct (CheckMatchEnd gm) as [g2 ev2].
        cbn [fst snd app] in *. split; assumption. }
  destruct Hr as (Hr1 & Hr2). split; [exact Hr1 |]. split; [exact Hr2 |].
  split.
  - intros a2 el2 pts2 ok2 Hwin Hteam Hp2.
    unfold OnGoalScored, GetActorTeamID. rewrite Hteam.
    destruct (Z.eqb_spec pts2 0) as [Hz | _]; [contradiction |].
    cbn [Z.of_N Z.eqb Pos.eqb]. unfold CheckMatchEnd.
    cbn [WinningScore PlayerScore AIScore]. rewrite Hr2.
    apply Z.leb_le in Hwin. rewrite Hwin. cbn [snd]. right. now left.
  - intro Htie. unfold OnMatchTimeExpired. rewrite Htie.
    now rewrite Z.ltb_irrefl.
Qed.

End GameMode.

(** ** Worked scenarios for the further properties *)

Module LifecycleScenarios.
Import FMath.

(** The launched projectile of the earlier scenarios meets the enemy. *)
Lemma resolving_overlap_effects_witness :
  In (BaseProjectile.OnProjectileDestroyed 7%nat true)
     (snd (BaseProjectile.OnOverlapBegin ProjectileScenarios.world (Some 2%nat)
             None ProjectileScenarios.noSweep ProjectileScenarios.launched)).
Proof.
  destruct (ProjectileLifecycle.resolving_overlap_effects
              ProjectileScenarios.world ProjectileScenarios.launched 2%nat None
              ProjectileScenarios.noSweep
              eq_refl eq_refl eq_refl eq_refl eq_refl eq_refl)
    as (h & _ & E).
  refine (eq_ind_r (fun l => In _ l) _ E).
  apply in_or_app. right. simpl. auto.
Defined.

(** Its timer fires before anything is hit. *)
Lemma termination_reports_hit_witness :
  snd (BaseProjectile.deliverAll
         [(ProjectileScenarios.world, BaseProjectile.LifetimeTimerFired);
          ProjectileScenarios.overlap 2%nat]
         (BaseProjectile.BeginPlay ProjectileScenarios.launched))
  = [BaseProjectile.OnProjectileDestroyed 7%nat false].
Proof.
  exact (proj2 (ProjectileLifecycle.termination_reports_hit
                  ProjectileScenarios.launched
                  (conj eq_refl (conj eq_refl eq_refl)))
           ProjectileScenarios.world [ProjectileScenarios.overlap 2%nat]).
Defined.

Lemma BeginPlay_primes_change_detection_witness :
  AimComponent.notifications
    (snd (fst (AimComponent.RequestAimUpdate (AimScenarios.targetAt 100)
                 (AimComponent.BeginPlay (AimScenarios.targetAt 100)
                    (AimComponent.Constructed AimComponent.DefaultConfig)))))
  = [].
Proof.
  refine (proj1 (AimLifecycle.BeginPlay_primes_change_detection
                   (AimScenarios.targetAt 100)
                   (AimComponent.Constructed AimComponent.DefaultConfig) _)).
  simpl. lra.
Defined.

(** Nothing in the world: the aim cannot be blocked. *)
Lemma blocked_state_follows_snapshot_witness :
  AimComponent.bAimIsBlocked
    (fst (fst (AimComponent.RequestAimUpdate AimScenarios.scenarioA
                 (AimComponent.Constructed AimComponent.DefaultConfig))))
  = false.
Proof.
  refine (proj1 (proj2 (AimLifecycle.blocked_state_follows_snapshot
                          AimScenarios.scenarioA
                          (AimComponent.Constructed AimComponent.DefaultConfig)
                          AimScenarios.agent AimScenarios.emptyWorld
                          eq_refl eq_refl)) _).
  rewrite (AimComponent.RequestAimUpdate_snapshot AimScenarios.scenarioA _
             AimScenarios.agent AimScenarios.emptyWorld eq_refl eq_refl).
  reflexivity.
Defined.

(** With actor 5 struck 100 units ahead, the agent is aiming at actor 5. *)
Lemma IsAimingAt_after_request_witness :
  AimLifecycle.IsAimingAt
    (fst (fst (AimComponent.RequestAimUpdate (AimScenarios.targetAt 100)
                 (AimComponent.Constructed AimComponent.DefaultConfig))))
    (Some 5%nat)
  = true.
Proof.
  refine (proj2 (proj1 (proj2 (AimLifecycle.IsAimingAt_after_request
                                 (AimScenarios.targetAt 100)
                                 (AimComponent.Constructed
                                    AimComponent.DefaultConfig)
                                 AimScenarios.agent _ eq_refl eq_refl))
                   5%nat) _).
  rewrite (AimComponent.RequestAimUpdate_snapshot (AimScenarios.targetAt 100) _
             AimScenarios.agent _ eq_refl eq_refl).
  reflexivity.
Defined.

Lemma Size_ForwardVector : Size ForwardVector = 1.
Proof.
  unfold Size, SizeSquared, ForwardVector; simpl.
  replace (1 * 1 + 0 * 0 + 0 * 0) with 1 by ring. apply sqrt_1.
Qed.

Lemma GetAimDirectionFromLocation_unit_witness :
  Size (AimComponent.GetAimDirectionFromLocation AimScenarios.scenarioA
          AimScenarios.aimingAhead (mkFVector 0 0 70))
  = 1.
Proof.
  exact (proj1 (AimLifecycle.GetAimDirectionFromLocation_unit
                  AimScenarios.scenarioA AimScenarios.aimingAhead
                  AimScenarios.agent (mkFVector 0 0 70)
                  eq_refl Size_ForwardVector)).
Defined.

Lemma BroadcastCurrentState_after_request_witness :
  length (AimLifecycle.BroadcastCurrentState
            (fst (fst (AimComponent.RequestAimUpdate AimScenarios.scenarioA
                         (AimComponent.Constructed AimComponent.DefaultConfig)))))
  = 3%nat.
Proof.
  rewrite (AimLifecycle.BroadcastCurrentState_after_request
             AimScenarios.scenarioA
             (AimComponent.Constructed AimComponent.DefaultConfig)
             AimScenarios.agent AimScenarios.emptyWorld eq_refl eq_refl).
  reflexivity.
Defined.

(** An unmapped spell during the cooldown of the earlier scenario. *)
Lemma rejection_costs_nothing_witness :
  let r := CombatComponent.dispatch (CombatComponent.ByType "Frost"%string)
             (CombatScenarios.at_time (3 / 10)) CombatScenarios.cooling in
  CombatComponent.LastFireTime (fst (fst r))
  = CombatComponent.LastFireTime CombatScenarios.cooling
  /\ CombatComponent.bWasOnCooldown (fst (fst r))
     = CombatComponent.bWasOnCooldown CombatScenarios.cooling.
Proof.
  intro r.
  destruct (CombatLifecycle.rejection_costs_nothing
              (CombatComponent.ByType "Frost"%string)
              (CombatScenarios.at_time (3 / 10)) CombatScenarios.cooling
              (fst (fst r)) (snd r) eq_refl)
    as (H1 & H2 & _).
  exact (conj H1 H2).
Defined.


(** A target with 100 of 100 health, and one with 40 left. *)
Definition healthy : HealthComponent.UAC_HealthComponent :=
  HealthComponent.mkHealth 100 100 (Some 2%nat) true true true true.

Definition wounded : HealthComponent.UAC_HealthComponent :=
  HealthComponent.mkHealth 100 40 (Some 2%nat) true true true true.

Lemma healthy_InBounds : HealthComponent.InBounds healthy.
Proof. unfold HealthComponent.InBounds; simpl. lra. Qed.

Lemma wounded_InBounds : HealthComponent.InBounds wounded.
Proof. unfold HealthComponent.InBounds; simpl. lra. Qed.

Lemma wounded_IsAlive : HealthComponent.IsAlive wounded = true.
Proof. apply HealthComponent.IsAlive_true. simpl. lra. Qed.

(** The projectile's 15 points of damage on the wounded target. *)
Lemma damage_accounting_witness :
  snd (HealthComponent.ApplyDamage 15 (Some 1%nat) wounded) = Rmin 15 40.
Proof.
  refine (proj1 (proj2 (HealthComponent.damage_accounting 15 (Some 1%nat)
                          wounded wounded_InBounds) _ wounded_IsAlive)).
  lra.
Defined.

Lemma healing_witness :
  snd (HealthComponent.Heal 80 wounded) = Rmin 80 (100 - 40).
Proof.
  refine (proj1 (HealthComponent.healing 80 wounded wounded_InBounds _
                   wounded_IsAlive)).
  lra.
Defined.

(** Five points short of the winning score, a goal worth 10. *)
Definition nearlyWon : GameMode.AWizardJamGameMode :=
  GameMode.mkGameMode 50 45 0 true.

Lemma match_end_is_not_latched_witness :
  List.filter GameMode.isMatchEnded
    (snd (GameMode.OnGoalScored (fun _ => None) (Some 1%nat) "Flame"%string
            10 true nearlyWon))
  = [GameMode.OnMatchEnded true].
Proof.
  refine (eq_trans
            (proj1 (GameMode.match_end_is_not_latched (fun _ => None) 1%nat
                      "Flame"%string 10%Z true nearlyWon _)) _).
  - discriminate.
  - reflexivity.
Defined.

End LifecycleScenarios.
